(** * A persistent Bloom filter behind a readers-writers lock

    Shallow embedding of [bloom_filter_concur.py]: the [BloomFilter] class,
    the files it keeps (one byte per cell in the bit array, a pickled
    metadata record next to it), the three semaphores of its admission
    protocol and the SHA-256 positions of an element.

    Conventions.
    - A method is a function on the pair of the object and the file system;
      it returns, raises, or blocks.
    - Python floats are read as real numbers: [math.log] is [ln], [int] is
      truncation towards zero. [derive_size] and [derive_hash_count] are
      the two parameter lines without rounding; the statements that depend
      on the value of a float carry a tolerance, and [size_float] is line 33
      with the rounding error of each double-precision operation.
    - [hashlib.sha256] is modelled bit for bit on byte lists; a string is
      the list of its UTF-8 bytes.
    - [self.cache] (the [lru_cache] wrapper) is left out: no method calls
      it, they call [compute_hash] directly. The class [FCFS_Semaphore] is
      not used by [BloomFilter]; it is modelled on its own in [FCFS]. *)

From Stdlib Require Import ZArith List String Ascii Lia DecimalString Reals Lra Permutation.
From stdpp Require Import gmap strings list.
Local Open Scope Z_scope.

(** * SHA-256 (FIPS 180-4) on 32-bit words kept in [Z] *)

Module Sha256.

Definition mask32 : Z := 0xffffffff.
Definition add32 (a b : Z) : Z := Z.land (a + b) mask32.
Definition rotr (n x : Z) : Z :=
  Z.lor (Z.shiftr x n) (Z.land (Z.shiftl x (32 - n)) mask32).
Definition not32 (x : Z) : Z := Z.lxor x mask32.
Definition xor3 (a b c : Z) : Z := Z.lxor (Z.lxor a b) c.

Definition Ch (x y z : Z) : Z := Z.lxor (Z.land x y) (Z.land (not32 x) z).
Definition Maj (x y z : Z) : Z := xor3 (Z.land x y) (Z.land x z) (Z.land y z).
Definition bsig0 (x : Z) : Z := xor3 (rotr 2 x) (rotr 13 x) (rotr 22 x).
Definition bsig1 (x : Z) : Z := xor3 (rotr 6 x) (rotr 11 x) (rotr 25 x).
Definition ssig0 (x : Z) : Z := xor3 (rotr 7 x) (rotr 18 x) (Z.shiftr x 3).
Definition ssig1 (x : Z) : Z := xor3 (rotr 17 x) (rotr 19 x) (Z.shiftr x 10).

(** The round constants and the initial hash value are the first 32 bits of
    the fractional parts of the cube roots, resp. square roots, of the first
    primes (FIPS 180-4, sections 4.2.2 and 5.3.3). *)
Definition is_prime (p : Z) : bool :=
  forallb (fun d => negb (p mod d =? 0)) (map Z.of_nat (seq 2 (Z.to_nat p - 2))).

Definition primes (n : nat) : list Z :=
  firstn n (filter (fun p => is_prime p = true) (map Z.of_nat (seq 2 310))).

(** integer cube root, one bit at a time from the top *)
Definition cbrt_step (n : Z) (r : Z) (b : nat) : Z :=
  let r' := r + 2 ^ Z.of_nat b in
  if r' * r' * r' <=? n then r' else r.

Definition cbrt (n : Z) : Z := fold_left (cbrt_step n) (rev (seq 0 40)) 0.

Definition frac32_cbrt (p : Z) : Z := cbrt (p * 2 ^ 96) mod 2 ^ 32.
Definition frac32_sqrt (p : Z) : Z := Z.sqrt (p * 2 ^ 64) mod 2 ^ 32.

Definition K : list Z := Eval vm_compute in map frac32_cbrt (primes 64).

Definition H0 : list Z := Eval vm_compute in map frac32_sqrt (primes 8).

(* big-endian bytes <-> integers *)
Definition be_int (bs : list Z) : Z := fold_left (fun acc b => acc * 256 + b) bs 0.

Fixpoint be_bytes (n : nat) (x : Z) : list Z :=
  match n with
  | O => []
  | S n' => be_bytes n' (x / 256) ++ [x mod 256]
  end.

(* message padding: 0x80, zeros up to 56 mod 64, then the bit length on 8 bytes *)
Definition pad (msg : list Z) : list Z :=
  let len := Z.of_nat (length msg) in
  let zeros := Z.to_nat ((55 - len) mod 64) in
  msg ++ [0x80] ++ repeat 0 zeros ++ be_bytes 8 (8 * len).

Fixpoint words (n : nat) (bs : list Z) : list Z :=
  match n with
  | O => []
  | S n' => be_int (firstn 4 bs) :: words n' (skipn 4 bs)
  end.

(* schedule kept newest first: W[t-2], W[t-7], W[t-15], W[t-16] sit at 1, 6, 14, 15 *)
Fixpoint extend (n : nat) (rev_w : list Z) : list Z :=
  match n with
  | O => rev_w
  | S n' =>
      let w := add32 (add32 (ssig1 (nth 1 rev_w 0)) (nth 6 rev_w 0))
                     (add32 (ssig0 (nth 14 rev_w 0)) (nth 15 rev_w 0)) in
      extend n' (w :: rev_w)
  end.

Definition schedule (block : list Z) : list Z :=
  rev (extend 48 (rev (words 16 block))).

Definition round (st : list Z) (kw : Z * Z) : list Z :=
  match st with
  | [a; b; c; d; e; f; g; h] =>
      let t1 := add32 (add32 (add32 h (bsig1 e)) (add32 (Ch e f g) (fst kw))) (snd kw) in
      let t2 := add32 (bsig0 a) (Maj a b c) in
      [add32 t1 t2; a; b; c; add32 d t1; e; f; g]
  | _ => st
  end.

Definition compress (h : list Z) (block : list Z) : list Z :=
  let st := fold_left round (combine K (schedule block)) h in
  map (fun p => add32 (fst p) (snd p)) (combine h st).

Fixpoint blocks (n : nat) (h : list Z) (bs : list Z) : list Z :=
  match n with
  | O => h
  | S n' => blocks n' (compress h (firstn 64 bs)) (skipn 64 bs)
  end.

(* the eight 32-bit words of the digest *)
Definition digest_words (msg : list Z) : list Z :=
  let p := pad msg in
  blocks (length p / 64)%nat H0 p.

Definition digest (msg : list Z) : list Z :=
  flat_map (be_bytes 4) (digest_words msg).

End Sha256.

(** [s.encode()] *)
Definition encode (s : string) : list Z :=
  map (fun c => Z.of_N (N_of_ascii c)) (list_ascii_of_string s).

(** [hexdigest()]: two lower-case hexadecimal digits per byte *)
Definition hexchar (n : Z) : ascii :=
  if n <? 10 then ascii_of_N (Z.to_N (48 + n)) else ascii_of_N (Z.to_N (87 + n)).

Fixpoint hex_of_bytes (bs : list Z) : string :=
  match bs with
  | [] => EmptyString
  | b :: r => String (hexchar (b / 16)) (String (hexchar (b mod 16)) (hex_of_bytes r))
  end.

Definition sha256_hexdigest (data : list Z) : string := hex_of_bytes (Sha256.digest data).


(** int(digest, 16): Python's parser of a hexadecimal numeral *)
Definition hexval (c : ascii) : option Z :=
  let n := Z.of_N (N_of_ascii c) in
  if (48 <=? n) && (n <=? 57) then Some (n - 48)
  else if (97 <=? n) && (n <=? 102) then Some (n - 87)
  else if (65 <=? n) && (n <=? 70) then Some (n - 55)
  else None.

Fixpoint int16_from (acc : Z) (s : string) : option Z :=
  match s with
  | EmptyString => Some acc
  | String c r =>
      match hexval c with
      | Some d => int16_from (acc * 16 + d) r
      | None => None
      end
  end.

Definition int16 (s : string) : option Z :=
  match s with
  | EmptyString => None
  | _ => int16_from 0 s
  end.

(** * Python values and [str] *)

Inductive value : Type :=
  | Int (z : Z)
  | Str (s : string).

Definition str_int (z : Z) : string := NilZero.string_of_int (Z.to_int z).

Definition str (v : value) : string :=
  match v with
  | Int z => str_int z
  | Str s => s
  end.

(** * Outcomes of a call *)

(** The exceptions the methods can raise. [BusError] is not a Python
    exception: it stands for the fault on reading a mapping whose file does
    not hold the bytes any more. *)
Inductive exn : Type :=
  | AssertionError
  | ValueError
  | OverflowError
  | ZeroDivisionError
  | FileNotFoundError
  | IndexError
  | EOFError
  | UnpicklingError
  | BusError.

(** A call returns, raises, or blocks for ever on a semaphore nobody will
    release (one thread runs at a time in this part of the development). *)
Inductive outcome (A : Type) : Type :=
  | Returned (a : A)
  | Raised (e : exn)
  | Blocked.
Arguments Returned {A} a.
Arguments Raised {A} e.
Arguments Blocked {A}.

(** * The file system *)

(** A file holds raw bytes (a bit array, one byte per cell) or the pickle
    of the metadata dictionary. *)
Inductive content : Type :=
  | Bytes (bs : list Z)
  | Pickle (size hash_count : Z).

(** Directory entries name inodes; an inode outlives its directory entry
    while something still maps it. *)
Record filesystem : Type := {
  dir : gmap string nat;
  inodes : gmap nat content;
  next_inode : nat
}.

Definition empty_fs : filesystem :=
  {| dir := ∅; inodes := ∅; next_inode := 0 |}.

Definition os_path_exists (p : string) (fs : filesystem) : bool :=
  match dir fs !! p with Some _ => true | None => false end.

Definition os_remove (p : string) (fs : filesystem) : outcome unit * filesystem :=
  match dir fs !! p with
  | Some _ =>
      (Returned tt,
       {| dir := delete p (dir fs); inodes := inodes fs; next_inode := next_inode fs |})
  | None => (Raised FileNotFoundError, fs)
  end.

(** [with open(p, "wb") as f: f.write(c)]: truncates the file or creates it *)
Definition write_file (p : string) (c : content) (fs : filesystem) : filesystem :=
  match dir fs !! p with
  | Some i =>
      {| dir := dir fs; inodes := <[i := c]> (inodes fs); next_inode := next_inode fs |}
  | None =>
      {| dir := <[p := next_inode fs]> (dir fs);
         inodes := <[next_inode fs := c]> (inodes fs);
         next_inode := S (next_inode fs) |}
  end.

Definition read_file (p : string) (fs : filesystem) : option content :=
  match dir fs !! p with
  | Some i => inodes fs !! i
  | None => None
  end.

(** A mapping: the inode it maps and its length. *)
Record mmap : Type := { ino : nat; map_length : Z }.

(** [open(p, "r+b")] followed by [mmap.mmap(file.fileno(), length=len)] *)
Definition mmap_open (p : string) (len : Z) (fs : filesystem) : outcome mmap :=
  match read_file p fs, dir fs !! p with
  | Some (Bytes bs), Some i =>
      if len <? 0 then Raised OverflowError
      else if len =? 0 then
        match bs with
        | [] => Raised ValueError
        | _ => Returned {| ino := i; map_length := Z.of_nat (length bs) |}
        end
      else if Z.of_nat (length bs) <? len then Raised ValueError
      else Returned {| ino := i; map_length := len |}
  | Some (Pickle _ _), _ => Raised ValueError
  | _, _ => Raised FileNotFoundError
  end.

(** Python's index normalisation: a negative index counts from the end. *)
Definition norm_index (len index : Z) : option nat :=
  let j := if index <? 0 then index + len else index in
  if (0 <=? j) && (j <? len) then Some (Z.to_nat j) else None.

(** [m[index]] *)
Definition mmap_get (m : mmap) (index : Z) (fs : filesystem) : outcome Z :=
  match norm_index (map_length m) index with
  | None => Raised IndexError
  | Some j =>
      match inodes fs !! ino m with
      | Some (Bytes bs) =>
          match bs !! j with
          | Some b => Returned b
          | None => Raised BusError
          end
      | _ => Raised BusError
      end
  end.

(** [m[index] = b] *)
Definition mmap_set (m : mmap) (index b : Z) (fs : filesystem) : outcome unit * filesystem :=
  match norm_index (map_length m) index with
  | None => (Raised IndexError, fs)
  | Some j =>
      match inodes fs !! ino m with
      | Some (Bytes bs) =>
          if (j <? length bs)%nat then
            (Returned tt,
             {| dir := dir fs;
                inodes := <[ino m := Bytes (<[j := b]> bs)]> (inodes fs);
                next_inode := next_inode fs |})
          else (Raised BusError, fs)
      | _ => (Raised BusError, fs)
      end
  end.

(** * The filter object *)

Record BloomFilter : Type := {
  size : Z;
  hash_count : Z;
  filename : string;
  readcount : Z;
  resource : Z;
  rmutex : Z;
  serviceQueue : Z;
  bit_array : mmap
}.

Inductive semaphore : Type := Resource | Rmutex | ServiceQueue.

Definition sem_value (s : semaphore) (bf : BloomFilter) : Z :=
  match s with
  | Resource => resource bf
  | Rmutex => rmutex bf
  | ServiceQueue => serviceQueue bf
  end.

Definition set_sem (s : semaphore) (v : Z) (bf : BloomFilter) : BloomFilter :=
  {| size := size bf; hash_count := hash_count bf; filename := filename bf;
     readcount := readcount bf;
     resource := match s with Resource => v | _ => resource bf end;
     rmutex := match s with Rmutex => v | _ => rmutex bf end;
     serviceQueue := match s with ServiceQueue => v | _ => serviceQueue bf end;
     bit_array := bit_array bf |}.

Definition set_readcount (v : Z) (bf : BloomFilter) : BloomFilter :=
  {| size := size bf; hash_count := hash_count bf; filename := filename bf;
     readcount := v; resource := resource bf; rmutex := rmutex bf;
     serviceQueue := serviceQueue bf; bit_array := bit_array bf |}.

Definition set_params (s h : Z) (bf : BloomFilter) : BloomFilter :=
  {| size := s; hash_count := h; filename := filename bf;
     readcount := readcount bf; resource := resource bf; rmutex := rmutex bf;
     serviceQueue := serviceQueue bf; bit_array := bit_array bf |}.

(** * Methods as state transformers over the object and the file system *)

Definition world : Type := BloomFilter * filesystem.
Definition M (A : Type) : Type := world -> outcome A * world.

Definition ret {A} (a : A) : M A := fun w => (Returned a, w).
Definition raise {A} (e : exn) : M A := fun w => (Raised e, w).
Definition bind {A B} (m : M A) (k : A -> M B) : M B :=
  fun w =>
    match m w with
    | (Returned a, w') => k a w'
    | (Raised e, w') => (Raised e, w')
    | (Blocked, w') => (Blocked, w')
    end.

Notation "x <- m ;; k" := (bind m (fun x => k))
  (at level 100, m at next level, right associativity).
Notation "m ;; k" := (bind m (fun _ => k))
  (at level 100, right associativity).

Definition get_self : M BloomFilter := fun w => (Returned (fst w), w).
Definition modify_self (f : BloomFilter -> BloomFilter) : M unit :=
  fun w => (Returned tt, (f (fst w), snd w)).
Definition lift {A} (o : outcome A) : M A := fun w => (o, w).
Definition on_fs {A} (f : filesystem -> outcome A * filesystem) : M A :=
  fun w => let (o, fs') := f (snd w) in (o, (fst w, fs')).

(** [threading.Semaphore]: acquire blocks at zero, release always adds one *)
Definition acquire (s : semaphore) : M unit :=
  fun w =>
    if 0 <? sem_value s (fst w)
    then (Returned tt, (set_sem s (sem_value s (fst w) - 1) (fst w), snd w))
    else (Blocked, w).

Definition release (s : semaphore) : M unit :=
  modify_self (fun bf => set_sem s (sem_value s bf + 1) bf).

Definition meta_name (bf : BloomFilter) : string := filename bf +:+ ".meta".

Definition save_metadata : M unit :=
  self <- get_self ;;
  on_fs (fun fs =>
    (Returned tt, write_file (meta_name self) (Pickle (size self) (hash_count self)) fs)).

Definition load_metadata : M unit :=
  fun w =>
    match dir (snd w) !! meta_name (fst w) with
    | None => (Raised FileNotFoundError, w)
    | Some i =>
        match inodes (snd w) !! i with
        | Some (Pickle s h) => (Returned tt, (set_params s h (fst w), snd w))
        | Some (Bytes []) => (Raised EOFError, w)
        | Some (Bytes _) => (Raised UnpicklingError, w)
        | None => (Raised FileNotFoundError, w)
        end
    end.

Definition sha256_int (s : string) : option Z := int16 (sha256_hexdigest (encode s)).

Definition compute_hash (self : BloomFilter) (elem : string) (i : Z) : outcome Z :=
  match sha256_int (elem +:+ str_int i) with
  | None => Raised ValueError
  | Some d => if size self =? 0 then Raised ZeroDivisionError else Returned (d mod size self)
  end.

(** [range(n)] *)
Definition range (n : Z) : list Z := map Z.of_nat (seq 0 (Z.to_nat n)).

Definition bit_set (index : Z) : M unit :=
  fun w => let (o, fs') := mmap_set (bit_array (fst w)) index 1 (snd w) in (o, (fst w, fs')).

Definition bit_get (index : Z) : M Z :=
  fun w => (mmap_get (bit_array (fst w)) index (snd w), w).

(** [mmap.flush()]: the model has no crash between a store and its
    write-back, so the mapped inode already is what is on disk. *)
Definition flush : M unit := ret tt.

Fixpoint add_loop (elem : string) (idx : list Z) : M unit :=
  match idx with
  | [] => ret tt
  | i :: rest =>
      self <- get_self ;;
      index <- lift (compute_hash self elem i) ;;
      bit_set index ;;
      add_loop elem rest
  end.

Definition add_elem (elem : value) : M unit :=
  acquire ServiceQueue ;;
  acquire Resource ;;
  release ServiceQueue ;;
  load_metadata ;;
  self <- get_self ;;
  add_loop (str elem) (range (hash_count self)) ;;
  flush ;;
  release Resource.

Fixpoint check_loop (elem : string) (idx : list Z) : M bool :=
  match idx with
  | [] => ret true
  | i :: rest =>
      self <- get_self ;;
      index <- lift (compute_hash self elem i) ;;
      b <- bit_get index ;;
      if b =? 1 then check_loop elem rest else ret false
  end.

Definition check_member (elem : value) : M bool :=
  acquire ServiceQueue ;;
  acquire Rmutex ;;
  modify_self (fun bf => set_readcount (readcount bf + 1) bf) ;;
  self <- get_self ;;
  (if readcount self =? 1 then acquire Resource else ret tt) ;;
  release ServiceQueue ;;
  release Rmutex ;;
  load_metadata ;;
  self <- get_self ;;
  res <- check_loop (str elem) (range (hash_count self)) ;;
  acquire Rmutex ;;
  modify_self (fun bf => set_readcount (readcount bf - 1) bf) ;;
  self <- get_self ;;
  (if readcount self =? 0 then release Resource else ret tt) ;;
  release Rmutex ;;
  ret res.

Definition delete : M unit :=
  self <- get_self ;;
  on_fs (os_remove (filename self)) ;;
  on_fs (os_remove (meta_name self)).

(** The part of [__init__] after the parameters are derived. *)
Definition create (sz hc : Z) (fname : string) (fs : filesystem)
  : outcome BloomFilter * filesystem :=
  let fs1 := if os_path_exists fname fs then snd (os_remove fname fs) else fs in
  let fs2 := write_file fname (Bytes (repeat 0 (Z.to_nat sz))) fs1 in
  match mmap_open fname sz fs2 with
  | Returned m =>
      let self := {| size := sz; hash_count := hc; filename := fname;
                     readcount := 0; resource := 1; rmutex := 1; serviceQueue := 1;
                     bit_array := m |} in
      match save_metadata (self, fs2) with
      | (Returned _, (self', fs3)) => (Returned self', fs3)
      | (Raised e, (_, fs3)) => (Raised e, fs3)
      | (Blocked, (_, fs3)) => (Blocked, fs3)
      end
  | Raised e => (Raised e, fs2)
  | Blocked => (Blocked, fs2)
  end.

(** [int(x)] on a float: truncation towards zero *)
Definition int (x : R) : Z := if Rle_dec 0 x then Zfloor x else Zceil x.

(** The two parameter lines of [__init__]: the float handed to [int], and
    the integer kept. *)
Definition size_value (num_elem : Z) (target_error_rate : R) : R :=
  (IZR (- num_elem) * ln target_error_rate / ln 2 ^ 2)%R.

Definition derive_size (num_elem : Z) (target_error_rate : R) : Z :=
  int (size_value num_elem target_error_rate).

Definition hash_count_value (sz num_elem : Z) : R :=
  (IZR sz / IZR num_elem * ln 2)%R.

Definition derive_hash_count (sz num_elem : Z) : Z :=
  int (hash_count_value sz num_elem).

Definition __init__ (num_elem : Z) (target_error_rate : R) (fname : string)
    (fs : filesystem) : outcome BloomFilter * filesystem :=
  if Rlt_dec target_error_rate (48 / 100) then
    if Rlt_dec 0 target_error_rate then
      let sz := derive_size num_elem target_error_rate in
      if num_elem =? 0 then (Raised ZeroDivisionError, fs)
      else create sz (derive_hash_count sz num_elem) fname fs
    else (Raised ValueError, fs)
  else (Raised AssertionError, fs).

(** * Predicates used in the statements *)

Definition is_byte (b : Z) : Prop := 0 <= b < 256.

(** No call is in progress: nobody reads, every semaphore is free. *)
Definition idle (bf : BloomFilter) : Prop :=
  readcount bf = 0 /\ resource bf = 1 /\ rmutex bf = 1 /\ serviceQueue bf = 1.

(** Directory entries name inodes that have been allocated. *)
Definition wf_fs (fs : filesystem) : Prop :=
  forall p i, dir fs !! p = Some i -> (i < next_inode fs)%nat.

(** The object while a writer, or one reader, is inside. *)
Definition writing (bf : BloomFilter) : BloomFilter := set_sem Resource 0 bf.
Definition reading (bf : BloomFilter) : BloomFilter :=
  set_readcount 1 (set_sem Resource 0 bf).

(** * Fixed-point lower bounds of [exp]

    [exp_lb k num den / scale] stays below [exp (num / den)]: it starts from
    [1 + x <= exp x] at [x = num / (den * 2^k)] and squares [k] times,
    rounding down to a multiple of [1 / scale] after each product. *)

Definition scale : Z := 10 ^ 15.

Fixpoint sq_iter (k : nat) (a : Z) : Z :=
  match k with
  | O => a
  | S k' => sq_iter k' (a * a / scale)
  end.

Definition exp_lb (k : nat) (num den : Z) : Z :=
  sq_iter k (scale * (den * 2 ^ Z.of_nat k + num) / (den * 2 ^ Z.of_nat k)).

(** The mapping of the object is backed by a byte file that covers it. *)
Definition mapped (bf : BloomFilter) (fs : filesystem) : Prop :=
  exists bs, inodes fs !! ino (bit_array bf) = Some (Bytes bs) /\
             map_length (bit_array bf) <= Z.of_nat (length bs).

(** The objects of the demo at the end of the source file. *)
Definition demo_path : string := "bloom_filter.bin".

(** * Threads calling [add_elem] on one shared object

    Every statement of [add_elem] is one atomic step of the thread that runs
    it; a scheduler picks the thread that moves next. A thread that would
    block has no step; one that raises stops where it is, with the
    semaphores it holds. *)

Inductive pc : Type :=
  | AtServiceAcquire
  | AtResourceAcquire
  | AtServiceRelease
  | AtLoad
  | AtRange
  | AtLoop (idx : list Z)
  | AtStore (index : Z) (idx : list Z)
  | AtFlush
  | AtResourceRelease
  | Finished
  | Failed (e : exn).

Record thread : Type := { elem : value; point : pc }.

Definition goto (t : thread) (p : pc) : thread := {| elem := elem t; point := p |}.

Definition after (t : thread) (next : pc) (r : outcome unit * world)
  : option (thread * world) :=
  match r with
  | (Returned _, w') => Some (goto t next, w')
  | (Raised x, w') => Some (goto t (Failed x), w')
  | (Blocked, _) => None
  end.

Definition thread_step (t : thread) (w : world) : option (thread * world) :=
  match point t with
  | AtServiceAcquire => after t AtResourceAcquire (acquire ServiceQueue w)
  | AtResourceAcquire => after t AtServiceRelease (acquire Resource w)
  | AtServiceRelease => after t AtLoad (release ServiceQueue w)
  | AtLoad => after t AtRange (load_metadata w)
  | AtRange => Some (goto t (AtLoop (range (hash_count (fst w)))), w)
  | AtLoop [] => Some (goto t AtFlush, w)
  | AtLoop (i :: rest) =>
      match compute_hash (fst w) (str (elem t)) i with
      | Returned index => Some (goto t (AtStore index rest), w)
      | Raised x => Some (goto t (Failed x), w)
      | Blocked => None
      end
  | AtStore index rest => after t (AtLoop rest) (bit_set index w)
  | AtFlush => after t AtResourceRelease (flush w)
  | AtResourceRelease => after t Finished (release Resource w)
  | Finished => None
  | Failed _ => None
  end.

Record system : Type := { threads : list thread; shared : world }.

Definition spawn (es : list value) (w : world) : system :=
  {| threads := map (fun e => {| elem := e; point := AtServiceAcquire |}) es;
     shared := w |}.

Definition sys_step (k : nat) (st : system) : option system :=
  match threads st !! k with
  | Some t =>
      match thread_step t (shared st) with
      | Some (t', w') => Some {| threads := <[k := t']> (threads st); shared := w' |}
      | None => None
      end
  | None => None
  end.

(** A schedule names the thread that takes each step. *)
Fixpoint run (sched : list nat) (st : system) : option system :=
  match sched with
  | [] => Some st
  | k :: rest =>
      match sys_step k st with
      | Some st' => run rest st'
      | None => None
      end
  end.

Definition finished (t : thread) : Prop := point t = Finished.

(** The same additions one after the other, by one caller. *)
Fixpoint add_all (es : list value) : M unit :=
  match es with
  | [] => ret tt
  | e :: rest => add_elem e ;; add_all rest
  end.

(** Threads that hold [resource], and threads that hold [serviceQueue]. *)
Definition holds_resource (t : thread) : bool :=
  match point t with
  | AtServiceAcquire | AtResourceAcquire | Finished => false
  | _ => true
  end.

Definition holds_service (t : thread) : bool :=
  match point t with
  | AtResourceAcquire | AtServiceRelease => true
  | _ => false
  end.

Fixpoint count (f : thread -> bool) (ts : list thread) : Z :=
  match ts with
  | [] => 0
  | t :: rest => (if f t then 1 else 0) + count f rest
  end.

(** Each semaphore counts the threads that do not hold it. *)
Definition locks_inv (st : system) : Prop :=
  resource (fst (shared st)) = 1 - count holds_resource (threads st) /\
  serviceQueue (fst (shared st)) = 1 - count holds_service (threads st) /\
  0 <= resource (fst (shared st)) /\
  0 <= serviceQueue (fst (shared st)).

(** * Vocabulary of the interleaving proof *)

Definition position (s : Z) (el : string) (i : Z) : Z :=
  Sha256.be_int (Sha256.digest (encode (el +:+ str_int i))) mod s.

Definition metadata (name : string) (fs : filesystem) : option (Z * Z) :=
  match read_file name fs with
  | Some (Pickle s h) => Some (s, h)
  | _ => None
  end.

(** The cells that the elements [es] occupy in the mapping [m]. *)
Definition cell_of (m : mmap) (s h : Z) (es : list value) (j : nat) : Prop :=
  exists e i, In e es /\ In i (range h) /\
              norm_index (map_length m) (position s (str e) i) = Some j.

(** [fs] comes from [fs0] by storing 1 into cells of [m] taken from [cells]. *)
Definition evolves (m : mmap) (cells : nat -> Prop) (fs0 fs : filesystem) : Prop :=
  dir fs = dir fs0 /\
  next_inode fs = next_inode fs0 /\
  (forall k, k <> ino m -> inodes fs !! k = inodes fs0 !! k) /\
  match inodes fs0 !! ino m with
  | Some (Bytes bs0) =>
      exists bs, inodes fs !! ino m = Some (Bytes bs) /\
                 length bs = length bs0 /\
                 forall j, bs !! j = bs0 !! j \/ (bs !! j = Some 1 /\ cells j)
  | other => inodes fs !! ino m = other
  end.

Definition marked_at (m : mmap) (s : Z) (el : string) (i : Z) (fs : filesystem) : Prop :=
  s <> 0 /\ mmap_get m (position s el i) fs = Returned 1.

Definition storable (m : mmap) (s : Z) (el : string) (i : Z) (fs : filesystem) : Prop :=
  s <> 0 /\
  exists j bs, norm_index (map_length m) (position s el i) = Some j /\
               inodes fs !! ino m = Some (Bytes bs) /\ (j < length bs)%nat.

(** What a thread at a given point has achieved. *)
Definition thread_inv (m : mmap) (name : string) (fs0 : filesystem) (s h : Z)
    (t : thread) (w : world) : Prop :=
  match point t with
  | AtRange =>
      metadata name fs0 = Some (s, h) /\ size (fst w) = s /\ hash_count (fst w) = h
  | AtLoop idx =>
      metadata name fs0 = Some (s, h) /\ size (fst w) = s /\
      exists done, range h = done ++ idx /\
                   forall i, In i done -> marked_at m s (str (elem t)) i (snd w)
  | AtStore x rest =>
      metadata name fs0 = Some (s, h) /\ size (fst w) = s /\
      exists done i, range h = done ++ i :: rest /\
                     s <> 0 /\ x = position s (str (elem t)) i /\
                     forall i', In i' done -> marked_at m s (str (elem t)) i' (snd w)
  | AtFlush | AtResourceRelease | Finished =>
      metadata name fs0 = Some (s, h) /\
      forall i, In i (range h) -> marked_at m s (str (elem t)) i (snd w)
  | _ => True
  end.

Definition system_inv (m : mmap) (name : string) (fs0 : filesystem) (s h : Z)
    (es : list value) (st : system) : Prop :=
  map elem (threads st) = es /\
  bit_array (fst (shared st)) = m /\
  meta_name (fst (shared st)) = name /\
  evolves m (cell_of m s h es) fs0 (snd (shared st)) /\
  Forall (fun t => thread_inv m name fs0 s h t (shared st)) (threads st).

(** What one step may do to the shared world, as far as the other threads
    are concerned. *)
Definition advances (m : mmap) (s h : Z) (w w' : world) : Prop :=
  ((size (fst w') = size (fst w) /\ hash_count (fst w') = hash_count (fst w)) \/
   (size (fst w') = s /\ hash_count (fst w') = h)) /\
  forall x, mmap_get m x (snd w) = Returned 1 -> mmap_get m x (snd w') = Returned 1.

(** The effect of one step of one thread. *)
Definition step_result (m : mmap) (name : string) (fs0 : filesystem) (s h : Z)
    (es : list value) (t t' : thread) (w w' : world) : Prop :=
  elem t' = elem t /\
  bit_array (fst w') = bit_array (fst w) /\
  meta_name (fst w') = meta_name (fst w) /\
  evolves m (cell_of m s h es) fs0 (snd w') /\
  advances m s h w w' /\
  thread_inv m name fs0 s h t' w'.

Ltac step_goals :=
  unfold step_result; cbn [fst snd elem point goto];
  split; [| split; [| split; [| split; [| split]]]].

(** The filter of the demo, as [BloomFilter(100, 0.1)] leaves it on an empty
    file system. *)
Definition demo_bf : BloomFilter :=
  {| size := 479; hash_count := 3; filename := demo_path; readcount := 0;
     resource := 1; rmutex := 1; serviceQueue := 1;
     bit_array := {| ino := 0; map_length := 479 |} |}.

Definition demo_fs : filesystem := snd (create 479 3 demo_path empty_fs).

(** Two writers: the second passes the gate as soon as the first has left
    it, then waits for [resource]. *)
Definition demo_schedule : list nat :=
  ([0; 0; 0; 1] ++ repeat 0 11 ++ repeat 1 13)%nat.

(** * Further vocabulary: what a call may change *)

(** Cells of the mapping may turn to 1; nothing else in the file system
    moves, and the object keeps its mapping and its file name. *)
Definition only_sets (w w' : world) : Prop :=
  bit_array (fst w') = bit_array (fst w) /\
  filename (fst w') = filename (fst w) /\
  evolves (bit_array (fst w)) (fun _ => True) (snd w) (snd w').

(** The file system is left as it is. *)
Definition reads_only (w w' : world) : Prop :=
  bit_array (fst w') = bit_array (fst w) /\
  filename (fst w') = filename (fst w) /\
  snd w' = snd w.

(** The object as a call that raised inside [add_elem], or inside
    [check_member], leaves it: [resource] is still taken. *)
Definition writer_inside (bf : BloomFilter) : Prop :=
  readcount bf = 0 /\ resource bf = 0 /\ rmutex bf = 1 /\ serviceQueue bf = 1.

Definition reader_inside (bf : BloomFilter) : Prop :=
  readcount bf = 1 /\ resource bf = 0 /\ rmutex bf = 1 /\ serviceQueue bf = 1.

(** * [FCFS_Semaphore]: a semaphore behind a queue of thread identities *)

Module FCFS.

Record FCFS_Semaphore : Type := {
  semaphore : Z;
  service_queue : list nat
}.

(** [FCFS_Semaphore()] *)
Definition new : FCFS_Semaphore := {| semaphore := 1; service_queue := [] |}.

Definition with_semaphore (v : Z) (s : FCFS_Semaphore) : FCFS_Semaphore :=
  {| semaphore := v; service_queue := service_queue s |}.

Definition with_queue (q : list nat) (s : FCFS_Semaphore) : FCFS_Semaphore :=
  {| semaphore := semaphore s; service_queue := q |}.

(** The methods when a single thread runs. A caller that polls a queue
    whose head nobody will remove, or waits on a semaphore or on an empty
    queue, never returns: [Blocked]. *)
Definition acquire (thread_id : nat) (s : FCFS_Semaphore)
  : outcome unit * FCFS_Semaphore :=
  let s1 := with_queue (service_queue s ++ [thread_id]) s in
  match service_queue s1 with
  | [] => (Raised IndexError, s1)
  | head :: _ =>
      if Nat.eqb head thread_id then
        if 0 <? semaphore s1
        then (Returned tt, with_semaphore (semaphore s1 - 1) s1)
        else (Blocked, s1)
      else (Blocked, s1)
  end.

Definition release (s : FCFS_Semaphore) : outcome unit * FCFS_Semaphore :=
  let s1 := with_semaphore (semaphore s + 1) s in
  match service_queue s1 with
  | [] => (Blocked, s1)
  | _ :: rest => (Returned tt, with_queue rest s1)
  end.

(** Several threads, each running [acquire()], its critical section, then
    [release()]; thread [k] has identity [k]. One statement is one step. *)
Inductive pc : Type :=
  | BeforePut
  | Polling
  | AtSemaphore
  | Inside
  | AtGet
  | Left
  | Crashed.

(** [arrivals] and [admissions] record the order of the [put]s and of the
    entries into the critical section; the program does not read them. *)
Record system : Type := {
  lock : FCFS_Semaphore;
  pcs : list pc;
  arrivals : list nat;
  admissions : list nat
}.

Definition start (n : nat) : system :=
  {| lock := new; pcs := repeat BeforePut n; arrivals := []; admissions := [] |}.

Definition move (k : nat) (p : pc) (st : system) : system :=
  {| lock := lock st; pcs := <[k := p]> (pcs st);
     arrivals := arrivals st; admissions := admissions st |}.

Definition step (k : nat) (st : system) : option system :=
  match pcs st !! k with
  | Some BeforePut =>
      Some {| lock := with_queue (service_queue (lock st) ++ [k]) (lock st);
              pcs := <[k := Polling]> (pcs st);
              arrivals := arrivals st ++ [k];
              admissions := admissions st |}
  | Some Polling =>
      match service_queue (lock st) with
      | [] => Some (move k Crashed st)
      | head :: _ => if Nat.eqb head k then Some (move k AtSemaphore st) else Some st
      end
  | Some AtSemaphore =>
      if 0 <? semaphore (lock st)
      then Some {| lock := with_semaphore (semaphore (lock st) - 1) (lock st);
                   pcs := <[k := Inside]> (pcs st);
                   arrivals := arrivals st;
                   admissions := admissions st ++ [k] |}
      else None
  | Some Inside =>
      Some {| lock := with_semaphore (semaphore (lock st) + 1) (lock st);
              pcs := <[k := AtGet]> (pcs st);
              arrivals := arrivals st;
              admissions := admissions st |}
  | Some AtGet =>
      match service_queue (lock st) with
      | [] => None
      | _ :: rest =>
          Some {| lock := with_queue rest (lock st);
                  pcs := <[k := Left]> (pcs st);
                  arrivals := arrivals st;
                  admissions := admissions st |}
      end
  | Some Left => None
  | Some Crashed => None
  | None => None
  end.

Fixpoint run (sched : list nat) (st : system) : option system :=
  match sched with
  | [] => Some st
  | k :: rest =>
      match step k st with
      | Some st' => run rest st'
      | None => None
      end
  end.

(** The thread at the head of the queue, when it is past the polling loop. *)
Definition admitted (st : system) : list nat :=
  match service_queue (lock st) with
  | k :: _ =>
      match pcs st !! k with
      | Some Inside => [k]
      | Some AtGet => [k]
      | _ => []
      end
  | [] => []
  end.

Definition holder (st : system) : Z :=
  match service_queue (lock st) with
  | k :: _ => match pcs st !! k with Some Inside => 1 | _ => 0 end
  | [] => 0
  end.

Definition thread_inv (st : system) (gone : list nat) (k : nat) (p : pc) : Prop :=
  match p with
  | BeforePut => ~ In k (arrivals st)
  | Polling => In k (service_queue (lock st))
  | AtSemaphore => hd_error (service_queue (lock st)) = Some k
  | Inside => hd_error (service_queue (lock st)) = Some k
  | AtGet => hd_error (service_queue (lock st)) = Some k
  | Left => In k gone
  | Crashed => False
  end.

Definition inv (st : system) : Prop :=
  exists gone,
    arrivals st = gone ++ service_queue (lock st) /\
    NoDup (arrivals st) /\
    (forall k p, pcs st !! k = Some p -> thread_inv st gone k p) /\
    semaphore (lock st) = 1 - holder st /\
    admissions st = gone ++ admitted st.

Ltac open_state :=
  unfold thread_inv, holder, admitted;
  cbn [lock pcs arrivals admissions semaphore service_queue with_queue with_semaphore move].

(** Two threads: the second joins the queue while the first is inside. *)
Definition two_threads : list nat := [0; 1; 1; 0; 0; 1; 0; 0; 1; 1; 1; 1]%nat.

End FCFS.

(** * Readers and writers on one shared object

    A reader runs [check_member] statement by statement, as a writer runs
    [add_elem]. The two branches of an [if] are two points. *)

Inductive rpc : Type :=
  | RServiceAcquire
  | RMutexAcquire
  | RIncrement
  | RFirstTest
  | RResourceAcquire
  | RServiceRelease
  | RMutexRelease
  | RLoad
  | RRange
  | RLoop (idx : list Z)
  | RRead (index : Z) (idx : list Z)
  | RExitMutexAcquire (res : bool)
  | RDecrement (res : bool)
  | RLastTest (res : bool)
  | RResourceRelease (res : bool)
  | RExitMutexRelease (res : bool)
  | RReturned (res : bool)
  | RFailed (e : exn).

Record reader : Type := { relem : value; rpoint : rpc }.

Definition rgoto (r : reader) (p : rpc) : reader := {| relem := relem r; rpoint := p |}.

Definition rafter (r : reader) (next : rpc) (o : outcome unit * world)
  : option (reader * world) :=
  match o with
  | (Returned _, w') => Some (rgoto r next, w')
  | (Raised x, w') => Some (rgoto r (RFailed x), w')
  | (Blocked, _) => None
  end.

Definition reader_step (r : reader) (w : world) : option (reader * world) :=
  match rpoint r with
  | RServiceAcquire => rafter r RMutexAcquire (acquire ServiceQueue w)
  | RMutexAcquire => rafter r RIncrement (acquire Rmutex w)
  | RIncrement =>
      rafter r RFirstTest
        (modify_self (fun bf => set_readcount (readcount bf + 1) bf) w)
  | RFirstTest =>
      if readcount (fst w) =? 1
      then Some (rgoto r RResourceAcquire, w)
      else Some (rgoto r RServiceRelease, w)
  | RResourceAcquire => rafter r RServiceRelease (acquire Resource w)
  | RServiceRelease => rafter r RMutexRelease (release ServiceQueue w)
  | RMutexRelease => rafter r RLoad (release Rmutex w)
  | RLoad => rafter r RRange (load_metadata w)
  | RRange => Some (rgoto r (RLoop (range (hash_count (fst w)))), w)
  | RLoop [] => Some (rgoto r (RExitMutexAcquire true), w)
  | RLoop (i :: rest) =>
      match compute_hash (fst w) (str (relem r)) i with
      | Returned index => Some (rgoto r (RRead index rest), w)
      | Raised x => Some (rgoto r (RFailed x), w)
      | Blocked => None
      end
  | RRead index rest =>
      match bit_get index w with
      | (Returned b, w') =>
          if b =? 1 then Some (rgoto r (RLoop rest), w')
          else Some (rgoto r (RExitMutexAcquire false), w')
      | (Raised x, w') => Some (rgoto r (RFailed x), w')
      | (Blocked, _) => None
      end
  | RExitMutexAcquire res => rafter r (RDecrement res) (acquire Rmutex w)
  | RDecrement res =>
      rafter r (RLastTest res)
        (modify_self (fun bf => set_readcount (readcount bf - 1) bf) w)
  | RLastTest res =>
      if readcount (fst w) =? 0
      then Some (rgoto r (RResourceRelease res), w)
      else Some (rgoto r (RExitMutexRelease res), w)
  | RResourceRelease res => rafter r (RExitMutexRelease res) (release Resource w)
  | RExitMutexRelease res => rafter r (RReturned res) (release Rmutex w)
  | RReturned _ => None
  | RFailed _ => None
  end.

Inductive call : Type :=
  | Add (e : value)
  | Contains (e : value).

Inductive job : Type :=
  | Writer (t : thread)
  | Reader (r : reader).

Definition job_of (c : call) : job :=
  match c with
  | Add e => Writer {| elem := e; point := AtServiceAcquire |}
  | Contains e => Reader {| relem := e; rpoint := RServiceAcquire |}
  end.

Definition job_step (j : job) (w : world) : option (job * world) :=
  match j with
  | Writer t =>
      match thread_step t w with
      | Some (t', w') => Some (Writer t', w')
      | None => None
      end
  | Reader r =>
      match reader_step r w with
      | Some (r', w') => Some (Reader r', w')
      | None => None
      end
  end.

Record rw_system : Type := { jobs : list job; rw_shared : world }.

Definition rw_spawn (cs : list call) (w : world) : rw_system :=
  {| jobs := map job_of cs; rw_shared := w |}.

Definition rw_step (k : nat) (st : rw_system) : option rw_system :=
  match jobs st !! k with
  | Some j =>
      match job_step j (rw_shared st) with
      | Some (j', w') => Some {| jobs := <[k := j']> (jobs st); rw_shared := w' |}
      | None => None
      end
  | None => None
  end.

Fixpoint rw_run (sched : list nat) (st : rw_system) : option rw_system :=
  match sched with
  | [] => Some st
  | k :: rest =>
      match rw_step k st with
      | Some st' => rw_run rest st'
      | None => None
      end
  end.

(** ** Who holds what *)

Definition total (f : job -> Z) (js : list job) : Z :=
  fold_right (fun j acc => f j + acc) 0 js.

Definition b2z (b : bool) : Z := if b then 1 else 0.

(** a writer past [resource.acquire()] *)
Definition writing_job (j : job) : Z :=
  match j with Writer t => b2z (holds_resource t) | Reader _ => 0 end.

(** a reader between the entry and the exit protocol *)
Definition reading_job (j : job) : Z :=
  match j with
  | Reader r =>
      match rpoint r with
      | RLoad | RRange | RLoop _ | RRead _ _ => 1
      | _ => 0
      end
  | Writer _ => 0
  end.

Definition at_gate (j : job) : Z :=
  match j with
  | Writer t => b2z (holds_service t)
  | Reader r =>
      match rpoint r with
      | RMutexAcquire | RIncrement | RFirstTest | RResourceAcquire | RServiceRelease => 1
      | _ => 0
      end
  end.

Definition in_mutex (j : job) : Z :=
  match j with
  | Reader r =>
      match rpoint r with
      | RIncrement | RFirstTest | RResourceAcquire | RServiceRelease | RMutexRelease
      | RDecrement _ | RLastTest _ | RResourceRelease _ | RExitMutexRelease _ => 1
      | _ => 0
      end
  | Writer _ => 0
  end.

(** a reader that [readcount] counts *)
Definition counted (j : job) : Z :=
  match j with
  | Reader r =>
      match rpoint r with
      | RFirstTest | RResourceAcquire | RServiceRelease | RMutexRelease
      | RLoad | RRange | RLoop _ | RRead _ _
      | RExitMutexAcquire _ | RDecrement _ | RFailed _ => 1
      | _ => 0
      end
  | Writer _ => 0
  end.

(** counted, the first-reader test not yet settled *)
Definition entering (j : job) : Z :=
  match j with
  | Reader r =>
      match rpoint r with RFirstTest | RResourceAcquire => 1 | _ => 0 end
  | Writer _ => 0
  end.

(** no longer counted, the last-reader test not yet settled *)
Definition leaving (j : job) : Z :=
  match j with
  | Reader r =>
      match rpoint r with RLastTest _ | RResourceRelease _ => 1 | _ => 0 end
  | Writer _ => 0
  end.

Definition first_reader (j : job) : Z :=
  match j with
  | Reader r => match rpoint r with RResourceAcquire => 1 | _ => 0 end
  | Writer _ => 0
  end.

Definition last_reader (j : job) : Z :=
  match j with
  | Reader r => match rpoint r with RResourceRelease _ => 1 | _ => 0 end
  | Writer _ => 0
  end.

(** The counters of the object against the points of the jobs. *)
Definition rw_inv (js : list job) (bf : BloomFilter) : Prop :=
  readcount bf = total counted js /\
  rmutex bf = 1 - total in_mutex js /\ 0 <= rmutex bf /\
  serviceQueue bf = 1 - total at_gate js /\ 0 <= serviceQueue bf /\
  0 <= resource bf /\
  (1 <= total counted js - total entering js \/ 1 <= total leaving js ->
   resource bf = - total writing_job js) /\
  (total counted js - total entering js <= 0 /\ total leaving js <= 0 ->
   resource bf = 1 - total writing_job js) /\
  (1 <= total first_reader js -> total counted js = 1) /\
  (1 <= total last_reader js -> total counted js = 0).

(** The jobs with the [k]-th one replaced by a job that holds nothing. *)
Definition bystander : job := Writer {| elem := Int 0; point := AtServiceAcquire |}.

Definition others (k : nat) (js : list job) : list job := <[k := bystander]> js.

Ltac by_point :=
  intros [[e []] | [e []]]; cbn; lia.

Ltac holdings :=
  cbn [writing_job reading_job at_gate in_mutex counted entering leaving
       first_reader last_reader rpoint relem rgoto point elem goto b2z
       holds_resource holds_service fst snd bystander
       readcount resource rmutex serviceQueue set_sem set_readcount set_params
       sem_value] in *.

(** ** What the jobs have achieved *)

Definition call_elem (c : call) : value :=
  match c with Add e => e | Contains e => e end.

(** A reader of an element whose positions are all marked. *)
Definition reader_inv (s h : Z) (r : reader) (w : world) : Prop :=
  match rpoint r with
  | RRange => size (fst w) = s /\ hash_count (fst w) = h
  | RLoop idx => size (fst w) = s /\ forall i, In i idx -> In i (range h)
  | RRead x rest =>
      size (fst w) = s /\
      (exists i, In i (range h) /\ x = position s (str (relem r)) i) /\
      forall i, In i rest -> In i (range h)
  | RExitMutexAcquire res | RDecrement res | RLastTest res | RResourceRelease res
  | RExitMutexRelease res | RReturned res => res = true
  | RFailed _ => False
  | _ => True
  end.

Definition job_inv (m : mmap) (name : string) (fs0 : filesystem) (s h : Z)
    (es : list value) (w : world) (j : job) : Prop :=
  match j with
  | Writer t => In (elem t) es /\ thread_inv m name fs0 s h t w
  | Reader r =>
      (forall i, In i (range h) -> marked_at m s (str (relem r)) i fs0) ->
      reader_inv s h r w
  end.

Definition mixed_inv (m : mmap) (name : string) (fs0 : filesystem) (s h : Z)
    (es : list value) (st : rw_system) : Prop :=
  bit_array (fst (rw_shared st)) = m /\
  meta_name (fst (rw_shared st)) = name /\
  evolves m (cell_of m s h es) fs0 (snd (rw_shared st)) /\
  Forall (job_inv m name fs0 s h es (rw_shared st)) (jobs st).

(** One writer and one reader of the same element; the reader enters first
    and the writer waits for it. *)
Definition demo_calls : list call := [Add (Int 7); Contains (Int 7)].
Definition demo_mix : list nat :=
  ([1; 1; 1; 1; 1; 1; 1; 0; 1; 1] ++ repeat 1 12 ++ repeat 0 13)%nat.

(** An object whose files are named after the metadata file of the demo:
    its bit array file exists, its own metadata file does not. *)
Definition shifted_bf : BloomFilter :=
  {| size := 479; hash_count := 3; filename := demo_path +:+ ".meta"; readcount := 0;
     resource := 1; rmutex := 1; serviceQueue := 1;
     bit_array := {| ino := 0; map_length := 479 |} |}.

(** ** Progress *)

Definition failed (j : job) : bool :=
  match j with
  | Writer t => match point t with Failed _ => true | _ => false end
  | Reader r => match rpoint r with RFailed _ => true | _ => false end
  end.

Definition returned (j : job) : bool :=
  match j with
  | Writer t => match point t with Finished => true | _ => false end
  | Reader r => match rpoint r with RReturned _ => true | _ => false end
  end.

(** The semaphore a job is about to acquire. *)
Definition waits (j : job) : option semaphore :=
  match j with
  | Writer t =>
      match point t with
      | AtServiceAcquire => Some ServiceQueue
      | AtResourceAcquire => Some Resource
      | _ => None
      end
  | Reader r =>
      match rpoint r with
      | RServiceAcquire => Some ServiceQueue
      | RMutexAcquire | RExitMutexAcquire _ => Some Rmutex
      | RResourceAcquire => Some Resource
      | _ => None
      end
  end.

Definition can_step (js : list job) (w : world) : Prop :=
  exists k j j' w', js !! k = Some j /\ job_step j w = Some (j', w').

(** One case of a search for a job that can move: the case is impossible
    by its holdings [Hj], or the job has raised, or it moves by [moves]. *)
Ltac settle Hk Hj none_failed moves :=
  try (exfalso; cbn in Hj; lia);
  try (exfalso; pose proof (none_failed _ _ Hk) as Hnf; discriminate Hnf);
  try solve [eapply moves; [exact Hk | reflexivity | intros sem [=]]].

(** * Line 33 in double precision

    [int(-num_elem * math.log(target_error_rate) / (math.log(2) ** 2))],
    one double-precision operation after the other, in the order in which
    Python applies them: the integer [-num_elem] is converted to a float for
    the product, the product is divided by the square. Each operation
    returns its exact result times [1 + d]. IEEE 754 bounds [|d|] by [2^-53]
    for the conversion, the product and the quotient; [math.log] and the
    [pow] behind [**] are taken to be within one unit in the last place,
    [2^-52]. No operation overflows or underflows for the inputs of the
    statements ([|ln p| > 0.7]; a [num_elem] beyond the range of a double
    raises in Python). A [rounding] gives the six relative errors of one
    evaluation. *)
Record rounding : Type := {
  of_int : R;
  of_log_rate : R;
  of_product : R;
  of_log_two : R;
  of_square : R;
  of_quotient : R
}.

Definition one_ulp : R := (/ 2 ^ 52)%R.

Definition within_ulp (d : R) : Prop := (Rabs d <= one_ulp)%R.

Definition admissible (r : rounding) : Prop :=
  within_ulp (of_int r) /\ within_ulp (of_log_rate r) /\ within_ulp (of_product r) /\
  within_ulp (of_log_two r) /\ within_ulp (of_square r) /\ within_ulp (of_quotient r).

(** No rounding at all. *)
Definition exact : rounding :=
  {| of_int := 0; of_log_rate := 0; of_product := 0;
     of_log_two := 0; of_square := 0; of_quotient := 0 |}.

(** The last operation alone rounds down by one unit. *)
Definition quotient_down : rounding :=
  {| of_int := 0; of_log_rate := 0; of_product := 0;
     of_log_two := 0; of_square := 0; of_quotient := (- one_ulp)%R |}.

Definition rounded (d x : R) : R := (x * (1 + d))%R.

(** The float handed to [int] on line 33. *)
Definition size_float (r : rounding) (num_elem : Z) (target_error_rate : R) : R :=
  let negated := rounded (of_int r) (IZR (- num_elem)) in
  let log_rate := rounded (of_log_rate r) (ln target_error_rate) in
  let product := rounded (of_product r) (negated * log_rate) in
  let log_two := rounded (of_log_two r) (ln 2) in
  let square := rounded (of_square r) (log_two ^ 2) in
  rounded (of_quotient r) (product / square).

Definition derive_size_float (r : rounding) (num_elem : Z) (target_error_rate : R) : Z :=
  int (size_float r num_elem target_error_rate).

(** The six roundings multiply the exact value by this factor. *)
Definition factor (r : rounding) : R :=
  ((1 + of_int r) * (1 + of_log_rate r) * (1 + of_product r) * (1 + of_quotient r)
   / ((1 + of_log_two r) ^ 2 * (1 + of_square r)))%R.


(** The rate at which one expected element gives exactly three cells. *)
Definition three_cells_rate : R := exp (- 3 * ln 2 ^ 2).

(** * SHA-256 on the standard test vectors *)

Example K_first : nth 0 Sha256.K 0 = 0x428a2f98 /\ nth 63 Sha256.K 0 = 0xc67178f2.
Proof. split; reflexivity. Qed.

Example sha256_abc :
  sha256_hexdigest (encode "abc")
  = "ba7816bf8f01cfea414140de5dae2223b00361a396177a9cb410ff61f20015ad"%string.
Proof. vm_compute. reflexivity. Qed.

Example sha256_empty :
  sha256_hexdigest (encode "")
  = "e3b0c44298fc1c149afbf4c8996fb92427ae41e4649b934ca495991b7852b855"%string.
Proof. vm_compute. reflexivity. Qed.

Example sha256_two_blocks :
  sha256_hexdigest (encode "abcdbcdecdefdefgefghfghighijhijkijkljklmklmnlmnomnopnopq")
  = "248d6a61d20638b8e5c026930c3e6039a33ce45964ff2167f6ecedd419db06c1"%string.
Proof. vm_compute. reflexivity. Qed.

(** * Hexadecimal digests *)

Lemma hexval_hexchar (n : Z) : 0 <= n < 16 -> hexval (hexchar n) = Some n.
Proof.
  intros Hn. destruct n as [| p | p]; [reflexivity | | lia].
  do 4 (destruct p as [p | p |]; try reflexivity); lia.
Qed.

Lemma int16_from_hex (bs : list Z) :
  Forall is_byte bs ->
  forall acc, int16_from acc (hex_of_bytes bs)
              = Some (fold_left (fun a b => a * 256 + b) bs acc).
Proof.
  induction 1 as [| b bs Hb _ IH]; intros acc; [reflexivity |].
  unfold is_byte in Hb.
  cbn [hex_of_bytes int16_from fold_left].
  rewrite hexval_hexchar by (split; [apply Z.div_pos | apply Z.div_lt_upper_bound]; lia).
  rewrite hexval_hexchar by (apply Z.mod_pos_bound; lia).
  rewrite IH. do 2 f_equal.
  pose proof (Z.div_mod b 16 ltac:(lia)). lia.
Qed.

Lemma be_bytes_are_bytes (n : nat) : forall x, Forall is_byte (Sha256.be_bytes n x).
Proof.
  induction n as [| n IH]; intros x; cbn [Sha256.be_bytes]; [constructor |].
  apply Forall_app; split; [apply IH |].
  constructor; [| constructor]. apply Z.mod_pos_bound. lia.
Qed.

Lemma be_bytes_length (n : nat) : forall x, length (Sha256.be_bytes n x) = n.
Proof.
  induction n as [| n IH]; intros x; cbn [Sha256.be_bytes]; [reflexivity |].
  rewrite length_app, IH. cbn. lia.
Qed.

Lemma round_length (st : list Z) (kw : Z * Z) :
  length st = 8%nat -> length (Sha256.round st kw) = 8%nat.
Proof.
  intros H. do 9 (destruct st as [| ? st]; try discriminate H). reflexivity.
Qed.

Lemma rounds_length (kws : list (Z * Z)) :
  forall st, length st = 8%nat -> length (fold_left Sha256.round kws st) = 8%nat.
Proof.
  induction kws as [| kw kws IH]; intros st H; cbn [fold_left]; [exact H |].
  apply IH, round_length, H.
Qed.

Lemma compress_length (h block : list Z) :
  length h = 8%nat -> length (Sha256.compress h block) = 8%nat.
Proof.
  intros H. unfold Sha256.compress.
  rewrite length_map, length_combine, rounds_length by exact H. lia.
Qed.

Lemma blocks_length (n : nat) :
  forall h bs, length h = 8%nat -> length (Sha256.blocks n h bs) = 8%nat.
Proof.
  induction n as [| n IH]; intros h bs H; cbn [Sha256.blocks]; [exact H |].
  apply IH, compress_length, H.
Qed.

Lemma digest_words_length (msg : list Z) : length (Sha256.digest_words msg) = 8%nat.
Proof. apply blocks_length. reflexivity. Qed.

Lemma digest_bytes (msg : list Z) : Forall is_byte (Sha256.digest msg).
Proof.
  unfold Sha256.digest. induction (Sha256.digest_words msg) as [| w ws IH]; cbn [flat_map].
  - constructor.
  - apply Forall_app; split; [apply be_bytes_are_bytes | exact IH].
Qed.

Lemma digest_length (msg : list Z) : length (Sha256.digest msg) = 32%nat.
Proof.
  unfold Sha256.digest. pose proof (digest_words_length msg) as H.
  generalize dependent (Sha256.digest_words msg). intros ws H.
  do 9 (destruct ws as [| ? ws]; try discriminate H).
  cbn [flat_map]. rewrite !length_app, !be_bytes_length. reflexivity.
Qed.

(** [int(hexdigest, 16)] is the digest read as one big-endian number. *)
Lemma sha256_int_digest (s : string) :
  sha256_int s = Some (Sha256.be_int (Sha256.digest (encode s))).
Proof.
  unfold sha256_int, sha256_hexdigest, int16.
  pose proof (digest_length (encode s)) as Hlen.
  pose proof (digest_bytes (encode s)) as Hb.
  destruct (Sha256.digest (encode s)) as [| b bs] eqn:E; [discriminate Hlen |].
  change (hex_of_bytes (b :: bs))
    with (String (hexchar (b / 16)) (String (hexchar (b mod 16)) (hex_of_bytes bs))).
  change (Some (Sha256.be_int (b :: bs)))
    with (Some (fold_left (fun a c => a * 256 + c) (b :: bs) 0)).
  rewrite <- (int16_from_hex (b :: bs) Hb 0). reflexivity.
Qed.

Lemma compute_hash_value (self : BloomFilter) (elem : string) (i : Z) :
  size self <> 0 ->
  compute_hash self elem i
  = Returned (Sha256.be_int (Sha256.digest (encode (elem +:+ str_int i))) mod size self).
Proof.
  intros H. unfold compute_hash. rewrite sha256_int_digest.
  destruct (size self =? 0) eqn:E; [lia | reflexivity].
Qed.

Lemma compute_hash_zero (self : BloomFilter) (elem : string) (i : Z) :
  size self = 0 -> compute_hash self elem i = Raised ZeroDivisionError.
Proof.
  intros H. unfold compute_hash. rewrite sha256_int_digest, H. reflexivity.
Qed.

Lemma compute_hash_size (self self' : BloomFilter) (elem : string) (i : Z) :
  size self' = size self -> compute_hash self' elem i = compute_hash self elem i.
Proof. intros H. unfold compute_hash. rewrite H. reflexivity. Qed.

(** C6. The position of an element: for a positive [size], [compute_hash]
    returns (it raises nothing) the SHA-256 digest of the element's string
    followed by the decimal form of [i], read as a big-endian integer and
    reduced modulo [size]; the value lies in [0, size) and depends on the
    object through [size] only. *)
Theorem compute_hash_position (self : BloomFilter) (elem : string) (i : Z) :
  0 < size self ->
  exists v,
    compute_hash self elem i = Returned v /\
    v = Sha256.be_int (Sha256.digest (encode (elem +:+ str_int i))) mod size self /\
    0 <= v < size self /\
    forall self', size self' = size self -> compute_hash self' elem i = Returned v.
Proof.
  intros Hpos. eexists. split; [apply compute_hash_value; lia |].
  split; [reflexivity |]. split; [apply Z.mod_pos_bound, Hpos |].
  intros self' E. rewrite (compute_hash_size self self') by exact E.
  apply compute_hash_value. lia.
Qed.

(** * Cells of the mapping *)

Lemma mmap_set_inv (m : mmap) (x b : Z) (fs fs' : filesystem) :
  mmap_set m x b fs = (Returned tt, fs') ->
  exists j bs,
    norm_index (map_length m) x = Some j /\
    inodes fs !! ino m = Some (Bytes bs) /\
    (j < length bs)%nat /\
    fs' = {| dir := dir fs;
             inodes := <[ino m := Bytes (<[j := b]> bs)]> (inodes fs);
             next_inode := next_inode fs |}.
Proof.
  unfold mmap_set. intros H.
  destruct (norm_index (map_length m) x) as [j |]; [| discriminate H].
  destruct (inodes fs !! ino m) as [[bs | ? ?] |]; try discriminate H.
  destruct (j <? length bs)%nat eqn:E; [| discriminate H].
  apply Nat.ltb_lt in E. injection H as <-. eauto 10.
Qed.

Lemma mmap_set_fail (m : mmap) (x b : Z) (fs fs' : filesystem) (o : outcome unit) :
  mmap_set m x b fs = (o, fs') -> o <> Returned tt -> fs' = fs.
Proof.
  unfold mmap_set. intros H Ho.
  destruct (norm_index (map_length m) x) as [j |]; [| congruence].
  destruct (inodes fs !! ino m) as [[bs | ? ?] |]; try congruence.
  destruct (j <? length bs)%nat; congruence.
Qed.

Lemma mmap_get_set_same (m : mmap) (x b : Z) (fs fs' : filesystem) :
  mmap_set m x b fs = (Returned tt, fs') -> mmap_get m x fs' = Returned b.
Proof.
  intros H. apply mmap_set_inv in H as (j & bs & Hj & Hbs & Hlt & ->).
  unfold mmap_get. rewrite Hj. cbn [inodes ino].
  rewrite lookup_insert_eq, list_lookup_insert_eq by exact Hlt. reflexivity.
Qed.

Lemma mmap_get_set_one (m : mmap) (x y : Z) (fs fs' : filesystem) :
  mmap_set m x 1 fs = (Returned tt, fs') ->
  mmap_get m y fs = Returned 1 -> mmap_get m y fs' = Returned 1.
Proof.
  intros H. apply mmap_set_inv in H as (j & bs & Hj & Hbs & Hlt & ->).
  unfold mmap_get. destruct (norm_index (map_length m) y) as [k |]; [| trivial].
  cbn [inodes ino]. rewrite Hbs, lookup_insert_eq.
  destruct (decide (k = j)) as [-> | Hne].
  - rewrite list_lookup_insert_eq by exact Hlt. trivial.
  - rewrite list_lookup_insert_ne by congruence. trivial.
Qed.

(** A store into the mapping leaves the directory and every pickle alone. *)
Lemma mmap_set_meta (m : mmap) (x b : Z) (fs fs' : filesystem) (o : outcome unit) :
  mmap_set m x b fs = (o, fs') ->
  dir fs' = dir fs /\
  forall k s h, inodes fs !! k = Some (Pickle s h) -> inodes fs' !! k = Some (Pickle s h).
Proof.
  intros H.
  assert (Hcases : o = Returned tt \/ o <> Returned tt)
    by (destruct o as [[] | |]; [left; reflexivity | right; discriminate ..]).
  destruct Hcases as [-> | Hne].
  - apply mmap_set_inv in H as (j & bs & Hj & Hbs & Hlt & ->). cbn [dir inodes].
    split; [reflexivity |]. intros k s h Hk.
    rewrite lookup_insert_ne; [exact Hk | congruence].
  - apply mmap_set_fail in H as ->; [| exact Hne]. split; [reflexivity | trivial].
Qed.

(** * The metadata record *)

Lemma load_metadata_inv (bf : BloomFilter) (fs : filesystem) (w' : world) :
  load_metadata (bf, fs) = (Returned tt, w') ->
  exists i s h,
    dir fs !! meta_name bf = Some i /\
    inodes fs !! i = Some (Pickle s h) /\
    w' = (set_params s h bf, fs).
Proof.
  unfold load_metadata. cbn [fst snd]. intros H.
  destruct (dir fs !! meta_name bf) as [i |]; [| discriminate H].
  destruct (inodes fs !! i) as [[[| ? ?] | s h] |] eqn:Hi; try discriminate H.
  injection H as <-. exists i, s, h. auto.
Qed.

Lemma load_metadata_pickle (bf : BloomFilter) (fs : filesystem) (i : nat) (s h : Z) :
  dir fs !! meta_name bf = Some i ->
  inodes fs !! i = Some (Pickle s h) ->
  load_metadata (bf, fs) = (Returned tt, (set_params s h bf, fs)).
Proof. intros Hd Hi. unfold load_metadata. cbn [fst snd]. rewrite Hd, Hi. reflexivity. Qed.

Lemma load_metadata_missing (bf : BloomFilter) (fs : filesystem) :
  dir fs !! meta_name bf = None ->
  load_metadata (bf, fs) = (Raised FileNotFoundError, (bf, fs)).
Proof. intros Hd. unfold load_metadata. cbn [fst snd]. rewrite Hd. reflexivity. Qed.

(** * The two loops *)

Lemma add_loop_sets (elem : string) (idx : list Z) :
  forall bf fs bf' fs',
    add_loop elem idx (bf, fs) = (Returned tt, (bf', fs')) ->
    bf' = bf /\
    dir fs' = dir fs /\
    (forall k s h, inodes fs !! k = Some (Pickle s h) -> inodes fs' !! k = Some (Pickle s h)) /\
    (forall y, mmap_get (bit_array bf) y fs = Returned 1 ->
               mmap_get (bit_array bf) y fs' = Returned 1) /\
    (forall i, In i idx ->
       exists x, compute_hash bf elem i = Returned x /\
                 mmap_get (bit_array bf) x fs' = Returned 1).
Proof.
  induction idx as [| i rest IH]; intros bf fs bf' fs' H.
  - injection H as <- <-. repeat split; try tauto. intros i [].
  - cbn [add_loop] in H. unfold bind, get_self, lift, bit_set in H. cbn [fst snd] in H.
    destruct (compute_hash bf elem i) as [x | |] eqn:Ex; try discriminate H.
    destruct (mmap_set (bit_array bf) x 1 fs) as [[[] | |] fs1] eqn:Es; try discriminate H.
    apply IH in H as (-> & Hd & Hp & H1 & Hall).
    pose proof (mmap_set_meta _ _ _ _ _ _ Es) as [Hd1 Hp1].
    split; [reflexivity |]. split; [congruence |]. split; [auto |].
    split.
    + intros y Hy. apply H1. eapply mmap_get_set_one; eassumption.
    + intros i' [<- | Hin]; [| auto].
      exists x. split; [exact Ex |]. apply H1. eapply mmap_get_set_same; eassumption.
Qed.

Lemma check_loop_hits (elem : string) (idx : list Z) (bf : BloomFilter) (fs : filesystem) :
  (forall i, In i idx ->
     exists x, compute_hash bf elem i = Returned x /\
               mmap_get (bit_array bf) x fs = Returned 1) ->
  check_loop elem idx (bf, fs) = (Returned true, (bf, fs)).
Proof.
  induction idx as [| i rest IH]; intros Hall; [reflexivity |].
  cbn [check_loop]. unfold bind, get_self, lift, bit_get. cbn [fst snd].
  destruct (Hall i (or_introl eq_refl)) as (x & -> & ->).
  change (1 =? 1) with true. cbv iota. apply IH. intros i' Hin. apply Hall. right. exact Hin.
Qed.

Lemma check_loop_pure (elem : string) (idx : list Z) :
  forall w o w', check_loop elem idx w = (o, w') -> w' = w.
Proof.
  induction idx as [| i rest IH]; intros w o w' H.
  - injection H as _ <-. reflexivity.
  - cbn [check_loop] in H. unfold bind, get_self, lift, bit_get in H.
    destruct (compute_hash (fst w) elem i); try (injection H as _ <-; reflexivity).
    destruct (mmap_get (bit_array (fst w)) a (snd w)); try (injection H as _ <-; reflexivity).
    destruct (a0 =? 1); [eapply IH; exact H | injection H as _ <-; reflexivity].
Qed.

Lemma add_loop_self (elem : string) (idx : list Z) :
  forall bf fs o w', add_loop elem idx (bf, fs) = (o, w') -> fst w' = bf.
Proof.
  induction idx as [| i rest IH]; intros bf fs o w' H.
  - injection H as _ <-. reflexivity.
  - cbn [add_loop] in H. unfold bind, get_self, lift, bit_set in H. cbn [fst snd] in H.
    destruct (compute_hash bf elem i); try (injection H as _ <-; reflexivity).
    destruct (mmap_set (bit_array bf) a 1 fs) as [[[] | |] fs1];
      try (injection H as _ <-; reflexivity).
    eapply IH. exact H.
Qed.

(** * The writer and the reader on an idle object *)

Lemma add_elem_run (e : value) (bf : BloomFilter) (fs : filesystem) (i : nat) (s h : Z) :
  idle bf ->
  dir fs !! meta_name bf = Some i ->
  inodes fs !! i = Some (Pickle s h) ->
  add_elem e (bf, fs) =
    match add_loop (str e) (range h) (writing (set_params s h bf), fs) with
    | (Returned _, (_, fs')) => (Returned tt, (set_params s h bf, fs'))
    | (Raised x, w) => (Raised x, w)
    | (Blocked, w) => (Blocked, w)
    end.
Proof.
  intros (Hrc & Hrs & Hrm & Hsq) Hd Hi.
  destruct bf as [sz hc fn rc rs rm sq ba]. cbn in Hrc, Hrs, Hrm, Hsq. subst.
  unfold add_elem, bind, acquire, release, modify_self, get_self, flush, ret, writing.
  cbv -[load_metadata add_loop str range meta_name].
  erewrite load_metadata_pickle by eassumption.
  cbv -[load_metadata add_loop str range meta_name].
  destruct (add_loop _ _ _) as [[[] | |] [bf' fs']] eqn:E; try reflexivity.
  apply add_loop_self in E. cbn in E. subst bf'. reflexivity.
Qed.

Lemma add_elem_missing (e : value) (bf : BloomFilter) (fs : filesystem) :
  idle bf ->
  dir fs !! meta_name bf = None ->
  add_elem e (bf, fs) = (Raised FileNotFoundError, (writing bf, fs)).
Proof.
  intros (Hrc & Hrs & Hrm & Hsq) Hd.
  destruct bf as [sz hc fn rc rs rm sq ba]. cbn in Hrc, Hrs, Hrm, Hsq. subst.
  unfold add_elem, bind, acquire, release, modify_self, get_self, flush, ret, writing.
  cbv -[load_metadata add_loop str range meta_name].
  rewrite load_metadata_missing by exact Hd. reflexivity.
Qed.

Lemma check_member_run (e : value) (bf : BloomFilter) (fs : filesystem) (i : nat) (s h : Z) :
  idle bf ->
  dir fs !! meta_name bf = Some i ->
  inodes fs !! i = Some (Pickle s h) ->
  check_member e (bf, fs) =
    match check_loop (str e) (range h) (reading (set_params s h bf), fs) with
    | (Returned r, _) => (Returned r, (set_params s h bf, fs))
    | (Raised x, w) => (Raised x, w)
    | (Blocked, w) => (Blocked, w)
    end.
Proof.
  intros (Hrc & Hrs & Hrm & Hsq) Hd Hi.
  destruct bf as [sz hc fn rc rs rm sq ba]. cbn in Hrc, Hrs, Hrm, Hsq. subst.
  unfold check_member, bind, acquire, release, modify_self, get_self, ret, reading.
  cbv -[load_metadata check_loop str range meta_name].
  erewrite load_metadata_pickle by eassumption.
  cbv -[load_metadata check_loop str range meta_name].
  destruct (check_loop _ _ _) as [[r | |] w'] eqn:E; try reflexivity.
  apply check_loop_pure in E. subst w'. reflexivity.
Qed.

Lemma check_member_missing (e : value) (bf : BloomFilter) (fs : filesystem) :
  idle bf ->
  dir fs !! meta_name bf = None ->
  check_member e (bf, fs) = (Raised FileNotFoundError, (reading bf, fs)).
Proof.
  intros (Hrc & Hrs & Hrm & Hsq) Hd.
  destruct bf as [sz hc fn rc rs rm sq ba]. cbn in Hrc, Hrs, Hrm, Hsq. subst.
  unfold check_member, bind, acquire, release, modify_self, get_self, ret, reading.
  cbv -[load_metadata check_loop str range meta_name].
  rewrite load_metadata_missing by exact Hd. reflexivity.
Qed.

Lemma add_elem_needs_metadata (e : value) (bf : BloomFilter) (fs : filesystem) :
  idle bf ->
  fst (add_elem e (bf, fs)) = Returned tt ->
  exists i s h, dir fs !! meta_name bf = Some i /\ inodes fs !! i = Some (Pickle s h).
Proof.
  intros Hidle Hret.
  destruct (load_metadata (writing bf, fs)) as [[[] | x |] w1] eqn:El.
  - apply load_metadata_inv in El as (i & s & h & Hd & Hi & _). eauto.
  - exfalso. revert Hret El. destruct Hidle as (Hrc & Hrs & Hrm & Hsq).
    destruct bf as [sz hc fn rc rs rm sq ba]. cbn in Hrc, Hrs, Hrm, Hsq. subst.
    unfold add_elem, bind, acquire, release, modify_self, get_self, flush, ret, writing.
    cbv -[load_metadata add_loop str range meta_name].
    intros Hret El. rewrite El in Hret. discriminate Hret.
  - exfalso. unfold load_metadata in El.
    destruct (dir _ !! _); [destruct (inodes _ !! _) as [[[| ? ?] | ? ?] |] |];
      discriminate El.
Qed.

(** An element added under one string form is found under any value with
    the same string form. *)
Lemma add_then_check (e e' : value) (bf : BloomFilter) (fs : filesystem) :
  str e' = str e ->
  idle bf ->
  fst (add_elem e (bf, fs)) = Returned tt ->
  fst (check_member e' (snd (add_elem e (bf, fs)))) = Returned true.
Proof.
  intros Hstr Hidle Hret.
  destruct (add_elem_needs_metadata e bf fs Hidle Hret) as (i & s & h & Hd & Hi).
  rewrite (add_elem_run e bf fs i s h Hidle Hd Hi) in Hret |- *.
  destruct (add_loop (str e) (range h) (writing (set_params s h bf), fs))
    as [[[] | x |] [bf1 fs1]] eqn:El; try discriminate Hret.
  apply add_loop_sets in El as (-> & Hdir & Hpick & _ & Hall).
  cbn [snd].
  assert (Hidle' : idle (set_params s h bf)) by exact Hidle.
  rewrite (check_member_run e' (set_params s h bf) fs1 i s h Hidle').
  - rewrite Hstr, check_loop_hits; [reflexivity |].
    intros k Hk. destruct (Hall k Hk) as (x & Hx & Hget).
    exists x. split; [| exact Hget].
    rewrite <- Hx. apply compute_hash_size. reflexivity.
  - rewrite Hdir. exact Hd.
  - apply Hpick, Hi.
Qed.

(** What the writer leaves behind: every position of the element holds 1. *)
Lemma add_elem_marks (e : value) (bf : BloomFilter) (fs : filesystem) :
  idle bf ->
  fst (add_elem e (bf, fs)) = Returned tt ->
  forall i, In i (range (hash_count (fst (snd (add_elem e (bf, fs)))))) ->
    exists x,
      compute_hash (fst (snd (add_elem e (bf, fs)))) (str e) i = Returned x /\
      mmap_get (bit_array (fst (snd (add_elem e (bf, fs))))) x
               (snd (snd (add_elem e (bf, fs)))) = Returned 1.
Proof.
  intros Hidle Hret.
  destruct (add_elem_needs_metadata e bf fs Hidle Hret) as (i & s & h & Hd & Hi).
  rewrite (add_elem_run e bf fs i s h Hidle Hd Hi) in Hret |- *.
  destruct (add_loop (str e) (range h) (writing (set_params s h bf), fs))
    as [[[] | x |] [bf1 fs1]] eqn:El; try discriminate Hret.
  apply add_loop_sets in El as (-> & _ & _ & _ & Hall).
  cbn [fst snd]. intros k Hk.
  destruct (Hall k Hk) as (x & Hx & Hget).
  exists x. split; [| exact Hget].
  rewrite <- Hx. apply compute_hash_size. reflexivity.
Qed.

(** C1. No false negatives: on an idle object, once [add_elem e] has
    returned, every one of the [hash_count] positions of [e] holds 1 and
    [check_member e], which reads those positions, returns [True]. *)
Theorem no_false_negatives (e : value) (bf : BloomFilter) (fs : filesystem) :
  idle bf ->
  fst (add_elem e (bf, fs)) = Returned tt ->
  (forall i, In i (range (hash_count (fst (snd (add_elem e (bf, fs)))))) ->
     exists x,
       compute_hash (fst (snd (add_elem e (bf, fs)))) (str e) i = Returned x /\
       mmap_get (bit_array (fst (snd (add_elem e (bf, fs))))) x
                (snd (snd (add_elem e (bf, fs)))) = Returned 1) /\
  fst (check_member e (snd (add_elem e (bf, fs)))) = Returned true.
Proof.
  intros Hidle Hret. split.
  - apply add_elem_marks; assumption.
  - apply add_then_check; [reflexivity | assumption | assumption].
Qed.

(** * Enclosures of the logarithm *)

Section Enclosures.
Local Open Scope R_scope.

Lemma IZR_div_le (a b : Z) : (0 < b)%Z -> IZR (a / b) <= IZR a / IZR b.
Proof.
  intros Hb. pose proof (Z.mul_div_le a b Hb) as H.
  apply IZR_le in H. rewrite mult_IZR in H.
  assert (0 < IZR b) by (apply IZR_lt in Hb; exact Hb).
  apply Rmult_le_reg_l with (IZR b); [assumption |].
  replace (IZR b * (IZR a / IZR b)) with (IZR a) by (field; lra). exact H.
Qed.

Lemma scale_pos : 0 < IZR scale.
Proof. apply IZR_lt. reflexivity. Qed.

Lemma sq_iter_below (k : nat) :
  forall (a : Z) (x : R),
    (0 <= a)%Z ->
    IZR a <= IZR scale * exp x ->
    IZR (sq_iter k a) <= IZR scale * exp (2 ^ k * x).
Proof.
  pose proof scale_pos as Hs.
  induction k as [| k IH]; intros a x Ha Hx; cbn [sq_iter].
  - replace (2 ^ 0 * x) with x by (simpl; ring). exact Hx.
  - replace (2 ^ S k * x) with (2 ^ k * (x + x)) by (simpl; ring).
    apply IH.
    + apply Z.div_pos; [nia | reflexivity].
    + eapply Rle_trans; [apply IZR_div_le; reflexivity |].
      rewrite mult_IZR, exp_plus.
      pose proof (exp_pos x) as He. apply IZR_le in Ha.
      apply Rmult_le_reg_l with (IZR scale); [exact Hs |].
      replace (IZR scale * (IZR a * IZR a / IZR scale)) with (IZR a * IZR a) by (field; lra).
      replace (IZR scale * (IZR scale * (exp x * exp x)))
        with ((IZR scale * exp x) * (IZR scale * exp x)) by ring.
      apply Rmult_le_compat; assumption.
Qed.

Lemma exp_lb_below (k : nat) (num den : Z) :
  (0 < den)%Z ->
  (0 <= den * 2 ^ Z.of_nat k + num)%Z ->
  IZR (exp_lb k num den) <= IZR scale * exp (IZR num / IZR den).
Proof.
  intros Hden Hnn. unfold exp_lb.
  pose proof scale_pos as Hs.
  assert (Hp : (0 < 2 ^ Z.of_nat k)%Z) by (apply Z.pow_pos_nonneg; lia).
  assert (Hd : (0 < den * 2 ^ Z.of_nat k)%Z) by nia.
  assert (HdR : 0 < IZR (den * 2 ^ Z.of_nat k)) by (apply IZR_lt in Hd; exact Hd).
  assert (HdenR : 0 < IZR den) by (apply IZR_lt in Hden; exact Hden).
  assert (Hpow : IZR (2 ^ Z.of_nat k) = 2 ^ k) by (rewrite <- pow_IZR; reflexivity).
  assert (H2k : 0 < 2 ^ k) by (apply pow_lt; lra).
  replace (IZR num / IZR den) with (2 ^ k * (IZR num / IZR (den * 2 ^ Z.of_nat k))).
  2: { rewrite mult_IZR, Hpow. field. split; lra. }
  apply sq_iter_below.
  - apply Z.div_pos; [| exact Hd]. apply Z.mul_nonneg_nonneg; [discriminate | exact Hnn].
  - eapply Rle_trans; [apply IZR_div_le; exact Hd |].
    rewrite mult_IZR, plus_IZR.
    pose proof (exp_ineq1_le (IZR num / IZR (den * 2 ^ Z.of_nat k))) as He.
    replace (IZR scale * (IZR (den * 2 ^ Z.of_nat k) + IZR num) / IZR (den * 2 ^ Z.of_nat k))
      with (IZR scale * (1 + IZR num / IZR (den * 2 ^ Z.of_nat k))) by (field; lra).
    apply Rmult_le_compat_l; lra.
Qed.

Lemma ln_le_of_le_exp (y c : R) : 0 < y -> y <= exp c -> ln y <= c.
Proof.
  intros Hy [Hlt | Heq].
  - left. rewrite <- (ln_exp c). apply ln_increasing; assumption.
  - right. rewrite Heq. apply ln_exp.
Qed.

(** [ln (yn / yd) <= num / den], decided by one integer comparison *)
Lemma ln_upper (k : nat) (yn yd num den : Z) :
  (0 < yn)%Z -> (0 < yd)%Z -> (0 < den)%Z ->
  (0 <= den * 2 ^ Z.of_nat k + num)%Z ->
  (yn * scale <= exp_lb k num den * yd)%Z ->
  ln (IZR yn / IZR yd) <= IZR num / IZR den.
Proof.
  intros Hyn Hyd Hden Hnn Hcmp.
  apply IZR_lt in Hyn, Hyd. pose proof scale_pos as Hs.
  apply ln_le_of_le_exp; [apply Rdiv_lt_0_compat; assumption |].
  pose proof (exp_lb_below k num den Hden Hnn) as Hb.
  apply IZR_le in Hcmp. rewrite !mult_IZR in Hcmp.
  apply Rmult_le_reg_l with (IZR scale * IZR yd); [nra |].
  replace (IZR scale * IZR yd * (IZR yn / IZR yd)) with (IZR yn * IZR scale) by (field; lra).
  nra.
Qed.

(** [num / den <= ln (yn / yd)], through [exp (- c) >= yd / yn] *)
Lemma ln_lower (k : nat) (yn yd num den : Z) :
  (0 < yn)%Z -> (0 < yd)%Z -> (0 < den)%Z ->
  (0 <= den * 2 ^ Z.of_nat k + - num)%Z ->
  (yd * scale <= exp_lb k (- num) den * yn)%Z ->
  IZR num / IZR den <= ln (IZR yn / IZR yd).
Proof.
  intros Hyn Hyd Hden Hnn Hcmp.
  pose proof (ln_upper k yd yn (- num) den Hyd Hyn Hden Hnn Hcmp) as H.
  apply IZR_lt in Hyn, Hyd, Hden.
  replace (IZR yd / IZR yn) with (/ (IZR yn / IZR yd)) in H by (field; lra).
  rewrite ln_Rinv in H by (apply Rdiv_lt_0_compat; assumption).
  rewrite opp_IZR in H.
  replace (- IZR num / IZR den) with (- (IZR num / IZR den)) in H by (field; lra).
  lra.
Qed.

Lemma ln2_lower : 69314 / 100000 <= ln 2.
Proof.
  replace 2 with (2 / 1) by field.
  apply (ln_lower 16 2 1 69314 100000); try reflexivity; vm_compute; discriminate.
Qed.

Lemma ln2_upper : ln 2 <= 69316 / 100000.
Proof.
  replace 2 with (2 / 1) by field.
  apply (ln_upper 16 2 1 69316 100000); try reflexivity; vm_compute; discriminate.
Qed.

Lemma ln10_lower : 230255 / 100000 <= ln 10.
Proof.
  replace 10 with (10 / 1) by field.
  apply (ln_lower 20 10 1 230255 100000); try reflexivity; vm_compute; discriminate.
Qed.

Lemma ln10_upper : ln 10 <= 230262 / 100000.
Proof.
  replace 10 with (10 / 1) by field.
  apply (ln_upper 20 10 1 230262 100000); try reflexivity; vm_compute; discriminate.
Qed.

End Enclosures.

(** * The parameters derived by the constructor *)

Section Derivation.
Local Open Scope R_scope.

Lemma int_nonneg (x : R) : 0 <= x -> int x = Zfloor x.
Proof. intros H. unfold int. destruct (Rle_dec 0 x); [reflexivity | contradiction]. Qed.

Lemma int_between (x : R) (z : Z) : (0 <= z)%Z -> IZR z <= x < IZR z + 1 -> int x = z.
Proof.
  intros Hz Hx. rewrite int_nonneg; [apply Zfloor_eq, Hx |].
  apply IZR_le in Hz. lra.
Qed.

Lemma quotient_between (a b lo hi : R) :
  0 < b -> lo * b <= a -> a < hi * b -> lo <= a / b < hi.
Proof.
  intros Hb Hlo Hhi. split.
  - apply Rmult_le_reg_r with b; [exact Hb |].
    replace (a / b * b) with a by (field; lra). exact Hlo.
  - apply Rmult_lt_reg_r with b; [exact Hb |].
    replace (a / b * b) with a by (field; lra). exact Hhi.
Qed.

Lemma ln2_pos : 0 < ln 2.
Proof. pose proof ln2_lower. lra. Qed.

Lemma ln_neg (p : R) : 0 < p -> p < 1 -> ln p < 0.
Proof. intros H0 H1. rewrite <- ln_1. apply ln_increasing; assumption. Qed.

(** A value at least a tenth away from the next integers truncates to the
    same integer as everything within a tenth of it. *)
Lemma int_near (x v : R) (z : Z) :
  (0 <= z)%Z ->
  IZR z + 1 / 10 <= x <= IZR z + 8 / 10 ->
  Rabs (v - x) <= 1 / 10 ->
  int v = z.
Proof.
  intros Hz Hx Hv. apply int_between; [exact Hz |].
  unfold Rabs in Hv. destruct (Rcase_abs (v - x)); lra.
Qed.

Lemma int_exact (x : R) (z : Z) :
  (0 <= z)%Z -> IZR z + 1 / 10 <= x <= IZR z + 8 / 10 -> int x = z.
Proof.
  intros Hz Hx. apply (int_near x x z Hz Hx).
  replace (x - x) with 0 by ring. rewrite Rabs_R0. lra.
Qed.

(** The value handed to [int] on the size line is not negative. *)
Lemma size_value_nonneg (n : Z) (p : R) :
  (0 < n)%Z -> 0 < p < 48 / 100 -> 0 <= size_value n p.
Proof.
  intros Hn [Hp0 Hp1]. unfold size_value.
  pose proof ln2_pos as H2. pose proof (ln_neg p Hp0 ltac:(lra)) as Hl.
  apply IZR_lt in Hn. rewrite opp_IZR.
  apply Rmult_le_pos; [nra |]. left. apply Rinv_0_lt_compat. nra.
Qed.

Lemma size_value_formula (n : Z) (p : R) :
  size_value n p = - IZR n * ln p / ln 2 ^ 2.
Proof. unfold size_value. rewrite opp_IZR. reflexivity. Qed.

Lemma derive_size_floor (n : Z) (p : R) :
  (0 < n)%Z -> 0 < p < 48 / 100 ->
  derive_size n p = Zfloor (- IZR n * ln p / ln 2 ^ 2).
Proof.
  intros Hn Hp. unfold derive_size.
  rewrite int_nonneg by (apply size_value_nonneg; assumption).
  rewrite size_value_formula. reflexivity.
Qed.

Lemma ln_tenth : ln (1 / 10) = - ln 10.
Proof. replace (1 / 10) with (/ 10) by field. apply ln_Rinv. lra. Qed.

Lemma size_value_100_01 : 4791 / 10 <= size_value 100 (1 / 10) <= 4793 / 10.
Proof.
  rewrite size_value_formula, ln_tenth.
  pose proof ln2_lower as A. pose proof ln2_upper as B.
  pose proof ln10_lower as C. pose proof ln10_upper as D.
  assert (Hlo : 48044 / 100000 <= ln 2 ^ 2) by nra.
  assert (Hhi : ln 2 ^ 2 <= 48048 / 100000) by nra.
  assert (H : 4791 / 10 <= - 100 * - ln 10 / ln 2 ^ 2 < 4793 / 10)
    by (apply quotient_between; lra).
  lra.
Qed.

Lemma hash_count_value_479_100 : 33 / 10 <= hash_count_value 479 100 <= 34 / 10.
Proof.
  unfold hash_count_value. pose proof ln2_lower. pose proof ln2_upper. lra.
Qed.

Lemma derive_size_100_01 : derive_size 100 (1 / 10) = 479%Z.
Proof.
  apply int_exact; [discriminate |]. pose proof size_value_100_01. lra.
Qed.

Lemma derive_hash_count_479_100 : derive_hash_count 479 100 = 3%Z.
Proof.
  apply int_exact; [discriminate |]. pose proof hash_count_value_479_100. lra.
Qed.

Lemma ln_047_lower : - 7551 / 10000 <= ln (47 / 100).
Proof.
  apply (ln_lower 16 47 100 (- 7551) 10000); try reflexivity; vm_compute; discriminate.
Qed.

Lemma ln_047_upper : ln (47 / 100) <= - 7550 / 10000.
Proof.
  apply (ln_upper 16 47 100 (- 7550) 10000); try reflexivity; vm_compute; discriminate.
Qed.

Lemma size_value_1_047 : 15 / 10 <= size_value 1 (47 / 100) <= 16 / 10.
Proof.
  rewrite size_value_formula.
  pose proof ln2_lower as A. pose proof ln2_upper as B.
  pose proof ln_047_lower as C. pose proof ln_047_upper as D.
  assert (Hlo : 4804 / 10000 <= ln 2 ^ 2) by nra.
  assert (Hhi : ln 2 ^ 2 <= 4805 / 10000) by nra.
  assert (H : 15 / 10 <= - 1 * ln (47 / 100) / ln 2 ^ 2 < 16 / 10)
    by (apply quotient_between; lra).
  lra.
Qed.

Lemma hash_count_value_1_1 : 6 / 10 <= hash_count_value 1 1 <= 7 / 10.
Proof.
  unfold hash_count_value. pose proof ln2_lower. pose proof ln2_upper. lra.
Qed.

Lemma derive_size_1_047 : derive_size 1 (47 / 100) = 1%Z.
Proof.
  apply int_exact; [discriminate |]. pose proof size_value_1_047. lra.
Qed.

Lemma derive_hash_count_1_1 : derive_hash_count 1 1 = 0%Z.
Proof.
  apply int_exact; [reflexivity |]. pose proof hash_count_value_1_1. lra.
Qed.


End Derivation.
(** * The size under double-precision rounding *)

Section Rounding.
Local Open Scope R_scope.

Lemma one_ulp_small : 0 < one_ulp <= 1 / 100.
Proof. unfold one_ulp. lra. Qed.



Lemma within_ulp_bounds (d : R) :
  within_ulp d -> 1 - one_ulp <= 1 + d <= 1 + one_ulp.
Proof.
  unfold within_ulp, Rabs. destruct (Rcase_abs d); lra.
Qed.

Lemma exact_admissible : admissible exact.
Proof.
  pose proof one_ulp_small.
  unfold admissible, exact, within_ulp. cbn. rewrite Rabs_R0. repeat split; lra.
Qed.

Lemma quotient_down_admissible : admissible quotient_down.
Proof.
  pose proof one_ulp_small.
  unfold admissible, quotient_down, within_ulp. cbn.
  rewrite Rabs_R0, Rabs_Ropp, Rabs_pos_eq by lra. repeat split; lra.
Qed.


Lemma size_float_factor (r : rounding) (n : Z) (p : R) :
  admissible r ->
  size_float r n p = size_value n p * factor r.
Proof.
  intros (_ & _ & _ & H3 & H4 & _).
  apply within_ulp_bounds in H3, H4. pose proof one_ulp_small. pose proof ln2_pos.
  unfold size_float, size_value, factor, rounded. field.
  repeat split; lra.
Qed.




(** [derive_size] is the size when no operation rounds. *)
Lemma derive_size_exact (n : Z) (p : R) :
  derive_size n p = derive_size_float exact n p.
Proof.
  unfold derive_size, derive_size_float. f_equal.
  rewrite (size_float_factor exact n p exact_admissible).
  unfold factor, exact. cbn. field.
Qed.

Lemma three_cells_rate_valid : 0 < three_cells_rate < 48 / 100.
Proof.
  unfold three_cells_rate. split; [apply exp_pos |].
  pose proof ln2_lower as A.
  assert (Hy : 144 / 100 <= 3 * ln 2 ^ 2) by nra.
  pose proof (exp_ineq1_le (3 * ln 2 ^ 2)) as Hexp.
  pose proof (exp_pos (3 * ln 2 ^ 2)) as Hpos.
  replace (- 3 * ln 2 ^ 2) with (- (3 * ln 2 ^ 2)) by ring. rewrite exp_Ropp.
  apply Rlt_le_trans with (/ (244 / 100)); [| lra].
  apply Rinv_lt_contravar; nra.
Qed.

Lemma size_value_three_cells : size_value 1 three_cells_rate = 3.
Proof.
  unfold size_value, three_cells_rate. rewrite ln_exp.
  pose proof ln2_pos. rewrite opp_IZR. field. nra.
Qed.

(** The rounding decides between two sizes where the exact value is an
    integer: without rounding three cells, with the quotient rounded down
    two. *)
Lemma rounding_can_change_size :
  0 < three_cells_rate < 48 / 100 /\
  admissible exact /\ admissible quotient_down /\
  derive_size_float exact 1 three_cells_rate = 3%Z /\
  derive_size_float quotient_down 1 three_cells_rate = 2%Z.
Proof.
  split; [exact three_cells_rate_valid |].
  split; [exact exact_admissible |]. split; [exact quotient_down_admissible |].
  pose proof one_ulp_small as He. split.
  - unfold derive_size_float.
    rewrite (size_float_factor _ _ _ exact_admissible), size_value_three_cells.
    apply int_between; [lia |]. unfold factor, exact. cbn.
    replace (3 * ((1 + 0) * (1 + 0) * (1 + 0) * (1 + 0) / ((1 + 0) ^ 2 * (1 + 0))))
      with 3 by field. lra.
  - unfold derive_size_float.
    rewrite (size_float_factor _ _ _ quotient_down_admissible), size_value_three_cells.
    apply int_between; [lia |]. unfold factor, quotient_down. cbn.
    replace (3 * ((1 + 0) * (1 + 0) * (1 + 0) * (1 + - one_ulp) / ((1 + 0) ^ 2 * (1 + 0))))
      with (3 - 3 * one_ulp) by field. lra.
Qed.

End Rounding.

(** * Construction *)

Lemma append_meta_ne (s : string) : s +:+ ".meta" <> s.
Proof.
  induction s as [| c s IH]; [discriminate |].
  intros H. injection H as H. exact (IH H).
Qed.

Lemma write_file_fresh (p : string) (c : content) (fs : filesystem) :
  dir fs !! p = None ->
  write_file p c fs =
    {| dir := <[p := next_inode fs]> (dir fs);
       inodes := <[next_inode fs := c]> (inodes fs);
       next_inode := S (next_inode fs) |}.
Proof. intros H. unfold write_file. rewrite H. reflexivity. Qed.

Lemma create_fails (sz hc : Z) (fname : string) (fs : filesystem) :
  sz <= 0 -> exists e fs', create sz hc fname fs = (Raised e, fs').
Proof.
  intros Hsz. unfold create.
  set (fs1 := if os_path_exists fname fs then _ else _).
  assert (Hnone : dir fs1 !! fname = None).
  { subst fs1. unfold os_path_exists, os_remove.
    destruct (dir fs !! fname) eqn:E; cbn [snd dir]; [apply lookup_delete_eq | exact E]. }
  rewrite (write_file_fresh fname _ fs1 Hnone).
  unfold mmap_open, read_file. cbn [dir inodes].
  rewrite !lookup_insert_eq.
  destruct (sz <? 0) eqn:E0; [eauto |].
  assert (sz = 0) as -> by lia. cbn. eauto.
Qed.

Lemma create_returns (sz hc : Z) (fname : string) (fs : filesystem) :
  0 < sz ->
  exists m fs',
    create sz hc fname fs =
      (Returned {| size := sz; hash_count := hc; filename := fname; readcount := 0;
                   resource := 1; rmutex := 1; serviceQueue := 1; bit_array := m |}, fs') /\
    map_length m = sz /\
    (exists i, dir fs' !! (fname +:+ ".meta") = Some i /\
               inodes fs' !! i = Some (Pickle sz hc)) /\
    (wf_fs fs ->
       wf_fs fs' /\
       dir fs' !! fname = Some (ino m) /\
       inodes fs' !! ino m = Some (Bytes (repeat 0 (Z.to_nat sz)))).
Proof.
  intros Hsz. unfold create.
  set (fs1 := if os_path_exists fname fs then _ else _).
  assert (Hnone : dir fs1 !! fname = None).
  { subst fs1. unfold os_path_exists, os_remove.
    destruct (dir fs !! fname) eqn:E; cbn [snd dir]; [apply lookup_delete_eq | exact E]. }
  assert (Hother : forall p, p <> fname -> dir fs1 !! p = dir fs !! p).
  { intros p Hp. subst fs1. unfold os_path_exists, os_remove.
    destruct (dir fs !! fname) eqn:E; cbn [snd dir]; [| reflexivity].
    apply lookup_delete_ne. congruence. }
  assert (Hnext : next_inode fs1 = next_inode fs).
  { subst fs1. unfold os_path_exists, os_remove.
    destruct (dir fs !! fname); reflexivity. }
  assert (Hino : inodes fs1 = inodes fs).
  { subst fs1. unfold os_path_exists, os_remove.
    destruct (dir fs !! fname); reflexivity. }
  clearbody fs1.
  rewrite (write_file_fresh fname _ fs1 Hnone).
  unfold mmap_open, read_file. cbn [dir inodes].
  rewrite !lookup_insert_eq.
  destruct (sz <? 0) eqn:E0; [lia |].
  destruct (sz =? 0) eqn:E1; [lia |].
  rewrite repeat_length, Z2Nat.id, Z.ltb_irrefl by lia.
  unfold save_metadata, bind, get_self, on_fs, meta_name. cbn [fst snd filename size hash_count].
  set (n := next_inode fs1).
  set (zeros := Bytes (repeat 0 (Z.to_nat sz))).
  pose proof (append_meta_ne fname) as Hne.
  unfold write_file. cbn [dir inodes next_inode].
  rewrite lookup_insert_ne by congruence.
  destruct (dir fs1 !! (fname +:+ ".meta")) as [i |] eqn:Em.
  - eexists _, _. split; [reflexivity |]. cbn [map_length ino dir inodes next_inode].
    split; [reflexivity |]. split.
    + exists i. split.
      * rewrite lookup_insert_ne by congruence. exact Em.
      * apply lookup_insert_eq.
    + intros Hwf.
      assert (Hi : (i < n)%nat).
      { subst n. rewrite Hnext. apply (Hwf (fname +:+ ".meta")).
        rewrite <- Hother by exact Hne. exact Em. }
      split; [| split].
      * intros p j. cbn [dir next_inode]. destruct (decide (p = fname)) as [-> | Hp].
        -- rewrite lookup_insert_eq. intros [= <-]. lia.
        -- rewrite lookup_insert_ne by congruence. rewrite Hother by exact Hp.
           intros Hj. apply Hwf in Hj. lia.
      * apply lookup_insert_eq.
      * rewrite lookup_insert_ne by lia. apply lookup_insert_eq.
  - eexists _, _. split; [reflexivity |]. cbn [map_length ino dir inodes next_inode].
    split; [reflexivity |]. split.
    + exists (S n). split; apply lookup_insert_eq.
    + intros Hwf. split; [| split].
      * intros p j. cbn [dir next_inode].
        destruct (decide (p = fname +:+ ".meta")) as [-> | Hp1].
        { rewrite lookup_insert_eq. intros [= <-]. lia. }
        rewrite lookup_insert_ne by congruence.
        destruct (decide (p = fname)) as [-> | Hp].
        -- rewrite lookup_insert_eq. intros [= <-]. lia.
        -- rewrite lookup_insert_ne by congruence. rewrite Hother by exact Hp.
           intros Hj. apply Hwf in Hj. lia.
      * rewrite lookup_insert_ne by congruence. apply lookup_insert_eq.
      * rewrite lookup_insert_ne by lia. apply lookup_insert_eq.
Qed.

Lemma create_returned_inv (sz hc : Z) (fname : string) (fs fs' : filesystem)
    (bf : BloomFilter) :
  create sz hc fname fs = (Returned bf, fs') ->
  0 < sz /\
  idle bf /\ size bf = sz /\ hash_count bf = hc /\ filename bf = fname /\
  map_length (bit_array bf) = sz /\
  (exists i, dir fs' !! meta_name bf = Some i /\ inodes fs' !! i = Some (Pickle sz hc)) /\
  (wf_fs fs ->
     wf_fs fs' /\
     dir fs' !! fname = Some (ino (bit_array bf)) /\
     inodes fs' !! ino (bit_array bf) = Some (Bytes (repeat 0 (Z.to_nat sz)))).
Proof.
  intros H. destruct (Z_lt_le_dec 0 sz) as [Hpos | Hneg].
  - destruct (create_returns sz hc fname fs Hpos) as (m & fs1 & E & Hlen & Hmeta & Hwf).
    rewrite E in H. injection H as <- <-.
    unfold idle, meta_name. cbn [size hash_count filename readcount resource rmutex
                                  serviceQueue bit_array].
    repeat split; auto; apply Hwf; assumption.
  - destruct (create_fails sz hc fname fs Hneg) as (x & fs1 & E). congruence.
Qed.

Lemma init_valid (n : Z) (p : R) (fname : string) (fs : filesystem) :
  (0 < p < 48 / 100)%R -> n <> 0 ->
  __init__ n p fname fs
  = create (derive_size n p) (derive_hash_count (derive_size n p) n) fname fs.
Proof.
  intros [Hp0 Hp1] Hn. unfold __init__.
  destruct (Rlt_dec p (48 / 100)); [| contradiction].
  destruct (Rlt_dec 0 p); [| contradiction].
  destruct (n =? 0) eqn:E; [lia | reflexivity].
Qed.

Lemma init_returned_inv (n : Z) (p : R) (fname : string) (fs fs' : filesystem)
    (bf : BloomFilter) :
  __init__ n p fname fs = (Returned bf, fs') ->
  (0 < p < 48 / 100)%R /\ n <> 0 /\
  create (derive_size n p) (derive_hash_count (derive_size n p) n) fname fs
  = (Returned bf, fs').
Proof.
  unfold __init__. intros H.
  destruct (Rlt_dec p (48 / 100)); [| discriminate H].
  destruct (Rlt_dec 0 p); [| discriminate H].
  destruct (n =? 0) eqn:E; [discriminate H |].
  repeat split; auto. lia.
Qed.

Lemma init_demo_is_create (fname : string) (fs : filesystem) :
  __init__ 100 (1 / 10) fname fs = create 479 3 fname fs.
Proof.
  rewrite init_valid by (try lra; discriminate).
  rewrite derive_size_100_01, derive_hash_count_479_100. reflexivity.
Qed.

Lemma init_tiny_is_create (fname : string) (fs : filesystem) :
  __init__ 1 (47 / 100) fname fs = create 1 0 fname fs.
Proof.
  rewrite init_valid by (try lra; discriminate).
  rewrite derive_size_1_047, derive_hash_count_1_1. reflexivity.
Qed.

(** * A filter that has just been constructed *)

Lemma range_cons (h : Z) : 0 < h -> exists rest, range h = 0 :: rest.
Proof.
  intros H. unfold range. destruct (Z.to_nat h) as [| k] eqn:E; [lia |].
  cbn [seq map]. eauto.
Qed.

Lemma range_nil (h : Z) : h <= 0 -> range h = [].
Proof. intros H. unfold range. replace (Z.to_nat h) with 0%nat by lia. reflexivity. Qed.

Lemma norm_index_in_range (len x : Z) :
  0 <= x < len -> norm_index len x = Some (Z.to_nat x).
Proof.
  intros [H0 H1]. unfold norm_index.
  destruct (x <? 0) eqn:E; [lia |].
  destruct (0 <=? x) eqn:E1; [| lia]. destruct (x <? len) eqn:E2; [| lia]. reflexivity.
Qed.

Lemma repeat_lookup_lt (x : Z) (n i : nat) : (i < n)%nat -> repeat x n !! i = Some x.
Proof.
  revert i. induction n as [| n IH]; intros i Hi; [lia |].
  destruct i as [| i]; [reflexivity |]. cbn. apply IH. lia.
Qed.

Lemma fresh_check_false (sz hc : Z) (fname : string) (fs fs' : filesystem)
    (bf : BloomFilter) (e : value) :
  wf_fs fs ->
  create sz hc fname fs = (Returned bf, fs') ->
  0 < hc ->
  fst (check_member e (bf, fs')) = Returned false.
Proof.
  intros Hwf Hc Hhc.
  apply create_returned_inv in Hc
    as (Hsz & Hidle & Hsize & Hhash & Hname & Hlen & (i & Hd & Hi) & Hbits).
  destruct (Hbits Hwf) as (_ & _ & Hzero).
  rewrite (check_member_run e bf fs' i sz hc Hidle Hd Hi).
  destruct (range_cons hc Hhc) as (rest & ->).
  cbn [check_loop]. unfold bind, get_self, lift, bit_get. cbn [fst snd].
  rewrite compute_hash_value by (cbn; lia).
  change (size (reading (set_params sz hc bf))) with sz.
  change (bit_array (reading (set_params sz hc bf))) with (bit_array bf).
  set (x := _ mod sz).
  assert (Hx : 0 <= x < sz) by (apply Z.mod_pos_bound; lia).
  unfold mmap_get. rewrite Hlen, norm_index_in_range, Hzero by exact Hx.
  rewrite (repeat_lookup_lt 0 (Z.to_nat sz) (Z.to_nat x)) by lia.
  reflexivity.
Qed.

(** * Termination of the writer *)

Lemma mmap_set_returns (bf : BloomFilter) (fs : filesystem) (x : Z) :
  mapped bf fs ->
  0 <= x < map_length (bit_array bf) ->
  exists fs',
    mmap_set (bit_array bf) x 1 fs = (Returned tt, fs') /\
    mapped bf fs' /\ dir fs' = dir fs /\ next_inode fs' = next_inode fs.
Proof.
  intros (bs & Hbs & Hlen) Hx. unfold mmap_set.
  rewrite norm_index_in_range, Hbs by exact Hx.
  destruct (Z.to_nat x <? length bs)%nat eqn:E; [| apply Nat.ltb_ge in E; lia].
  eexists. split; [reflexivity |]. split; [| split; reflexivity].
  exists (<[Z.to_nat x := 1]> bs). cbn [inodes].
  rewrite lookup_insert_eq, length_insert. auto.
Qed.

Lemma add_loop_returns (elem : string) (bf : BloomFilter) (idx : list Z) :
  0 < size bf <= map_length (bit_array bf) ->
  forall fs,
    mapped bf fs ->
    exists fs',
      add_loop elem idx (bf, fs) = (Returned tt, (bf, fs')) /\
      mapped bf fs' /\ dir fs' = dir fs /\ next_inode fs' = next_inode fs.
Proof.
  intros Hsz. induction idx as [| i rest IH]; intros fs Hm.
  - exists fs. auto.
  - cbn [add_loop]. unfold bind, get_self, lift, bit_set. cbn [fst snd].
    rewrite compute_hash_value by lia.
    set (x := _ mod size bf).
    assert (Hx : 0 <= x < map_length (bit_array bf)).
    { pose proof (Z.mod_pos_bound
        (Sha256.be_int (Sha256.digest (encode (elem +:+ str_int i)))) (size bf)
        ltac:(lia)). fold x in H. lia. }
    destruct (mmap_set_returns bf fs x Hm Hx) as (fs1 & -> & Hm1 & Hd1 & Hn1).
    destruct (IH fs1 Hm1) as (fs' & -> & Hm' & Hd' & Hn').
    exists fs'. repeat split; try assumption; congruence.
Qed.

(** On a freshly constructed filter the writer returns, whatever it adds. *)
Lemma fresh_add_returns (sz hc : Z) (fname : string) (fs fs1 : filesystem)
    (bf : BloomFilter) (e : value) :
  wf_fs fs ->
  create sz hc fname fs = (Returned bf, fs1) ->
  exists fs2,
    add_elem e (bf, fs1) = (Returned tt, (set_params sz hc bf, fs2)) /\
    add_loop (str e) (range hc) (writing (set_params sz hc bf), fs1)
      = (Returned tt, (writing (set_params sz hc bf), fs2)) /\
    mapped bf fs2 /\ dir fs2 = dir fs1 /\ next_inode fs2 = next_inode fs1.
Proof.
  intros Hwf Hc.
  apply create_returned_inv in Hc
    as (Hsz & Hidle & Hsize & Hhash & Hname & Hlen & (i & Hd & Hi) & Hbits).
  destruct (Hbits Hwf) as (_ & _ & Hzero).
  rewrite (add_elem_run e bf fs1 i sz hc Hidle Hd Hi).
  destruct (add_loop_returns (str e) (writing (set_params sz hc bf)) (range hc))
    with (fs := fs1) as (fs2 & E & Hm & Hd2 & Hn2).
  - cbn. lia.
  - exists (repeat 0 (Z.to_nat sz)). split; [exact Hzero |].
    change (bit_array (writing (set_params sz hc bf))) with (bit_array bf).
    rewrite repeat_length. lia.
  - exists fs2. rewrite E. auto.
Qed.

(** * Removal *)

Lemma delete_returned (bf : BloomFilter) (fs : filesystem) :
  fst (delete (bf, fs)) = Returned tt ->
  exists fs', snd (delete (bf, fs)) = (bf, fs') /\ dir fs' !! meta_name bf = None.
Proof.
  unfold delete, bind, get_self, on_fs, os_remove. cbn [fst snd].
  destruct (dir fs !! filename bf) as [i |]; [| discriminate].
  cbn [dir fst snd].
  destruct (base.delete (filename bf) (dir fs) !! meta_name bf) as [j |] eqn:E.
  - intros _. eexists. split; [reflexivity |]. cbn [dir]. apply lookup_delete_eq.
  - cbn [fst]. discriminate.
Qed.

(** * Parameter claims *)




(** C4. [BloomFilter(100, 0.1)] is constructed on any file system and has
    [size = 479] and [hash_count = 3], which is also what it persists. The
    two integers come out the same from any floats within a tenth of the
    exact values, so the rounding of the float operations cannot change
    them. *)
Theorem init_100_01 (fname : string) (fs : filesystem) :
  (exists bf fs',
     __init__ 100 (1 / 10) fname fs = (Returned bf, fs') /\
     size bf = 479 /\ hash_count bf = 3 /\
     read_file (fname +:+ ".meta") fs' = Some (Pickle 479 3)) /\
  (forall v, (Rabs (v - size_value 100 (1 / 10)) <= 1 / 10)%R -> int v = 479) /\
  (forall v, (Rabs (v - hash_count_value 479 100) <= 1 / 10)%R -> int v = 3).
Proof.
  split; [| split].
  - rewrite init_demo_is_create.
    destruct (create_returns 479 3 fname fs ltac:(lia))
      as (m & fs' & E & _ & (i & Hd & Hi) & _).
    eexists _, fs'. split; [exact E |]. repeat split.
    unfold read_file. rewrite Hd. exact Hi.
  - intros v. apply int_near; [discriminate |]. pose proof size_value_100_01. lra.
  - intros v. apply int_near; [discriminate |]. pose proof hash_count_value_479_100. lra.
Qed.

(** C5 (the code at the failing input). [BloomFilter(1, 0.47)] passes the
    assertion and is constructed with one cell and no hash function at all;
    this too is the same for any floats within a tenth of the exact
    values. *)
Theorem init_1_047 (fname : string) (fs : filesystem) :
  (0 < 47 / 100 < 48 / 100)%R /\
  (exists bf fs',
     __init__ 1 (47 / 100) fname fs = (Returned bf, fs') /\
     size bf = 1 /\ hash_count bf = 0) /\
  (forall v, (Rabs (v - size_value 1 (47 / 100)) <= 1 / 10)%R -> int v = 1) /\
  (forall v, (Rabs (v - hash_count_value 1 1) <= 1 / 10)%R -> int v = 0).
Proof.
  split; [lra |]. split; [| split].
  - rewrite init_tiny_is_create.
    destruct (create_returns 1 0 fname fs ltac:(lia)) as (m & fs' & E & _).
    eexists _, fs'. split; [exact E |]. split; reflexivity.
  - intros v. apply int_near; [discriminate |]. pose proof size_value_1_047. lra.
  - intros v. apply int_near; [reflexivity |]. pose proof hash_count_value_1_1. lra.
Qed.

(** * Serialisation claims *)

(** C3 (as stated, refuted). [1] and ["1"] have the same string form; on the
    demo filter every position of the one is a position of the other, and
    [check_member("1")], false on the new filter, is true after
    [add_elem(1)]. *)
Lemma int_and_text_collide :
  str (Int 1) = str (Str "1") /\
  exists bf fs,
    __init__ 100 (1 / 10) demo_path empty_fs = (Returned bf, fs) /\
    (forall i, In i (range (hash_count bf)) ->
       compute_hash bf (str (Int 1)) i = compute_hash bf (str (Str "1")) i) /\
    fst (check_member (Str "1") (bf, fs)) = Returned false /\
    fst (add_elem (Int 1) (bf, fs)) = Returned tt /\
    fst (check_member (Str "1") (snd (add_elem (Int 1) (bf, fs)))) = Returned true.
Proof.
  split; [reflexivity |].
  rewrite init_demo_is_create.
  destruct (create 479 3 demo_path empty_fs) as [[bf | |] fs] eqn:E;
    try (vm_compute in E; discriminate E).
  exists bf, fs. split; [reflexivity |]. split; [reflexivity |].
  vm_compute in E. injection E as <- <-.
  repeat split; vm_compute; reflexivity.
Qed.

(** C3 (amended). [str] maps the integer 1 and the text ["1"] to the same
    string, so their positions coincide for every index and every size, and
    [add_elem(1)] followed by [check_member("1")] returns [True]. *)
Theorem int_one_is_text_one :
  str (Int 1) = str (Str "1") /\
  (forall self i, compute_hash self (str (Int 1)) i = compute_hash self (str (Str "1")) i) /\
  (forall bf fs,
     idle bf ->
     fst (add_elem (Int 1) (bf, fs)) = Returned tt ->
     fst (check_member (Str "1") (snd (add_elem (Int 1) (bf, fs)))) = Returned true).
Proof.
  split; [reflexivity |]. split; [reflexivity |].
  intros bf fs. apply add_then_check. reflexivity.
Qed.

(** * Life cycle claims *)

(** C8 (as stated, refuted). On the demo filter, the first [add_elem] after
    [delete] raises [FileNotFoundError] with [resource] still taken, and the
    second one neither fails nor returns: it blocks on [resource]. *)
Lemma second_add_after_delete_blocks :
  exists bf fs,
    __init__ 100 (1 / 10) demo_path empty_fs = (Returned bf, fs) /\
    fst (delete (bf, fs)) = Returned tt /\
    fst (add_elem (Int 1) (snd (delete (bf, fs)))) = Raised FileNotFoundError /\
    fst (add_elem (Int 1) (snd (add_elem (Int 1) (snd (delete (bf, fs)))))) = Blocked.
Proof.
  rewrite init_demo_is_create.
  destruct (create 479 3 demo_path empty_fs) as [[bf | |] fs] eqn:E;
    try (vm_compute in E; discriminate E).
  exists bf, fs. split; [reflexivity |].
  vm_compute in E. injection E as <- <-.
  repeat split; vm_compute; reflexivity.
Qed.

(** C8 (amended). Once [delete] has returned on an idle object, the next
    call, be it [add_elem] or [check_member], raises [FileNotFoundError]
    from the metadata reload and returns no value. *)
Theorem call_after_delete_raises (e : value) (bf : BloomFilter) (fs : filesystem) :
  idle bf ->
  fst (delete (bf, fs)) = Returned tt ->
  fst (add_elem e (snd (delete (bf, fs)))) = Raised FileNotFoundError /\
  fst (check_member e (snd (delete (bf, fs)))) = Raised FileNotFoundError.
Proof.
  intros Hidle Hdel.
  destruct (delete_returned bf fs Hdel) as (fs' & -> & Hnone).
  rewrite add_elem_missing, check_member_missing by assumption.
  split; reflexivity.
Qed.

(** C7 (as stated, refuted). Construct the demo filter, add ["x"], open
    the same path again with the same parameters: the metadata is the same,
    and [check_member("x")] is false. *)
Lemma reopen_loses_x :
  exists bf fs bf' fs',
    __init__ 100 (1 / 10) demo_path empty_fs = (Returned bf, fs) /\
    fst (add_elem (Str "x") (bf, fs)) = Returned tt /\
    fst (check_member (Str "x") (snd (add_elem (Str "x") (bf, fs)))) = Returned true /\
    __init__ 100 (1 / 10) demo_path (snd (snd (add_elem (Str "x") (bf, fs))))
      = (Returned bf', fs') /\
    size bf' = size bf /\ hash_count bf' = hash_count bf /\
    fst (check_member (Str "x") (bf', fs')) = Returned false.
Proof.
  rewrite init_demo_is_create.
  destruct (create 479 3 demo_path empty_fs) as [[bf | |] fs] eqn:E;
    try (vm_compute in E; discriminate E).
  vm_compute in E. injection E as <- <-.
  eexists _, _, _, _. split; [reflexivity |].
  split; [vm_compute; reflexivity |]. split; [vm_compute; reflexivity |].
  rewrite init_demo_is_create.
  split; [vm_compute; reflexivity |].
  repeat split; vm_compute; reflexivity.
Qed.

(** C7 (amended). After construction at a path and [add_elem e], the file at
    that path holds 1 at every position of [e] and the metadata file holds
    [size] and [hash_count]; opening the path again is a construction, which
    removes the file and writes zeros, so with at least one hash function
    [check_member e] is false on the reopened filter, its parameters being
    the same. *)
Theorem reopen_erases (n : Z) (p : R) (fname : string) (fs fs1 : filesystem)
    (bf : BloomFilter) (e : value) :
  wf_fs fs ->
  __init__ n p fname fs = (Returned bf, fs1) ->
  0 < hash_count bf ->
  fst (add_elem e (bf, fs1)) = Returned tt /\
  (exists bs,
     read_file fname (snd (snd (add_elem e (bf, fs1)))) = Some (Bytes bs) /\
     forall i, In i (range (hash_count bf)) ->
       exists x, compute_hash bf (str e) i = Returned x /\ bs !! Z.to_nat x = Some 1) /\
  read_file (fname +:+ ".meta") (snd (snd (add_elem e (bf, fs1))))
    = Some (Pickle (size bf) (hash_count bf)) /\
  exists bf' fs3,
    __init__ n p fname (snd (snd (add_elem e (bf, fs1)))) = (Returned bf', fs3) /\
    size bf' = size bf /\ hash_count bf' = hash_count bf /\
    fst (check_member e (bf', fs3)) = Returned false.
Proof.
  intros Hwf Hinit Hhc.
  apply init_returned_inv in Hinit as (Hp & Hn & Hc).
  set (sz := derive_size n p) in *. set (hc := derive_hash_count sz n) in *.
  destruct (fresh_add_returns sz hc fname fs fs1 bf e Hwf Hc)
    as (fs2 & Eadd & Eloop & (bs & Hbs & Hlen) & Hdir & Hnext).
  apply create_returned_inv in Hc
    as (Hsz & Hidle & Hsize & Hhash & Hname & Hmap & (i & Hd & Hi) & Hbits).
  destruct (Hbits Hwf) as (Hwf1 & Hfile & _).
  rewrite Eadd. cbn [fst snd].
  apply add_loop_sets in Eloop as (_ & _ & Hpick & _ & Hall).
  split; [reflexivity |]. split; [| split].
  - exists bs. split.
    + unfold read_file. rewrite Hdir, Hfile. exact Hbs.
    + rewrite Hhash. intros k Hk. destruct (Hall k Hk) as (x & Hx & Hget).
      assert (Hx' : compute_hash bf (str e) k = Returned x).
      { rewrite <- Hx. symmetry. apply compute_hash_size. cbn. lia. }
      exists x. split; [exact Hx' |].
      rewrite compute_hash_value in Hx' by lia. injection Hx' as Hx'.
      assert (Hrange : 0 <= x < sz).
      { rewrite <- Hx', Hsize. apply Z.mod_pos_bound. lia. }
      unfold mmap_get in Hget.
      change (bit_array (writing (set_params sz hc bf))) with (bit_array bf) in Hget.
      rewrite Hmap, norm_index_in_range, Hbs in Hget by exact Hrange.
      destruct (bs !! Z.to_nat x) as [b |]; [| discriminate Hget].
      injection Hget as ->. reflexivity.
  - unfold read_file. unfold meta_name in Hd. rewrite Hname in Hd.
    rewrite Hdir, Hd, Hsize, Hhash. apply Hpick, Hi.
  - rewrite init_valid by assumption. fold sz hc.
    destruct (create_returns sz hc fname fs2 Hsz) as (m & fs3 & Ec & _).
    eexists _, fs3. split; [exact Ec |]. cbn [size hash_count].
    split; [congruence |]. split; [congruence |].
    apply (fresh_check_false sz hc fname fs2 fs3 _ e); [| exact Ec | lia].
    intros q j Hq. rewrite Hnext. apply (Hwf1 q j). rewrite <- Hdir. exact Hq.
Qed.

(** C10. Some valid inputs give no hash function: [BloomFilter(1, 0.47)]
    has [hash_count = 0]. Whenever [hash_count] is 0 on a new filter,
    [check_member] returns [True] for every element although every cell is
    zero, and [add_elem] returns without touching the file system. *)
Theorem zero_hash_count :
  (exists n p,
     0 < n /\ (0 < p < 48 / 100)%R /\
     forall fname fs, exists bf fs',
       __init__ n p fname fs = (Returned bf, fs') /\ hash_count bf = 0) /\
  (forall n p fname fs bf fs' e,
     __init__ n p fname fs = (Returned bf, fs') ->
     hash_count bf = 0 ->
     fst (check_member e (bf, fs')) = Returned true /\
     fst (add_elem e (bf, fs')) = Returned tt /\
     snd (snd (add_elem e (bf, fs'))) = fs' /\
     (wf_fs fs ->
        inodes fs' !! ino (bit_array bf) = Some (Bytes (repeat 0 (Z.to_nat (size bf)))))).
Proof.
  split.
  - exists 1, (47 / 100)%R. split; [lia |]. split; [lra |].
    intros fname fs. rewrite init_tiny_is_create.
    destruct (create_returns 1 0 fname fs ltac:(lia)) as (m & fs' & E & _).
    eexists _, fs'. split; [exact E | reflexivity].
  - intros n p fname fs bf fs' e Hinit Hzero.
    apply init_returned_inv in Hinit as (_ & _ & Hc).
    apply create_returned_inv in Hc
      as (Hsz & Hidle & Hsize & Hhash & Hname & Hmap & (i & Hd & Hi) & Hbits).
    rewrite Hzero in Hhash. rewrite <- Hhash in Hi.
    rewrite (check_member_run e bf fs' i _ 0 Hidle Hd Hi).
    rewrite (add_elem_run e bf fs' i _ 0 Hidle Hd Hi).
    cbn [range Z.to_nat seq map check_loop add_loop ret fst snd].
    repeat split. intros Hwf. rewrite Hsize. apply Hbits, Hwf.
Qed.

(** * Stores into the mapping, seen from the initial file system *)

Lemma compute_hash_at_position (self : BloomFilter) (el : string) (i : Z) :
  size self <> 0 ->
  compute_hash self el i = Returned (position (size self) el i).
Proof. apply compute_hash_value. Qed.

Lemma compute_hash_returned (self : BloomFilter) (el : string) (i x : Z) :
  compute_hash self el i = Returned x ->
  size self <> 0 /\ x = position (size self) el i.
Proof.
  intros H. destruct (Z.eq_dec (size self) 0) as [E | E].
  - rewrite compute_hash_zero in H by exact E. discriminate H.
  - rewrite compute_hash_at_position in H by exact E. injection H as <-. auto.
Qed.

Lemma evolves_refl (m : mmap) (cells : nat -> Prop) (fs : filesystem) :
  evolves m cells fs fs.
Proof.
  unfold evolves. repeat split.
  destruct (inodes fs !! ino m) as [[bs | ? ?] |]; try reflexivity.
  exists bs. repeat split. intros j. left. reflexivity.
Qed.

Lemma evolves_set (m : mmap) (cells : nat -> Prop) (fs0 fs fs' : filesystem) (x : Z) :
  evolves m cells fs0 fs ->
  mmap_set m x 1 fs = (Returned tt, fs') ->
  (forall j, norm_index (map_length m) x = Some j -> cells j) ->
  evolves m cells fs0 fs'.
Proof.
  intros (Hd & Hn & Hk & Hm) Hset Hcell.
  apply mmap_set_inv in Hset as (j & bs & Hj & Hbs & Hlt & ->).
  unfold evolves. cbn [dir inodes next_inode].
  split; [exact Hd |]. split; [exact Hn |]. split.
  - intros k Hne. rewrite lookup_insert_ne by congruence. apply Hk, Hne.
  - destruct (inodes fs0 !! ino m) as [[bs0 | ? ?] |]; try congruence.
    destruct Hm as (bs1 & Hbs1 & Hlen & Hall).
    assert (bs1 = bs) as -> by congruence.
    exists (<[j := 1]> bs). rewrite lookup_insert_eq, length_insert.
    repeat split; [exact Hlen |].
    intros k. destruct (decide (k = j)) as [-> | Hne].
    + right. rewrite list_lookup_insert_eq by exact Hlt. auto.
    + rewrite list_lookup_insert_ne by congruence. apply Hall.
Qed.

Lemma evolves_metadata (m : mmap) (cells : nat -> Prop) (fs0 fs : filesystem)
    (name : string) :
  evolves m cells fs0 fs -> metadata name fs = metadata name fs0.
Proof.
  intros (Hd & Hn & Hk & Hm). unfold metadata, read_file. rewrite Hd.
  destruct (dir fs0 !! name) as [i |]; [| reflexivity].
  destruct (decide (i = ino m)) as [-> | Hne]; [| rewrite Hk by exact Hne; reflexivity].
  destruct (inodes fs0 !! ino m) as [[bs0 | ? ?] |]; try (rewrite Hm; reflexivity).
  destruct Hm as (bs & -> & _). reflexivity.
Qed.

Lemma evolves_storable (m : mmap) (cells : nat -> Prop) (fs0 fs : filesystem)
    (s : Z) (el : string) (i : Z) :
  evolves m cells fs0 fs -> storable m s el i fs0 <-> storable m s el i fs.
Proof.
  intros (Hd & Hn & Hk & Hm). unfold storable.
  destruct (inodes fs0 !! ino m) as [[bs0 | ? ?] |] eqn:E0.
  - destruct Hm as (bs & Hbs & Hlen & _). rewrite Hbs. split.
    + intros (Hs & j & bs' & Hj & [= <-] & Hlt). split; [exact Hs |].
      exists j, bs. rewrite Hlen. auto.
    + intros (Hs & j & bs' & Hj & [= <-] & Hlt). split; [exact Hs |].
      exists j, bs0. rewrite <- Hlen. auto.
  - rewrite Hm. tauto.
  - rewrite Hm. tauto.
Qed.

Lemma marked_storable (m : mmap) (s : Z) (el : string) (i : Z) (fs : filesystem) :
  marked_at m s el i fs -> storable m s el i fs.
Proof.
  intros (Hs & Hget). split; [exact Hs |]. unfold mmap_get in Hget.
  destruct (norm_index (map_length m) (position s el i)) as [j |]; [| discriminate Hget].
  destruct (inodes fs !! ino m) as [[bs | ? ?] |]; try discriminate Hget.
  destruct (bs !! j) as [b |] eqn:Eb; [| discriminate Hget].
  exists j, bs. repeat split. eapply lookup_lt_Some, Eb.
Qed.

Lemma marked_cell (m : mmap) (s : Z) (el : string) (i : Z) (fs : filesystem)
    (j : nat) (bs : list Z) :
  marked_at m s el i fs ->
  norm_index (map_length m) (position s el i) = Some j ->
  inodes fs !! ino m = Some (Bytes bs) ->
  bs !! j = Some 1.
Proof.
  intros (_ & Hget) Hj Hbs. unfold mmap_get in Hget. rewrite Hj, Hbs in Hget.
  destruct (bs !! j) as [b |]; [| discriminate Hget]. congruence.
Qed.

Lemma marked_set (m : mmap) (s : Z) (el : string) (i x : Z) (fs fs' : filesystem) :
  mmap_set m x 1 fs = (Returned tt, fs') ->
  marked_at m s el i fs -> marked_at m s el i fs'.
Proof.
  intros Hset (Hs & Hget). split; [exact Hs |]. eapply mmap_get_set_one; eassumption.
Qed.

Lemma storable_set (m : mmap) (s : Z) (el : string) (i : Z) (fs : filesystem) :
  storable m s el i fs ->
  exists fs', mmap_set m (position s el i) 1 fs = (Returned tt, fs').
Proof.
  intros (_ & j & bs & Hj & Hbs & Hlt). unfold mmap_set. rewrite Hj, Hbs.
  apply Nat.ltb_lt in Hlt. rewrite Hlt. eauto.
Qed.

(** * The sequential reference *)

Lemma add_loop_evolves (m : mmap) (cells : nat -> Prop) (fs0 : filesystem)
    (bf : BloomFilter) (el : string) (idx : list Z) :
  bit_array bf = m ->
  forall fs,
    evolves m cells fs0 fs ->
    (forall i, In i idx ->
       storable m (size bf) el i fs /\
       forall j, norm_index (map_length m) (position (size bf) el i) = Some j -> cells j) ->
    exists fs',
      add_loop el idx (bf, fs) = (Returned tt, (bf, fs')) /\
      evolves m cells fs0 fs'.
Proof.
  intros Hm. induction idx as [| i rest IH]; intros fs Hev Hall.
  - exists fs. auto.
  - destruct (Hall i (or_introl eq_refl)) as (Hst & Hcell).
    pose proof Hst as (Hs & _).
    destruct (storable_set _ _ _ _ _ Hst) as (fs1 & Hset).
    cbn [add_loop]. unfold bind, get_self, lift, bit_set. cbn [fst snd].
    rewrite compute_hash_at_position, Hm, Hset by exact Hs.
    apply IH.
    + eapply evolves_set; eassumption.
    + intros i' Hin. destruct (Hall i' (or_intror Hin)) as (Hst' & Hcell').
      split; [| exact Hcell'].
      apply (evolves_storable m cells fs0 fs1); [eapply evolves_set; eassumption |].
      apply (evolves_storable m cells fs0 fs); assumption.
Qed.

Lemma metadata_inv (name : string) (fs : filesystem) (s h : Z) :
  metadata name fs = Some (s, h) ->
  exists i, dir fs !! name = Some i /\ inodes fs !! i = Some (Pickle s h).
Proof.
  unfold metadata, read_file. intros H.
  destruct (dir fs !! name) as [i |]; [| discriminate H].
  destruct (inodes fs !! i) as [[? | ? ?] |] eqn:E; try discriminate H.
  injection H as -> ->. eauto.
Qed.

Lemma add_all_evolves (m : mmap) (name : string) (fs0 : filesystem) (s h : Z)
    (es : list value) :
  metadata name fs0 = Some (s, h) ->
  (forall e i, In e es -> In i (range h) -> storable m s (str e) i fs0) ->
  forall l, incl l es ->
  forall bf fs,
    idle bf -> bit_array bf = m -> meta_name bf = name ->
    evolves m (cell_of m s h es) fs0 fs ->
    exists bf' fs',
      add_all l (bf, fs) = (Returned tt, (bf', fs')) /\
      evolves m (cell_of m s h es) fs0 fs' /\
      (forall x, mmap_get m x fs = Returned 1 -> mmap_get m x fs' = Returned 1) /\
      (forall e i, In e l -> In i (range h) -> marked_at m s (str e) i fs').
Proof.
  intros Hmeta Hst. induction l as [| e l IH]; intros Hincl bf fs Hidle Hm Hname Hev.
  - exists bf, fs. split; [reflexivity |]. split; [exact Hev |]. split; [auto |].
    intros e i [].
  - assert (He : In e es) by (apply Hincl; left; reflexivity).
    assert (Hl : incl l es) by (intros a Ha; apply Hincl; right; exact Ha).
    pose proof (evolves_metadata m (cell_of m s h es) fs0 fs name Hev) as Hmd. rewrite Hmeta in Hmd.
    apply metadata_inv in Hmd as (i0 & Hd & Hi). rewrite <- Hname in Hd.
    destruct (add_loop_evolves m (cell_of m s h es) fs0
                (writing (set_params s h bf)) (str e) (range h) Hm fs Hev)
      as (fs1 & Eloop & Hev1).
    { intros i Hin. cbn [size writing set_sem set_params]. split.
      - apply (evolves_storable m (cell_of m s h es) fs0 fs);
          [exact Hev | apply Hst; assumption].
      - intros j Hj. exists e, i. auto. }
    destruct (IH Hl (set_params s h bf) fs1)
      as (bf' & fs' & Eall & Hev' & Hkeep & Hmarks);
      [exact Hidle | exact Hm | exact Hname | exact Hev1 |].
    exists bf', fs'. cbn [add_all]. unfold bind at 1.
    rewrite (add_elem_run e bf fs i0 s h Hidle Hd Hi), Eloop.
    apply add_loop_sets in Eloop as (_ & _ & _ & Hkeep1 & Hall).
    change (bit_array (writing (set_params s h bf))) with (bit_array bf) in Hkeep1, Hall.
    rewrite Hm in Hkeep1, Hall.
    split; [exact Eall |]. split; [exact Hev' |]. split; [auto |].
    intros e' i [<- | Hin] Hi'; [| apply Hmarks; assumption].
    destruct (Hall i Hi') as (x & Hx & Hget).
    apply compute_hash_returned in Hx as (Hs & ->).
    cbn [size writing set_sem set_params] in Hs, Hget.
    split; [exact Hs |]. apply Hkeep, Hget.
Qed.

(** * Invariant of the interleaved executions *)

Section Interleaving.

Variables (m : mmap) (name : string) (fs0 : filesystem) (s h : Z) (es : list value).
Hypothesis metadata_fs0 :
  forall s' h', metadata name fs0 = Some (s', h') -> s' = s /\ h' = h.

Lemma advances_same_fs (bf bf' : BloomFilter) (fs : filesystem) :
  size bf' = size bf -> hash_count bf' = hash_count bf ->
  advances m s h (bf, fs) (bf', fs).
Proof. intros H1 H2. split; [left; auto | auto]. Qed.

Lemma thread_inv_stable (t : thread) (w w' : world) :
  advances m s h w w' ->
  thread_inv m name fs0 s h t w -> thread_inv m name fs0 s h t w'.
Proof.
  intros (Hpar & Hkeep). unfold thread_inv.
  assert (Hmark : forall el i, marked_at m s el i (snd w) -> marked_at m s el i (snd w')).
  { intros el i (Hs & Hget). split; [exact Hs | apply Hkeep, Hget]. }
  destruct (point t) as [| | | | | idx | x rest | | | |]; try exact (fun H => H).
  - intros (Hmd & Hsz & Hhc). split; [exact Hmd |].
    destruct Hpar as [[-> ->] | [-> ->]]; auto.
  - intros (Hmd & Hsz & done & Hr & Hall). split; [exact Hmd |]. split.
    + destruct Hpar as [[-> _] | [-> _]]; auto.
    + exists done. split; [exact Hr |]. intros i Hi. apply Hmark, Hall, Hi.
  - intros (Hmd & Hsz & done & i & Hr & Hs & Hx & Hall). split; [exact Hmd |]. split.
    + destruct Hpar as [[-> _] | [-> _]]; auto.
    + exists done, i. split; [exact Hr |]. split; [exact Hs |]. split; [exact Hx |].
      intros k Hk. apply Hmark, Hall, Hk.
  - intros (Hmd & Hall). split; [exact Hmd |]. intros i Hi. apply Hmark, Hall, Hi.
  - intros (Hmd & Hall). split; [exact Hmd |]. intros i Hi. apply Hmark, Hall, Hi.
  - intros (Hmd & Hall). split; [exact Hmd |]. intros i Hi. apply Hmark, Hall, Hi.
Qed.

Lemma acquire_step (sem : semaphore) (w : world) (o : outcome unit) (w' : world) :
  acquire sem w = (o, w') ->
  o <> Blocked ->
  o = Returned tt /\ snd w' = snd w /\
  size (fst w') = size (fst w) /\ hash_count (fst w') = hash_count (fst w) /\
  bit_array (fst w') = bit_array (fst w) /\ meta_name (fst w') = meta_name (fst w).
Proof.
  unfold acquire. destruct (0 <? sem_value sem (fst w)).
  - intros [= <- <-] _. repeat split.
  - intros [= <- <-] H. contradiction.
Qed.

Lemma release_step (sem : semaphore) (w : world) :
  exists w', release sem w = (Returned tt, w') /\ snd w' = snd w /\
    size (fst w') = size (fst w) /\ hash_count (fst w') = hash_count (fst w) /\
    bit_array (fst w') = bit_array (fst w) /\ meta_name (fst w') = meta_name (fst w).
Proof. eexists. split; [reflexivity |]. repeat split. Qed.

Lemma thread_step_result (t t' : thread) (w w' : world) :
  In (elem t) es ->
  bit_array (fst w) = m ->
  meta_name (fst w) = name ->
  evolves m (cell_of m s h es) fs0 (snd w) ->
  thread_inv m name fs0 s h t w ->
  thread_step t w = Some (t', w') ->
  step_result m name fs0 s h es t t' w w'.
Proof.
  intros Hin Hm Hname Hev Hinv Hstep.
  destruct w as [bf fs]. cbn [fst snd] in *.
  unfold thread_step in Hstep. unfold thread_inv in Hinv.
  destruct t as [e p]. cbn [point elem fst snd] in *.
  destruct p as [| | | | | idx | x rest | | | |].
  - (* serviceQueue.acquire() *)
    destruct (acquire ServiceQueue (bf, fs)) as [o w1] eqn:E.
    destruct o as [[] | ex |]; cbn [after] in Hstep; try discriminate Hstep;
      injection Hstep as <- <-;
      apply acquire_step in E as (Ho & Hfs & Hsz & Hhc & Hba & Hmn); try discriminate.
    destruct w1 as [bf1 fs1]. cbn [fst snd] in *. subst fs1.
    step_goals; auto; try (apply advances_same_fs; assumption).
  - (* resource.acquire() *)
    destruct (acquire Resource (bf, fs)) as [o w1] eqn:E.
    destruct o as [[] | ex |]; cbn [after] in Hstep; try discriminate Hstep;
      injection Hstep as <- <-;
      apply acquire_step in E as (Ho & Hfs & Hsz & Hhc & Hba & Hmn); try discriminate.
    destruct w1 as [bf1 fs1]. cbn [fst snd] in *. subst fs1.
    step_goals; auto; try (apply advances_same_fs; assumption).
  - (* serviceQueue.release() *)
    destruct (release_step ServiceQueue (bf, fs)) as (w1 & E & Hfs & Hsz & Hhc & Hba & Hmn).
    rewrite E in Hstep. cbn [after] in Hstep. injection Hstep as <- <-.
    destruct w1 as [bf1 fs1]. cbn [fst snd] in *. subst fs1.
    step_goals; auto; try (apply advances_same_fs; assumption).
  - (* load_metadata() *)
    destruct (load_metadata (bf, fs)) as [o w1] eqn:E.
    destruct o as [[] | ex |]; cbn [after] in Hstep; try discriminate Hstep;
      injection Hstep as <- <-.
    + apply load_metadata_inv in E as (i & s' & h' & Hd & Hi & ->).
      assert (Hmd : metadata name fs0 = Some (s', h')).
      { rewrite <- (evolves_metadata m (cell_of m s h es) fs0 fs name Hev).
        unfold metadata, read_file. rewrite <- Hname, Hd, Hi. reflexivity. }
      destruct (metadata_fs0 s' h' Hmd) as [-> ->].
      step_goals; auto.
      * split; [right; auto | auto].
      * unfold thread_inv. cbn. auto.
    + assert (w1 = (bf, fs)) as ->.
      { unfold load_metadata in E. cbn [fst snd] in E.
        destruct (dir fs !! meta_name bf); [| congruence].
        destruct (inodes fs !! n) as [[[| ? ?] | ? ?] |]; congruence. }
      step_goals; auto; try (apply advances_same_fs; reflexivity); try exact I.
  - (* range(self.hash_count) *)
    injection Hstep as <- <-. destruct Hinv as (Hmd & Hsz & Hhc).
    step_goals; auto; try (apply advances_same_fs; reflexivity).
    unfold thread_inv. cbn [point fst snd elem goto]. split; [exact Hmd |]. split; [exact Hsz |].
      exists []. rewrite Hhc. split; [reflexivity |]. intros i [].
  - (* the loop head *)
    destruct Hinv as (Hmd & Hsz & done & Hr & Hall).
    destruct idx as [| i rest].
    + injection Hstep as <- <-.
      step_goals; auto; try (apply advances_same_fs; reflexivity).
      unfold thread_inv. cbn [point fst snd elem goto]. split; [exact Hmd |].
        intros i Hi. apply Hall. rewrite Hr, app_nil_r in Hi. exact Hi.
    + destruct (compute_hash bf (str e) i) as [x | ex |] eqn:Ex; try discriminate Hstep;
        injection Hstep as <- <-.
      * apply compute_hash_returned in Ex as (Hs & ->). rewrite Hsz in *.
        step_goals; auto; try (apply advances_same_fs; reflexivity).
        unfold thread_inv. cbn [point fst snd elem goto].
        split; [exact Hmd |]. split; [exact Hsz |]. exists done, i. auto.
      * step_goals; auto; try (apply advances_same_fs; reflexivity); try exact I.
  - (* the store *)
    destruct Hinv as (Hmd & Hsz & done & i & Hr & Hs & Hx & Hall).
    unfold bit_set in Hstep. cbn [fst snd] in Hstep. rewrite Hm in Hstep.
    destruct (mmap_set m x 1 fs) as [o fs1] eqn:E.
    destruct o as [[] | ex |]; cbn [after] in Hstep; try discriminate Hstep;
      injection Hstep as <- <-; cbn [fst snd].
    + assert (Hev1 : evolves m (cell_of m s h es) fs0 fs1).
      { eapply evolves_set; [exact Hev | exact E |].
        intros j Hj. exists e, i. rewrite <- Hx. split; [exact Hin |]. split; [| exact Hj].
        rewrite Hr. apply in_or_app. right. left. reflexivity. }
      step_goals; auto.
      * split; [left; auto |]. cbn [fst snd].
        intros y Hy. eapply mmap_get_set_one; eassumption.
      * unfold thread_inv. cbn [point fst snd elem goto].
        split; [exact Hmd |]. split; [exact Hsz |].
        exists (done ++ [i]). rewrite <- app_assoc. split; [exact Hr |].
        intros k Hk. apply in_app_or in Hk as [Hk | [<- | []]].
        -- eapply marked_set; [exact E | apply Hall, Hk].
        -- split; [exact Hs |]. rewrite <- Hx. eapply mmap_get_set_same. exact E.
    + apply mmap_set_fail in E as ->; [| discriminate].
      step_goals; auto; try (apply advances_same_fs; reflexivity); try exact I.
  - (* flush() *)
    cbn [after flush ret] in Hstep. injection Hstep as <- <-.
    step_goals; auto; try (apply advances_same_fs; reflexivity).
  - (* resource.release() *)
    destruct (release_step Resource (bf, fs)) as (w1 & E & Hfs & Hsz & Hhc & Hba & Hmn).
    rewrite E in Hstep. cbn [after] in Hstep. injection Hstep as <- <-.
    destruct w1 as [bf1 fs1]. cbn [fst snd] in *. subst fs1.
    step_goals; auto; try (apply advances_same_fs; assumption).
  - discriminate Hstep.
  - discriminate Hstep.
Qed.

Lemma map_elem_insert (ts : list thread) (k : nat) (t t' : thread) :
  ts !! k = Some t -> elem t' = elem t ->
  map elem (<[k := t']> ts) = map elem ts.
Proof.
  revert k. induction ts as [| a ts IH]; intros k Hk He; [reflexivity |].
  destruct k as [| k]; cbn in *.
  - injection Hk as ->. rewrite He. reflexivity.
  - rewrite IH by assumption. reflexivity.
Qed.

Lemma sys_step_inv (k : nat) (st st' : system) :
  system_inv m name fs0 s h es st ->
  sys_step k st = Some st' ->
  system_inv m name fs0 s h es st'.
Proof.
  intros (Hes & Hm & Hname & Hev & Hall) Hstep. unfold sys_step in Hstep.
  destruct (threads st !! k) as [t |] eqn:Ek; [| discriminate Hstep].
  destruct (thread_step t (shared st)) as [[t' w'] |] eqn:Et; [| discriminate Hstep].
  injection Hstep as <-.
  assert (Hin : In (elem t) es).
  { rewrite <- Hes. apply in_map. apply list_elem_of_In. eapply list_elem_of_lookup_2, Ek. }
  assert (Ht : thread_inv m name fs0 s h t (shared st)).
  { rewrite Forall_forall in Hall. apply Hall. eapply list_elem_of_lookup_2, Ek. }
  destruct (thread_step_result t t' (shared st) w' Hin Hm Hname Hev Ht Et)
    as (He & Hba & Hmn & Hev' & Hadv & Hinv').
  unfold system_inv. cbn [threads shared].
  split; [rewrite (map_elem_insert _ k t t' Ek He); exact Hes |].
  split; [congruence |]. split; [congruence |]. split; [exact Hev' |].
  apply Forall_insert; [| exact Hinv'].
  eapply Forall_impl; [exact Hall |].
  intros t0 H0. eapply thread_inv_stable; eassumption.
Qed.

Lemma run_inv (sched : list nat) :
  forall st st',
    system_inv m name fs0 s h es st ->
    run sched st = Some st' ->
    system_inv m name fs0 s h es st'.
Proof.
  induction sched as [| k rest IH]; intros st st' Hinv Hrun; cbn [run] in Hrun.
  - injection Hrun as <-. exact Hinv.
  - destruct (sys_step k st) as [st1 |] eqn:E; [| discriminate Hrun].
    eapply IH; [| exact Hrun]. eapply sys_step_inv; eassumption.
Qed.

End Interleaving.

(** Two file systems that evolved from the same one, within the same cells,
    all of them marked, are the same file system. *)
Lemma fs_determined (m : mmap) (s h : Z) (es : list value) (fs0 fs1 fs2 : filesystem) :
  evolves m (cell_of m s h es) fs0 fs1 ->
  evolves m (cell_of m s h es) fs0 fs2 ->
  (forall e i, In e es -> In i (range h) -> marked_at m s (str e) i fs1) ->
  (forall e i, In e es -> In i (range h) -> marked_at m s (str e) i fs2) ->
  fs1 = fs2.
Proof.
  intros (Hd1 & Hn1 & Hk1 & Hm1) (Hd2 & Hn2 & Hk2 & Hm2) Hmark1 Hmark2.
  assert (Hino : inodes fs1 = inodes fs2).
  { apply map_eq. intros k. destruct (decide (k = ino m)) as [-> | Hne].
    2: { rewrite Hk1, Hk2 by exact Hne. reflexivity. }
    destruct (inodes fs0 !! ino m) as [[bs0 | ? ?] |]; try congruence.
    destruct Hm1 as (bs1 & Hbs1 & Hlen1 & Hall1).
    destruct Hm2 as (bs2 & Hbs2 & Hlen2 & Hall2).
    rewrite Hbs1, Hbs2. do 2 f_equal. apply list_eq. intros j.
    assert (Hcell : cell_of m s h es j -> bs1 !! j = Some 1 /\ bs2 !! j = Some 1).
    { intros (e & i & He & Hi & Hj). split.
      - eapply marked_cell; [apply Hmark1 | |]; eassumption.
      - eapply marked_cell; [apply Hmark2 | |]; eassumption. }
    destruct (Hall1 j) as [E1 | [E1 C1]]; destruct (Hall2 j) as [E2 | [E2 C2]].
    - congruence.
    - destruct (Hcell C2). congruence.
    - destruct (Hcell C1). congruence.
    - congruence. }
  destruct fs1, fs2. cbn in *. congruence.
Qed.

Lemma spawn_inv (m : mmap) (name : string) (s h : Z) (es : list value)
    (bf : BloomFilter) (fs : filesystem) :
  bit_array bf = m -> meta_name bf = name ->
  system_inv m name fs s h es (spawn es (bf, fs)).
Proof.
  intros Hm Hname. unfold system_inv, spawn. cbn [threads shared fst snd].
  split; [| split; [exact Hm | split; [exact Hname | split; [apply evolves_refl |]]]].
  - rewrite map_map. cbn [elem]. apply map_id.
  - apply Forall_forall. intros t Ht. apply list_elem_of_In, in_map_iff in Ht as (e & <- & _).
    exact I.
Qed.

Lemma finished_marks (m : mmap) (name : string) (fs0 : filesystem) (s h : Z)
    (es : list value) (st : system) :
  system_inv m name fs0 s h es st ->
  Forall finished (threads st) ->
  forall e, In e es ->
    metadata name fs0 = Some (s, h) /\
    forall i, In i (range h) -> marked_at m s (str e) i (snd (shared st)).
Proof.
  intros (Hes & _ & _ & _ & Hall) Hfin e He.
  rewrite <- Hes in He. apply in_map_iff in He as (t & <- & Ht).
  apply list_elem_of_In in Ht.
  rewrite Forall_forall in Hall, Hfin.
  specialize (Hall t Ht). specialize (Hfin t Ht).
  unfold thread_inv, finished in *. rewrite Hfin in Hall. exact Hall.
Qed.

(** Whatever the schedule, once every thread has finished the file system
    is the one that the same additions leave when made one after the other,
    in any order. *)
Lemma finished_adds_sequential (es : list value) (bf : BloomFilter)
    (fs : filesystem) (sched : list nat) (st : system) :
  idle bf ->
  run sched (spawn es (bf, fs)) = Some st ->
  Forall finished (threads st) ->
  forall es', Permutation es' es ->
    fst (add_all es' (bf, fs)) = Returned tt /\
    snd (snd (add_all es' (bf, fs))) = snd (shared st).
Proof.
  intros Hidle Hrun Hfin es' Hperm.
  set (m := bit_array bf). set (name := meta_name bf).
  destruct (metadata name fs) as [[s h] |] eqn:Emd.
  - assert (Hsh : forall s' h', metadata name fs = Some (s', h') -> s' = s /\ h' = h)
      by (intros s' h' E; rewrite Emd in E; injection E as <- <-; auto).
    pose proof (run_inv m name fs s h es Hsh sched _ st
                  (spawn_inv m name s h es bf fs eq_refl eq_refl) Hrun) as Hinv.
    pose proof (finished_marks m name fs s h es st Hinv Hfin) as Hmarks.
    destruct Hinv as (_ & _ & _ & Hev & _).
    destruct (add_all_evolves m name fs s h es Emd) with (l := es') (bf := bf) (fs := fs)
      as (bf' & fs' & Eall & Hev' & _ & Hmarks').
    + intros e i He Hi.
      apply (evolves_storable m (cell_of m s h es) fs (snd (shared st))); [exact Hev |].
      apply marked_storable. apply Hmarks; assumption.
    + intros e He. eapply Permutation_in; eassumption.
    + exact Hidle.
    + reflexivity.
    + reflexivity.
    + apply evolves_refl.
    + rewrite Eall. cbn [fst snd]. split; [reflexivity |].
      apply (fs_determined m s h es fs); try assumption.
      * intros e i He Hi. apply Hmarks'; [| exact Hi].
        eapply Permutation_in; [apply Permutation_sym |]; eassumption.
      * intros e i He Hi. apply Hmarks; assumption.
  - assert (Hsh : forall s' h', metadata name fs = Some (s', h') -> s' = 0 /\ h' = 0)
      by (intros s' h' E; rewrite Emd in E; discriminate E).
    pose proof (run_inv m name fs 0 0 es Hsh sched _ st
                  (spawn_inv m name 0 0 es bf fs eq_refl eq_refl) Hrun) as Hinv.
    pose proof (finished_marks m name fs 0 0 es st Hinv Hfin) as Hmarks.
    assert (es = []) as ->.
    { destruct es as [| e es0]; [reflexivity |].
      destruct (Hmarks e (or_introl eq_refl)) as (E & _). congruence. }
    apply Permutation_sym, Permutation_nil in Hperm. subst es'. cbn [add_all ret fst snd].
    split; [reflexivity |].
    destruct Hinv as (_ & _ & _ & Hev & _).
    apply (fs_determined m 0 0 [] fs); [apply evolves_refl | exact Hev | |];
      intros e i [].
Qed.

(** * Mutual exclusion *)

Lemma count_insert (f : thread -> bool) (ts : list thread) (k : nat) (t t' : thread) :
  ts !! k = Some t ->
  count f (<[k := t']> ts)
  = count f ts - (if f t then 1 else 0) + (if f t' then 1 else 0).
Proof.
  revert k. induction ts as [| a ts IH]; intros k Hk; [discriminate Hk |].
  destruct k as [| k].
  - injection Hk as ->. change (<[0%nat := t']> (t :: ts)) with (t' :: ts).
    cbn [count]. lia.
  - change (<[S k := t']> (a :: ts)) with (a :: <[k := t']> ts).
    cbn [count]. rewrite (IH k Hk). lia.
Qed.

Lemma count_spawn (f : thread -> bool) (es : list value) (w : world) :
  f {| elem := Int 0; point := AtServiceAcquire |} = false ->
  (forall e e', f {| elem := e; point := AtServiceAcquire |}
                = f {| elem := e'; point := AtServiceAcquire |}) ->
  count f (threads (spawn es w)) = 0.
Proof.
  intros H0 Hsame. unfold spawn. cbn [threads].
  induction es as [| e es IH]; [reflexivity |].
  cbn [map count]. rewrite (Hsame e (Int 0)), H0, IH. reflexivity.
Qed.

Lemma thread_step_locks (t t' : thread) (w w' : world) :
  thread_step t w = Some (t', w') ->
  0 <= resource (fst w) -> 0 <= serviceQueue (fst w) ->
  resource (fst w')
    = resource (fst w) + (if holds_resource t then 1 else 0)
                       - (if holds_resource t' then 1 else 0) /\
  serviceQueue (fst w')
    = serviceQueue (fst w) + (if holds_service t then 1 else 0)
                           - (if holds_service t' then 1 else 0) /\
  0 <= resource (fst w') /\ 0 <= serviceQueue (fst w').
Proof.
  intros Hstep Hr Hs. destruct w as [bf fs], t as [e p].
  unfold thread_step in Hstep. cbn [point elem fst snd] in *.
  destruct p as [| | | | | idx | x rest | | | |]; try discriminate Hstep.
  - unfold acquire in Hstep. cbn [fst snd sem_value] in Hstep.
    destruct (0 <? serviceQueue bf) eqn:E; [| discriminate Hstep].
    injection Hstep as <- <-. cbn. lia.
  - unfold acquire in Hstep. cbn [fst snd sem_value] in Hstep.
    destruct (0 <? resource bf) eqn:E; [| discriminate Hstep].
    injection Hstep as <- <-. cbn. lia.
  - injection Hstep as <- <-. cbn. lia.
  - unfold load_metadata in Hstep. cbn [fst snd] in Hstep.
    destruct (dir fs !! meta_name bf) as [i |];
      [destruct (inodes fs !! i) as [[[| ? ?] | ? ?] |] |];
      cbn [after] in Hstep; injection Hstep as <- <-; cbn; lia.
  - injection Hstep as <- <-. cbn. lia.
  - destruct idx as [| i rest]; [injection Hstep as <- <-; cbn; lia |].
    destruct (compute_hash bf (str e) i); try discriminate Hstep;
      injection Hstep as <- <-; cbn; lia.
  - unfold bit_set in Hstep. cbn [fst snd] in Hstep.
    destruct (mmap_set (bit_array bf) x 1 fs) as [[[] | ex |] fs1];
      cbn [after] in Hstep; try discriminate Hstep; injection Hstep as <- <-; cbn; lia.
  - injection Hstep as <- <-. cbn. lia.
  - injection Hstep as <- <-. cbn. lia.
Qed.

Lemma sys_step_locks (k : nat) (st st' : system) :
  locks_inv st -> sys_step k st = Some st' -> locks_inv st'.
Proof.
  intros (Hres & Hsvc & Hr & Hs) Hstep. unfold sys_step in Hstep.
  destruct (threads st !! k) as [t |] eqn:Ek; [| discriminate Hstep].
  destruct (thread_step t (shared st)) as [[t' w'] |] eqn:Et; [| discriminate Hstep].
  injection Hstep as <-.
  destruct (thread_step_locks t t' (shared st) w' Et Hr Hs) as (Er & Es & Hr' & Hs').
  unfold locks_inv. cbn [threads shared].
  rewrite !(count_insert _ _ k t t' Ek). repeat split; lia.
Qed.

Lemma run_locks (sched : list nat) :
  forall st st', locks_inv st -> run sched st = Some st' -> locks_inv st'.
Proof.
  induction sched as [| k rest IH]; intros st st' Hinv Hrun; cbn [run] in Hrun.
  - injection Hrun as <-. exact Hinv.
  - destruct (sys_step k st) as [st1 |] eqn:E; [| discriminate Hrun].
    eapply IH; [| exact Hrun]. eapply sys_step_locks; eassumption.
Qed.

(** At any moment at most one thread is past [resource.acquire()] and at
    most one is between the two operations on [serviceQueue]. *)
Lemma one_writer_at_a_time (es : list value) (bf : BloomFilter) (fs : filesystem)
    (sched : list nat) (st : system) :
  idle bf ->
  run sched (spawn es (bf, fs)) = Some st ->
  count holds_resource (threads st) <= 1 /\ count holds_service (threads st) <= 1.
Proof.
  intros (_ & Hres & _ & Hsvc) Hrun.
  assert (Hinit : locks_inv (spawn es (bf, fs))).
  { unfold locks_inv. rewrite !count_spawn by reflexivity.
    cbn [spawn shared fst]. lia. }
  destruct (run_locks sched _ st Hinit Hrun) as (Er & Es & Hr & Hs). lia.
Qed.

(** C9. Writers exclude one another and lose nothing. Whatever the schedule
    of the threads adding [es] to an idle object, at most one of them is
    past [resource.acquire()] at any moment; and once all of them have
    finished, the file system, hence the bit array, is the one that the
    same additions leave when made one after the other, in any order, these
    sequential additions all returning. *)
Theorem concurrent_adds_are_sequential (es : list value) (bf : BloomFilter)
    (fs : filesystem) (sched : list nat) (st : system) :
  idle bf ->
  run sched (spawn es (bf, fs)) = Some st ->
  count holds_resource (threads st) <= 1 /\
  (Forall finished (threads st) ->
   forall es', Permutation es' es ->
     fst (add_all es' (bf, fs)) = Returned tt /\
     snd (snd (add_all es' (bf, fs))) = snd (shared st)).
Proof.
  intros Hidle Hrun. split.
  - apply (one_writer_at_a_time es bf fs sched st Hidle Hrun).
  - apply (finished_adds_sequential es bf fs sched st Hidle Hrun).
Qed.

(** * The demo filter, as instances of the theorems *)

Lemma demo_created : create 479 3 demo_path empty_fs = (Returned demo_bf, demo_fs).
Proof. vm_compute. reflexivity. Qed.

Lemma demo_init : __init__ 100 (1 / 10) demo_path empty_fs = (Returned demo_bf, demo_fs).
Proof. rewrite init_demo_is_create. apply demo_created. Qed.

Lemma demo_idle : idle demo_bf.
Proof. repeat split. Qed.

Lemma empty_fs_wf : wf_fs empty_fs.
Proof. intros p i H. cbn in H. rewrite lookup_empty in H. discriminate H. Qed.

Lemma no_false_negatives_witness :
  idle demo_bf /\
  fst (add_elem (Str "abc") (demo_bf, demo_fs)) = Returned tt /\
  fst (check_member (Str "abc") (snd (add_elem (Str "abc") (demo_bf, demo_fs))))
    = Returned true.
Proof.
  assert (H : fst (add_elem (Str "abc") (demo_bf, demo_fs)) = Returned tt)
    by (vm_compute; reflexivity).
  split; [exact demo_idle |]. split; [exact H |].
  exact (proj2 (no_false_negatives (Str "abc") demo_bf demo_fs demo_idle H)).
Defined.

Lemma compute_hash_position_witness :
  0 < size demo_bf /\
  exists v, compute_hash demo_bf "abc" 0 = Returned v /\ 0 <= v < size demo_bf.
Proof.
  assert (H : 0 < size demo_bf) by reflexivity.
  split; [exact H |].
  destruct (compute_hash_position demo_bf "abc" 0 H) as (v & Hv & _ & Hr & _).
  exists v. split; [exact Hv | exact Hr].
Defined.

Lemma int_one_is_text_one_witness :
  idle demo_bf /\
  fst (add_elem (Int 1) (demo_bf, demo_fs)) = Returned tt /\
  fst (check_member (Str "1") (snd (add_elem (Int 1) (demo_bf, demo_fs)))) = Returned true.
Proof.
  assert (H : fst (add_elem (Int 1) (demo_bf, demo_fs)) = Returned tt)
    by (vm_compute; reflexivity).
  split; [exact demo_idle |]. split; [exact H |].
  exact (proj2 (proj2 int_one_is_text_one) demo_bf demo_fs demo_idle H).
Defined.

Lemma reopen_erases_witness :
  wf_fs empty_fs /\
  __init__ 100 (1 / 10) demo_path empty_fs = (Returned demo_bf, demo_fs) /\
  0 < hash_count demo_bf /\
  exists bf' fs3,
    __init__ 100 (1 / 10) demo_path (snd (snd (add_elem (Str "x") (demo_bf, demo_fs))))
      = (Returned bf', fs3) /\
    fst (check_member (Str "x") (bf', fs3)) = Returned false.
Proof.
  assert (H : 0 < hash_count demo_bf) by reflexivity.
  split; [exact empty_fs_wf |]. split; [exact demo_init |]. split; [exact H |].
  destruct (reopen_erases 100 (1 / 10) demo_path empty_fs demo_fs demo_bf (Str "x")
              empty_fs_wf demo_init H)
    as (_ & _ & _ & bf' & fs3 & Hinit & _ & _ & Hcheck).
  exists bf', fs3. split; [exact Hinit | exact Hcheck].
Defined.

Lemma call_after_delete_raises_witness :
  idle demo_bf /\
  fst (delete (demo_bf, demo_fs)) = Returned tt /\
  fst (add_elem (Int 1) (snd (delete (demo_bf, demo_fs)))) = Raised FileNotFoundError /\
  fst (check_member (Int 1) (snd (delete (demo_bf, demo_fs)))) = Raised FileNotFoundError.
Proof.
  assert (H : fst (delete (demo_bf, demo_fs)) = Returned tt) by (vm_compute; reflexivity).
  split; [exact demo_idle |]. split; [exact H |].
  exact (call_after_delete_raises (Int 1) demo_bf demo_fs demo_idle H).
Defined.

Lemma zero_hash_count_witness :
  exists bf fs',
    __init__ 1 (47 / 100) demo_path empty_fs = (Returned bf, fs') /\
    hash_count bf = 0 /\
    fst (check_member (Str "never added") (bf, fs')) = Returned true /\
    snd (snd (add_elem (Str "abc") (bf, fs'))) = fs'.
Proof.
  destruct zero_hash_count as [_ Hgen].
  destruct (create_returns 1 0 demo_path empty_fs ltac:(reflexivity))
    as (m & fs' & E & _).
  rewrite <- init_tiny_is_create in E.
  eexists _, fs'. split; [exact E |]. split; [reflexivity |].
  destruct (Hgen 1 (47 / 100)%R demo_path empty_fs _ fs' (Str "never added") E eq_refl)
    as (Hcheck & _).
  destruct (Hgen 1 (47 / 100)%R demo_path empty_fs _ fs' (Str "abc") E eq_refl)
    as (_ & _ & Hsame & _).
  split; [exact Hcheck | exact Hsame].
Defined.

Lemma concurrent_adds_witness :
  idle demo_bf /\
  exists st,
    run demo_schedule (spawn [Int 1; Str "abc"] (demo_bf, demo_fs)) = Some st /\
    Forall finished (threads st) /\
    count holds_resource (threads st) <= 1 /\
    fst (add_all [Str "abc"; Int 1] (demo_bf, demo_fs)) = Returned tt /\
    snd (snd (add_all [Str "abc"; Int 1] (demo_bf, demo_fs))) = snd (shared st).
Proof.
  split; [exact demo_idle |].
  destruct (run demo_schedule (spawn [Int 1; Str "abc"] (demo_bf, demo_fs)))
    as [st |] eqn:E; [| vm_compute in E; discriminate E].
  exists st. split; [reflexivity |].
  destruct (concurrent_adds_are_sequential [Int 1; Str "abc"] demo_bf demo_fs
              demo_schedule st demo_idle E) as (Hone & Hseq).
  assert (Hfin : Forall finished (threads st)).
  { vm_compute in E. injection E as <-. repeat constructor. }
  split; [exact Hfin |]. split; [exact Hone |].
  apply Hseq; [exact Hfin |]. apply perm_swap.
Defined.

(** * What a call may change *)

Lemma evolves_trans (m : mmap) (cells : nat -> Prop) (fs0 fs1 fs2 : filesystem) :
  evolves m cells fs0 fs1 -> evolves m cells fs1 fs2 -> evolves m cells fs0 fs2.
Proof.
  intros (Hd1 & Hn1 & Hk1 & Hm1) (Hd2 & Hn2 & Hk2 & Hm2).
  unfold evolves. split; [congruence |]. split; [congruence |]. split.
  - intros k Hk. rewrite Hk2, Hk1 by exact Hk. reflexivity.
  - destruct (inodes fs0 !! ino m) as [[bs0 | ? ?] |].
    + destruct Hm1 as (bs1 & Hbs1 & Hlen1 & Hall1). rewrite Hbs1 in Hm2.
      destruct Hm2 as (bs2 & Hbs2 & Hlen2 & Hall2).
      exists bs2. split; [exact Hbs2 |]. split; [congruence |].
      intros j. destruct (Hall2 j) as [E2 | E2]; [| right; exact E2].
      destruct (Hall1 j) as [E1 | [E1 C1]]; [left; congruence | right].
      split; [congruence | exact C1].
    + rewrite Hm1 in Hm2. exact Hm2.
    + rewrite Hm1 in Hm2. exact Hm2.
Qed.

Lemma evolves_weaken (m : mmap) (cells cells' : nat -> Prop) (fs0 fs : filesystem) :
  (forall j, cells j -> cells' j) -> evolves m cells fs0 fs -> evolves m cells' fs0 fs.
Proof.
  intros Hsub (Hd & Hn & Hk & Hm). unfold evolves.
  split; [exact Hd |]. split; [exact Hn |]. split; [exact Hk |].
  destruct (inodes fs0 !! ino m) as [[bs0 | ? ?] |]; try exact Hm.
  destruct Hm as (bs & Hbs & Hlen & Hall). exists bs. split; [exact Hbs |].
  split; [exact Hlen |]. intros j. destruct (Hall j) as [E | [E C]]; auto.
Qed.

Lemma only_sets_refl (w : world) : only_sets w w.
Proof. split; [reflexivity |]. split; [reflexivity |]. apply evolves_refl. Qed.

Lemma only_sets_trans (w1 w2 w3 : world) :
  only_sets w1 w2 -> only_sets w2 w3 -> only_sets w1 w3.
Proof.
  intros (Hb1 & Hf1 & He1) (Hb2 & Hf2 & He2).
  split; [congruence |]. split; [congruence |].
  rewrite Hb1 in He2. eapply evolves_trans; eassumption.
Qed.

Lemma reads_only_sets (w w' : world) : reads_only w w' -> only_sets w w'.
Proof.
  intros (Hb & Hf & Hs). split; [exact Hb |]. split; [exact Hf |].
  rewrite Hs. apply evolves_refl.
Qed.

Lemma reads_only_trans (w1 w2 w3 : world) :
  reads_only w1 w2 -> reads_only w2 w3 -> reads_only w1 w3.
Proof.
  intros (Hb1 & Hf1 & He1) (Hb2 & Hf2 & He2). repeat split; congruence.
Qed.

(** Sequencing keeps any reflexive and transitive bound on the change. *)
Lemma bind_keeps {A B : Type} (R : world -> world -> Prop) (c : M A) (k : A -> M B) :
  (forall w1 w2 w3, R w1 w2 -> R w2 w3 -> R w1 w3) ->
  (forall w, R w (snd (c w))) ->
  (forall a w, R w (snd (k a w))) ->
  forall w, R w (snd (bind c k w)).
Proof.
  intros Htrans Hc Hk w. unfold bind. specialize (Hc w).
  destruct (c w) as [[a | x |] w1]; cbn [snd] in *; [| exact Hc | exact Hc].
  eapply Htrans; [exact Hc | apply Hk].
Qed.

Lemma acquire_reads (sem : semaphore) (w : world) : reads_only w (snd (acquire sem w)).
Proof.
  unfold acquire. destruct (0 <? sem_value sem (fst w)); cbn [snd fst]; repeat split.
Qed.

Lemma release_reads (sem : semaphore) (w : world) : reads_only w (snd (release sem w)).
Proof. repeat split. Qed.

Lemma load_metadata_reads (w : world) : reads_only w (snd (load_metadata w)).
Proof.
  unfold load_metadata.
  destruct (dir (snd w) !! meta_name (fst w)) as [i |]; [| repeat split].
  destruct (inodes (snd w) !! i) as [[[| ? ?] | ? ?] |]; repeat split.
Qed.

Lemma check_loop_reads (el : string) (idx : list Z) (w : world) :
  reads_only w (snd (check_loop el idx w)).
Proof.
  destruct (check_loop el idx w) as [o w'] eqn:E.
  apply check_loop_pure in E. subst w'. repeat split.
Qed.

Lemma bit_set_only_sets (x : Z) (w : world) : only_sets w (snd (bit_set x w)).
Proof.
  unfold bit_set. destruct (mmap_set (bit_array (fst w)) x 1 (snd w)) as [o fs'] eqn:E.
  cbn [snd fst]. split; [reflexivity |]. split; [reflexivity |].
  destruct o as [[] | ex |].
  - eapply evolves_set; [apply evolves_refl | exact E | trivial].
  - apply mmap_set_fail in E as ->; [apply evolves_refl | discriminate].
  - apply mmap_set_fail in E as ->; [apply evolves_refl | discriminate].
Qed.

Lemma add_loop_only_sets (el : string) (idx : list Z) :
  forall w, only_sets w (snd (add_loop el idx w)).
Proof.
  induction idx as [| i rest IH]; intros w; [apply only_sets_refl |].
  cbn [add_loop].
  apply (bind_keeps only_sets); [exact only_sets_trans | intros; apply only_sets_refl |].
  intros self w1.
  apply (bind_keeps only_sets); [exact only_sets_trans | intros; apply only_sets_refl |].
  intros x w2.
  apply (bind_keeps only_sets); [exact only_sets_trans | apply bit_set_only_sets |].
  intros _ w3. apply IH.
Qed.

Lemma add_elem_only_sets (e : value) (w : world) : only_sets w (snd (add_elem e w)).
Proof.
  unfold add_elem.
  repeat (apply (bind_keeps only_sets);
          [exact only_sets_trans
          | intros; first [ apply reads_only_sets, acquire_reads
                          | apply reads_only_sets, release_reads
                          | apply reads_only_sets, load_metadata_reads
                          | apply add_loop_only_sets
                          | apply only_sets_refl
                          | solve [apply reads_only_sets; unfold modify_self, get_self, flush, ret;
                                   repeat split] ]
          | intros ]).
  apply reads_only_sets, release_reads.
Qed.

Lemma reads_only_refl (w : world) : reads_only w w.
Proof. repeat split. Qed.

Lemma check_member_reads_only (e : value) (w : world) :
  reads_only w (snd (check_member e w)).
Proof.
  unfold check_member.
  repeat (apply (bind_keeps reads_only);
          [exact reads_only_trans
          | intros; first [ apply acquire_reads
                          | apply release_reads
                          | apply load_metadata_reads
                          | apply check_loop_reads
                          | apply reads_only_refl
                          | solve [unfold modify_self, get_self; repeat split]
                          | match goal with
                            | |- context [if ?c then _ else _] =>
                                destruct c; first [apply acquire_reads | apply release_reads
                                                  | apply reads_only_refl]
                            end ]
          | intros ]).
  apply reads_only_refl.
Qed.

(** * Adding twice, and the cells an addition touches *)

Lemma evolves_get (m : mmap) (cells : nat -> Prop) (fs fs' : filesystem) (x b : Z) :
  evolves m cells fs fs' ->
  mmap_get m x fs = Returned b ->
  mmap_get m x fs' = Returned b \/
  (mmap_get m x fs' = Returned 1 /\
   exists j, norm_index (map_length m) x = Some j /\ cells j).
Proof.
  intros (_ & _ & _ & Hm) Hget. unfold mmap_get in *.
  destruct (norm_index (map_length m) x) as [j |]; [| discriminate Hget].
  destruct (inodes fs !! ino m) as [[bs | ? ?] |]; try discriminate Hget.
  destruct Hm as (bs' & -> & _ & Hall).
  destruct (bs !! j) as [b0 |] eqn:Eb; [| discriminate Hget]. injection Hget as ->.
  destruct (Hall j) as [E | [E C]]; rewrite E.
  - left. rewrite Eb. reflexivity.
  - right. eauto.
Qed.

Lemma mmap_set_again (m : mmap) (x : Z) (fs : filesystem) :
  mmap_get m x fs = Returned 1 -> mmap_set m x 1 fs = (Returned tt, fs).
Proof.
  unfold mmap_get, mmap_set. intros H.
  destruct (norm_index (map_length m) x) as [j |]; [| discriminate H].
  destruct (inodes fs !! ino m) as [[bs | ? ?] |] eqn:Ei; try discriminate H.
  destruct (bs !! j) as [b |] eqn:Eb; [| discriminate H]. injection H as ->.
  pose proof (lookup_lt_Some _ _ _ Eb) as Hlt. apply Nat.ltb_lt in Hlt. rewrite Hlt.
  rewrite list_insert_id by exact Eb. rewrite insert_id by exact Ei.
  destruct fs. reflexivity.
Qed.

Lemma add_loop_again (el : string) (idx : list Z) (bf : BloomFilter) (fs : filesystem) :
  (forall i, In i idx ->
     exists x, compute_hash bf el i = Returned x /\
               mmap_get (bit_array bf) x fs = Returned 1) ->
  add_loop el idx (bf, fs) = (Returned tt, (bf, fs)).
Proof.
  induction idx as [| i rest IH]; intros Hall; [reflexivity |].
  cbn [add_loop]. unfold bind, get_self, lift, bit_set. cbn [fst snd].
  destruct (Hall i (or_introl eq_refl)) as (x & -> & Hget).
  rewrite mmap_set_again by exact Hget.
  apply IH. intros k Hk. apply Hall. right. exact Hk.
Qed.

(** X1. Adding an element a second time changes nothing: on an idle object,
    once [add_elem e] has returned, calling it again returns and leaves the
    object and the file system exactly as they were. *)
Theorem add_elem_idempotent (e : value) (bf : BloomFilter) (fs : filesystem) :
  idle bf ->
  fst (add_elem e (bf, fs)) = Returned tt ->
  add_elem e (snd (add_elem e (bf, fs))) = (Returned tt, snd (add_elem e (bf, fs))).
Proof.
  intros Hidle Hret.
  destruct (add_elem_needs_metadata e bf fs Hidle Hret) as (i & s & h & Hd & Hi).
  rewrite (add_elem_run e bf fs i s h Hidle Hd Hi) in Hret |- *.
  destruct (add_loop (str e) (range h) (writing (set_params s h bf), fs))
    as [[[] | x |] [bf1 fs1]] eqn:El; try discriminate Hret.
  apply add_loop_sets in El as (-> & Hdir & Hpick & _ & Hall).
  cbn [snd].
  assert (Hidle' : idle (set_params s h bf)) by exact Hidle.
  rewrite (add_elem_run e (set_params s h bf) fs1 i s h Hidle').
  - rewrite add_loop_again; [reflexivity |].
    intros k Hk. destruct (Hall k Hk) as (x & Hx & Hget). exists x. split.
    + rewrite <- Hx. apply compute_hash_size. reflexivity.
    + exact Hget.
  - rewrite Hdir. exact Hd.
  - apply Hpick, Hi.
Qed.

(** X2. [add_elem] never clears a cell and never touches another file,
    whatever the state it is called in and whatever its outcome: the object
    keeps its mapping and file name, the directory and every inode but the
    mapped one are unchanged, and a cell that could be read before reads
    the same value or 1 afterwards. *)
Theorem add_elem_never_clears (e : value) (w : world) :
  bit_array (fst (snd (add_elem e w))) = bit_array (fst w) /\
  filename (fst (snd (add_elem e w))) = filename (fst w) /\
  dir (snd (snd (add_elem e w))) = dir (snd w) /\
  (forall k, k <> ino (bit_array (fst w)) ->
     inodes (snd (snd (add_elem e w))) !! k = inodes (snd w) !! k) /\
  (forall x b,
     mmap_get (bit_array (fst w)) x (snd w) = Returned b ->
     mmap_get (bit_array (fst w)) x (snd (snd (add_elem e w))) = Returned b \/
     mmap_get (bit_array (fst w)) x (snd (snd (add_elem e w))) = Returned 1).
Proof.
  destruct (add_elem_only_sets e w) as (Hb & Hf & Hev).
  split; [exact Hb |]. split; [exact Hf |].
  pose proof Hev as (Hd & _ & Hk & _).
  split; [exact Hd |]. split; [exact Hk |].
  intros x b Hget. destruct (evolves_get _ _ _ _ x b Hev Hget) as [H | [H _]]; auto.
Qed.

(** X3. [check_member] writes nothing: in any state and whatever its
    outcome, the file system after the call is the file system before it,
    and the object keeps its mapping and file name. *)
Theorem check_member_writes_nothing (e : value) (w : world) :
  snd (snd (check_member e w)) = snd w /\
  bit_array (fst (snd (check_member e w))) = bit_array (fst w) /\
  filename (fst (snd (check_member e w))) = filename (fst w).
Proof. destruct (check_member_reads_only e w) as (Hb & Hf & Hs). auto. Qed.

(** The cells of one run of the loop. *)
Lemma add_loop_cells (m : mmap) (el : string) (bf : BloomFilter) (idx : list Z) :
  bit_array bf = m ->
  forall fs,
    evolves m
      (fun j => exists i, In i idx /\
                          norm_index (map_length m) (position (size bf) el i) = Some j)
      fs (snd (snd (add_loop el idx (bf, fs)))).
Proof.
  intros Hm. induction idx as [| i rest IH]; intros fs; [apply evolves_refl |].
  cbn [add_loop]. unfold bind, get_self, lift, bit_set. cbn [fst snd].
  destruct (compute_hash bf el i) as [x | ex |] eqn:Ex; cbn [snd]; try apply evolves_refl.
  apply compute_hash_returned in Ex as (Hs & ->).
  destruct (mmap_set (bit_array bf) (position (size bf) el i) 1 fs) as [o fs1] eqn:Es.
  rewrite Hm in Es.
  destruct o as [[] | ex |]; cbn [snd].
  - eapply evolves_trans.
    + eapply evolves_set; [apply evolves_refl | exact Es |].
      intros j Hj. exists i. split; [left; reflexivity | exact Hj].
    + eapply evolves_weaken; [| apply IH].
      intros j (k & Hk & Hj). exists k. split; [right; exact Hk | exact Hj].
  - apply mmap_set_fail in Es as ->; [apply evolves_refl | discriminate].
  - apply mmap_set_fail in Es as ->; [apply evolves_refl | discriminate].
Qed.

(** X4. An addition touches the cells of its element only: on an idle
    object whose metadata file holds [(s, h)], every cell that is not one of
    the [h] positions of [e] modulo [s] reads after [add_elem e] what it read
    before, whether the call returns or raises. *)
Theorem add_elem_touches_its_cells (e : value) (bf : BloomFilter) (fs : filesystem)
    (s h x b : Z) :
  idle bf ->
  metadata (meta_name bf) fs = Some (s, h) ->
  (forall i, In i (range h) ->
     norm_index (map_length (bit_array bf)) (position s (str e) i)
     <> norm_index (map_length (bit_array bf)) x) ->
  mmap_get (bit_array bf) x fs = Returned b ->
  mmap_get (bit_array bf) x (snd (snd (add_elem e (bf, fs)))) = Returned b.
Proof.
  intros Hidle Hmd Hother Hget.
  apply metadata_inv in Hmd as (i0 & Hd & Hi).
  rewrite (add_elem_run e bf fs i0 s h Hidle Hd Hi).
  pose proof (add_loop_cells (bit_array bf) (str e) (writing (set_params s h bf))
                (range h) eq_refl fs) as Hev.
  destruct (add_loop (str e) (range h) (writing (set_params s h bf), fs))
    as [[[] | ex |] [bf1 fs1]]; cbn [fst snd] in *;
    (destruct (evolves_get _ _ _ _ x b Hev Hget) as [H | (_ & j & Hj & k & Hk & Hp)];
     [exact H | exfalso; apply (Hother k Hk); cbn [size writing set_sem set_params] in Hp;
                congruence]).
Qed.

(** * The semaphores after a call *)

Lemma load_metadata_cases (bf : BloomFilter) (fs : filesystem) :
  (exists s h, metadata (meta_name bf) fs = Some (s, h) /\
               load_metadata (bf, fs) = (Returned tt, (set_params s h bf, fs))) \/
  (exists x, metadata (meta_name bf) fs = None /\
             load_metadata (bf, fs) = (Raised x, (bf, fs))).
Proof.
  unfold metadata, read_file, load_metadata. cbn [fst snd].
  destruct (dir fs !! meta_name bf) as [i |]; [| right; eauto].
  destruct (inodes fs !! i) as [[[| ? ?] | s h] |]; [right | right | left | right]; eauto.
Qed.

Lemma add_elem_no_metadata (e : value) (bf : BloomFilter) (fs : filesystem) :
  idle bf ->
  metadata (meta_name bf) fs = None ->
  exists x, add_elem e (bf, fs) = (Raised x, (writing bf, fs)).
Proof.
  intros (Hrc & Hrs & Hrm & Hsq) Hmd.
  destruct (load_metadata_cases (writing bf) fs) as [(s & h & E & _) | (x & _ & E)].
  { change (meta_name (writing bf)) with (meta_name bf) in E. congruence. }
  exists x. revert E.
  destruct bf as [sz hc fn rc rs rm sq ba]. cbn in Hrc, Hrs, Hrm, Hsq. subst.
  unfold add_elem, bind, acquire, release, modify_self, get_self, flush, ret, writing.
  cbv -[load_metadata add_loop str range meta_name].
  intros E. rewrite E. reflexivity.
Qed.

Lemma check_member_no_metadata (e : value) (bf : BloomFilter) (fs : filesystem) :
  idle bf ->
  metadata (meta_name bf) fs = None ->
  exists x, check_member e (bf, fs) = (Raised x, (reading bf, fs)).
Proof.
  intros (Hrc & Hrs & Hrm & Hsq) Hmd.
  destruct (load_metadata_cases (reading bf) fs) as [(s & h & E & _) | (x & _ & E)].
  { change (meta_name (reading bf)) with (meta_name bf) in E. congruence. }
  exists x. revert E.
  destruct bf as [sz hc fn rc rs rm sq ba]. cbn in Hrc, Hrs, Hrm, Hsq. subst.
  unfold check_member, bind, acquire, release, modify_self, get_self, ret, reading.
  cbv -[load_metadata check_loop str range meta_name].
  intros E. rewrite E. reflexivity.
Qed.

Lemma metadata_pickle (name : string) (fs : filesystem) (i : nat) (s h : Z) :
  dir fs !! name = Some i -> inodes fs !! i = Some (Pickle s h) ->
  metadata name fs = Some (s, h).
Proof. intros Hd Hi. unfold metadata, read_file. rewrite Hd, Hi. reflexivity. Qed.

Lemma mmap_set_not_blocked (m : mmap) (x b : Z) (fs : filesystem) :
  fst (mmap_set m x b fs) <> Blocked.
Proof.
  unfold mmap_set. destruct (norm_index (map_length m) x) as [j |]; [| discriminate].
  destruct (inodes fs !! ino m) as [[bs | ? ?] |]; try discriminate.
  destruct (j <? length bs)%nat; discriminate.
Qed.

Lemma mmap_get_not_blocked (m : mmap) (x : Z) (fs : filesystem) :
  mmap_get m x fs <> Blocked.
Proof.
  unfold mmap_get. destruct (norm_index (map_length m) x) as [j |]; [| discriminate].
  destruct (inodes fs !! ino m) as [[bs | ? ?] |]; try discriminate.
  destruct (bs !! j); discriminate.
Qed.

Lemma compute_hash_not_blocked (self : BloomFilter) (el : string) (i : Z) :
  compute_hash self el i <> Blocked.
Proof.
  unfold compute_hash. destruct (sha256_int _); [| discriminate].
  destruct (size self =? 0); discriminate.
Qed.

Lemma add_loop_not_blocked (el : string) (idx : list Z) :
  forall w, fst (add_loop el idx w) <> Blocked.
Proof.
  induction idx as [| k rest IH]; intros w; [discriminate |].
  cbn [add_loop]. unfold bind, get_self, lift, bit_set.
  pose proof (compute_hash_not_blocked (fst w) el k) as Hc.
  destruct (compute_hash (fst w) el k) as [x | |]; cbn [fst snd]; try discriminate;
    [| contradiction].
  pose proof (mmap_set_not_blocked (bit_array (fst w)) x 1 (snd w)) as Hs.
  destruct (mmap_set (bit_array (fst w)) x 1 (snd w)) as [[[] | |] fs1];
    cbn [fst] in *; try discriminate; [apply IH | contradiction].
Qed.

(** X5. On an idle object [add_elem] never blocks. Either it returns and
    the object is idle again, or it raises and leaves [resource] taken,
    every other semaphore free: no path of the method releases it after an
    exception. *)
Theorem add_elem_returns_or_leaks (e : value) (bf : BloomFilter) (fs : filesystem) :
  idle bf ->
  (fst (add_elem e (bf, fs)) = Returned tt /\
   idle (fst (snd (add_elem e (bf, fs))))) \/
  (exists x, fst (add_elem e (bf, fs)) = Raised x /\
             writer_inside (fst (snd (add_elem e (bf, fs))))).
Proof.
  intros Hidle.
  destruct (metadata (meta_name bf) fs) as [[s h] |] eqn:Emd.
  - apply metadata_inv in Emd as (i & Hd & Hi).
    rewrite (add_elem_run e bf fs i s h Hidle Hd Hi).
    destruct (add_loop (str e) (range h) (writing (set_params s h bf), fs))
      as [[[] | x |] [bf1 fs1]] eqn:El.
    + left. split; [reflexivity | exact Hidle].
    + right. exists x. split; [reflexivity |].
      apply add_loop_self in El. cbn [fst snd] in *. subst bf1.
      destruct Hidle as (Hrc & Hrs & Hrm & Hsq). repeat split; assumption.
    + exfalso. apply (add_loop_not_blocked (str e) (range h)
                        (writing (set_params s h bf), fs)).
      rewrite El. reflexivity.
  - right. destruct (add_elem_no_metadata e bf fs Hidle Emd) as (x & ->).
    exists x. split; [reflexivity |].
    destruct Hidle as (Hrc & Hrs & Hrm & Hsq). repeat split; assumption.
Qed.

Lemma check_loop_not_blocked (el : string) (idx : list Z) :
  forall w, fst (check_loop el idx w) <> Blocked.
Proof.
  induction idx as [| k rest IH]; intros w; [discriminate |].
  cbn [check_loop]. unfold bind, get_self, lift, bit_get.
  pose proof (compute_hash_not_blocked (fst w) el k) as Hc.
  destruct (compute_hash (fst w) el k) as [x | |]; cbn [fst snd]; try discriminate;
    [| contradiction].
  pose proof (mmap_get_not_blocked (bit_array (fst w)) x (snd w)) as Hg.
  destruct (mmap_get (bit_array (fst w)) x (snd w)) as [b | |];
    cbn [fst] in *; try discriminate; [| contradiction].
  destruct (b =? 1); [apply IH | discriminate].
Qed.

(** X6. On an idle object [check_member] never blocks. Either it returns
    and the object is idle again, or it raises and leaves the reader counted
    ([readcount = 1]) and [resource] taken. *)
Theorem check_member_returns_or_leaks (e : value) (bf : BloomFilter) (fs : filesystem) :
  idle bf ->
  (exists r, fst (check_member e (bf, fs)) = Returned r /\
             idle (fst (snd (check_member e (bf, fs))))) \/
  (exists x, fst (check_member e (bf, fs)) = Raised x /\
             reader_inside (fst (snd (check_member e (bf, fs))))).
Proof.
  intros Hidle.
  destruct (metadata (meta_name bf) fs) as [[s h] |] eqn:Emd.
  - apply metadata_inv in Emd as (i & Hd & Hi).
    rewrite (check_member_run e bf fs i s h Hidle Hd Hi).
    destruct (check_loop (str e) (range h) (reading (set_params s h bf), fs))
      as [[r | x |] w1] eqn:El.
    + left. exists r. split; [reflexivity | exact Hidle].
    + right. exists x. split; [reflexivity |].
      apply check_loop_pure in El. subst w1. cbn [fst snd].
      destruct Hidle as (Hrc & Hrs & Hrm & Hsq). repeat split; assumption.
    + exfalso. apply (check_loop_not_blocked (str e) (range h)
                        (reading (set_params s h bf), fs)).
      rewrite El. reflexivity.
  - right. destruct (check_member_no_metadata e bf fs Hidle Emd) as (x & ->).
    exists x. split; [reflexivity |].
    destruct Hidle as (Hrc & Hrs & Hrm & Hsq). repeat split; assumption.
Qed.

(** X7. After a call has raised, writers are locked out for good: with
    [resource] left taken by a writer or by a reader, [add_elem] blocks
    whatever the element and the file system; and after a writer raised,
    [check_member] blocks as well. *)
Theorem add_blocks_after_raise (e : value) (bf : BloomFilter) (fs : filesystem) :
  (writer_inside bf \/ reader_inside bf -> fst (add_elem e (bf, fs)) = Blocked) /\
  (writer_inside bf -> fst (check_member e (bf, fs)) = Blocked).
Proof.
  split.
  - intros [(Hrc & Hrs & Hrm & Hsq) | (Hrc & Hrs & Hrm & Hsq)];
      destruct bf as [sz hc fn rc rs rm sq ba]; cbn in Hrc, Hrs, Hrm, Hsq; subst;
      reflexivity.
  - intros (Hrc & Hrs & Hrm & Hsq).
    destruct bf as [sz hc fn rc rs rm sq ba]. cbn in Hrc, Hrs, Hrm, Hsq. subst.
    reflexivity.
Qed.

(** * The answer of the reader *)

Lemma check_loop_returned (el : string) (idx : list Z) (bf : BloomFilter)
    (fs : filesystem) :
  forall r w,
    check_loop el idx (bf, fs) = (Returned r, w) ->
    (idx <> [] -> size bf <> 0) /\
    (r = true <->
     forall i, In i idx ->
       mmap_get (bit_array bf) (position (size bf) el i) fs = Returned 1).
Proof.
  induction idx as [| i rest IH]; intros r w H.
  - injection H as <- _. split; [congruence |]. split; [intros _ k [] | reflexivity].
  - cbn [check_loop] in H. unfold bind, get_self, lift, bit_get in H. cbn [fst snd] in H.
    destruct (compute_hash bf el i) as [x | |] eqn:Ex; try discriminate H.
    apply compute_hash_returned in Ex as (Hs & ->).
    split; [intros _; exact Hs |].
    destruct (mmap_get (bit_array bf) (position (size bf) el i) fs) as [b | |] eqn:Eg;
      try discriminate H.
    destruct (b =? 1) eqn:Eb.
    + apply Z.eqb_eq in Eb. subst b. apply IH in H as (_ & Hiff). rewrite Hiff. split.
      * intros Hall k [<- | Hk]; [exact Eg | apply Hall, Hk].
      * intros Hall k Hk. apply Hall. right. exact Hk.
    + injection H as <- _. apply Z.eqb_neq in Eb. split; [discriminate |].
      intros Hall. specialize (Hall i (or_introl eq_refl)). congruence.
Qed.

(** X8. What the answer means: on an idle object, when [check_member e]
    returns, the metadata file holds some [(s, h)] and the answer is [True]
    exactly when each of the [h] cells at the positions of [e] modulo [s]
    reads 1, whoever stored them. *)
Theorem check_member_true_iff (e : value) (bf : BloomFilter) (fs : filesystem) (r : bool) :
  idle bf ->
  fst (check_member e (bf, fs)) = Returned r ->
  exists s h,
    metadata (meta_name bf) fs = Some (s, h) /\
    (r = true <->
     forall i, In i (range h) ->
       mmap_get (bit_array bf) (position s (str e) i) fs = Returned 1).
Proof.
  intros Hidle Hret.
  destruct (metadata (meta_name bf) fs) as [[s h] |] eqn:Emd.
  2: { destruct (check_member_no_metadata e bf fs Hidle Emd) as (x & E).
       rewrite E in Hret. discriminate Hret. }
  exists s, h. split; [reflexivity |].
  apply metadata_inv in Emd as (i0 & Hd & Hi).
  rewrite (check_member_run e bf fs i0 s h Hidle Hd Hi) in Hret.
  destruct (check_loop (str e) (range h) (reading (set_params s h bf), fs))
    as [[r' | x |] w1] eqn:El; try discriminate Hret.
  injection Hret as ->.
  apply check_loop_returned in El as (_ & Hiff). exact Hiff.
Qed.

(** * Sequences of additions *)

Lemma evolves_marked (m : mmap) (cells : nat -> Prop) (fs fs' : filesystem)
    (s : Z) (el : string) (i : Z) :
  evolves m cells fs fs' -> marked_at m s el i fs -> marked_at m s el i fs'.
Proof.
  intros Hev (Hs & Hget). split; [exact Hs |].
  destruct (evolves_get m cells fs fs' _ 1 Hev Hget) as [H | [H _]]; exact H.
Qed.

Lemma add_all_returned (m : mmap) (name : string) (l : list value) :
  forall bf fs bf' fs',
    idle bf -> bit_array bf = m -> meta_name bf = name ->
    add_all l (bf, fs) = (Returned tt, (bf', fs')) ->
    (l = [] /\ bf' = bf /\ fs' = fs) \/
    (exists s h,
       metadata name fs = Some (s, h) /\
       bf' = set_params s h bf /\
       evolves m (cell_of m s h l) fs fs' /\
       forall e i, In e l -> In i (range h) -> marked_at m s (str e) i fs').
Proof.
  induction l as [| e l IH]; intros bf fs bf' fs' Hidle Hm Hname Hall.
  - left. injection Hall as <- <-. auto.
  - right. cbn [add_all] in Hall. unfold bind at 1 in Hall.
    destruct (add_elem e (bf, fs)) as [[[] | x |] [bf1 fs1]] eqn:Eadd; try discriminate Hall.
    assert (Hret : fst (add_elem e (bf, fs)) = Returned tt) by (rewrite Eadd; reflexivity).
    destruct (add_elem_needs_metadata e bf fs Hidle Hret) as (i0 & s & h & Hd & Hi).
    rewrite (add_elem_run e bf fs i0 s h Hidle Hd Hi) in Eadd.
    pose proof (add_loop_cells m (str e) (writing (set_params s h bf)) (range h) Hm fs)
      as Hcells.
    destruct (add_loop (str e) (range h) (writing (set_params s h bf), fs))
      as [[[] | x |] [bf2 fs2]] eqn:El; try discriminate Eadd.
    injection Eadd as <- <-. cbn [fst snd size writing set_sem set_params] in Hcells.
    apply add_loop_sets in El as (_ & _ & _ & _ & Hmarks).
    change (bit_array (writing (set_params s h bf))) with (bit_array bf) in Hmarks.
    rewrite Hm in Hmarks.
    assert (Hmd : metadata name fs = Some (s, h)).
    { rewrite <- Hname. eapply metadata_pickle; eassumption. }
    assert (Hev1 : evolves m (cell_of m s h (e :: l)) fs fs2).
    { eapply evolves_weaken; [| exact Hcells].
      intros j (k & Hk & Hj). exists e, k. repeat split; auto. left. reflexivity. }
    assert (Hmark1 : forall i, In i (range h) -> marked_at m s (str e) i fs2).
    { intros i Hin. destruct (Hmarks i Hin) as (x & Hx & Hget).
      apply compute_hash_returned in Hx as (Hs & ->).
      cbn [size writing set_sem set_params] in Hs, Hget. split; assumption. }
    exists s, h. split; [exact Hmd |].
    destruct (IH (set_params s h bf) fs2 bf' fs' Hidle Hm Hname Hall)
      as [(-> & -> & ->) | (s' & h' & Hmd' & -> & Hev2 & Hmark2)].
    + split; [reflexivity |]. split; [exact Hev1 |].
      intros e' i [<- | []] Hin. apply Hmark1, Hin.
    + rewrite (evolves_metadata m _ fs fs2 name Hev1), Hmd in Hmd'.
      injection Hmd' as <- <-.
      split; [reflexivity |]. split.
      * eapply evolves_trans; [exact Hev1 |].
        eapply evolves_weaken; [| exact Hev2].
        intros j (e' & k & He' & Hk & Hj). exists e', k. repeat split; auto.
        right. exact He'.
      * intros e' i [<- | He'] Hin; [| apply Hmark2; assumption].
        eapply evolves_marked; [exact Hev2 | apply Hmark1, Hin].
Qed.

(** X9. Membership lasts: on an idle object, after any sequence of
    additions that all returned, [check_member] returns [True] for every
    element of the sequence, however many others were added after it. *)
Theorem added_elements_stay (l : list value) (bf : BloomFilter) (fs : filesystem)
    (e : value) :
  idle bf ->
  fst (add_all l (bf, fs)) = Returned tt ->
  In e l ->
  fst (check_member e (snd (add_all l (bf, fs)))) = Returned true.
Proof.
  intros Hidle Hret He.
  destruct (add_all l (bf, fs)) as [o [bf' fs']] eqn:Eall. cbn [fst snd] in *. subst o.
  destruct (add_all_returned (bit_array bf) (meta_name bf) l bf fs bf' fs'
              Hidle eq_refl eq_refl Eall)
    as [(-> & _) | (s & h & Hmd & -> & Hev & Hmarks)]; [destruct He |].
  rewrite <- (evolves_metadata _ _ fs fs' _ Hev) in Hmd.
  apply metadata_inv in Hmd as (i0 & Hd & Hi).
  assert (Hidle' : idle (set_params s h bf)) by exact Hidle.
  rewrite (check_member_run e (set_params s h bf) fs' i0 s h Hidle' Hd Hi).
  rewrite check_loop_hits; [reflexivity |].
  intros i Hin. destruct (Hmarks e i He Hin) as (Hs & Hget).
  exists (position s (str e) i). split; [| exact Hget].
  apply compute_hash_at_position. exact Hs.
Qed.

(** X10. The order of additions does not matter: on an idle object, if a
    sequence of additions returns, so does any permutation of it, and both
    leave the same file system. *)
Theorem additions_commute (l l' : list value) (bf : BloomFilter) (fs : filesystem) :
  idle bf ->
  Permutation l l' ->
  fst (add_all l (bf, fs)) = Returned tt ->
  fst (add_all l' (bf, fs)) = Returned tt /\
  snd (snd (add_all l' (bf, fs))) = snd (snd (add_all l (bf, fs))).
Proof.
  intros Hidle Hperm Hret.
  destruct (add_all l (bf, fs)) as [o [bf1 fs1]] eqn:Eall. cbn [fst snd] in *. subst o.
  destruct (add_all_returned (bit_array bf) (meta_name bf) l bf fs bf1 fs1
              Hidle eq_refl eq_refl Eall)
    as [(-> & _ & ->) | (s & h & Hmd & -> & Hev & Hmarks)].
  { apply Permutation_nil in Hperm. subst l'. auto. }
  destruct (add_all_evolves (bit_array bf) (meta_name bf) fs s h l Hmd)
    with (l := l') (bf := bf) (fs := fs) as (bf2 & fs2 & E2 & Hev2 & _ & Hmarks2).
  - intros e i He Hi.
    apply (evolves_storable _ (cell_of (bit_array bf) s h l) fs fs1); [exact Hev |].
    apply marked_storable, Hmarks; assumption.
  - intros e He. eapply Permutation_in; [apply Permutation_sym |]; eassumption.
  - exact Hidle.
  - reflexivity.
  - reflexivity.
  - apply evolves_refl.
  - rewrite E2. cbn [fst snd]. split; [reflexivity |].
    apply (fs_determined (bit_array bf) s h l fs); try assumption.
    intros e i He Hi. apply Hmarks2; [| exact Hi].
    eapply Permutation_in; eassumption.
Qed.

(** * The metadata file *)

Lemma read_write_file (p : string) (c : content) (fs : filesystem) :
  read_file p (write_file p c fs) = Some c.
Proof.
  unfold read_file, write_file. destruct (dir fs !! p) as [i |] eqn:E; cbn [dir inodes].
  - rewrite E. apply lookup_insert_eq.
  - rewrite !lookup_insert_eq. reflexivity.
Qed.

(** X11. The metadata round trip: what [save_metadata] writes is what
    [load_metadata] reads back into any object with the same file name,
    whatever [size] and [hash_count] that object had, and whatever was in
    the file system before. *)
Theorem save_then_load (bf bf2 : BloomFilter) (fs : filesystem) :
  filename bf2 = filename bf ->
  fst (save_metadata (bf, fs)) = Returned tt /\
  load_metadata (bf2, snd (snd (save_metadata (bf, fs))))
  = (Returned tt, (set_params (size bf) (hash_count bf) bf2,
                   snd (snd (save_metadata (bf, fs))))).
Proof.
  intros Hname. split; [reflexivity |].
  unfold save_metadata, bind, get_self, on_fs. cbn [fst snd].
  pose proof (read_write_file (meta_name bf) (Pickle (size bf) (hash_count bf)) fs) as Hr.
  unfold read_file in Hr.
  destruct (dir (write_file (meta_name bf) (Pickle (size bf) (hash_count bf)) fs)
              !! meta_name bf) as [i |] eqn:Ed; [| discriminate Hr].
  apply (load_metadata_pickle bf2 _ i).
  - unfold meta_name in *. rewrite Hname. exact Ed.
  - exact Hr.
Qed.

(** * Removal *)

(** X12. [delete] removes the two directory entries and nothing else: when
    it returns, neither the bit array nor the metadata can be opened by
    name, every other name and the content of every inode are as before
    (a mapping of the removed file still reads its cells), the object is
    untouched, and a second [delete] raises [FileNotFoundError]. *)
Theorem delete_removes_both (bf : BloomFilter) (fs : filesystem) :
  fst (delete (bf, fs)) = Returned tt ->
  fst (snd (delete (bf, fs))) = bf /\
  read_file (filename bf) (snd (snd (delete (bf, fs)))) = None /\
  read_file (meta_name bf) (snd (snd (delete (bf, fs)))) = None /\
  (forall q, q <> filename bf -> q <> meta_name bf ->
     dir (snd (snd (delete (bf, fs)))) !! q = dir fs !! q) /\
  inodes (snd (snd (delete (bf, fs)))) = inodes fs /\
  fst (delete (snd (delete (bf, fs)))) = Raised FileNotFoundError.
Proof.
  unfold delete, bind, get_self, on_fs, os_remove, read_file. cbn [fst snd].
  destruct (dir fs !! filename bf) as [i |] eqn:E1; [| discriminate].
  cbn [dir fst snd].
  destruct (base.delete (filename bf) (dir fs) !! meta_name bf) as [j |] eqn:E2;
    [| cbn [fst]; discriminate].
  intros _. cbn [dir inodes fst snd].
  assert (Hne : meta_name bf <> filename bf) by apply append_meta_ne.
  split; [reflexivity |]. split.
  { rewrite lookup_delete_ne by exact Hne. rewrite lookup_delete_eq. reflexivity. }
  split; [rewrite lookup_delete_eq; reflexivity |].
  split.
  { intros q H1 H2. rewrite !lookup_delete_ne by congruence. reflexivity. }
  split; [reflexivity |].
  rewrite lookup_delete_ne by exact Hne. rewrite lookup_delete_eq. reflexivity.
Qed.

(** X13. [delete] is not all or nothing. If the bit array file is missing
    it raises [FileNotFoundError] and leaves the file system as it is,
    metadata included; if only the metadata file is missing it raises
    [FileNotFoundError] after having removed the bit array file. *)
Theorem delete_fails_halfway (bf : BloomFilter) (fs : filesystem) :
  (dir fs !! filename bf = None ->
   delete (bf, fs) = (Raised FileNotFoundError, (bf, fs))) /\
  (dir fs !! filename bf <> None ->
   dir fs !! meta_name bf = None ->
   fst (delete (bf, fs)) = Raised FileNotFoundError /\
   read_file (filename bf) (snd (snd (delete (bf, fs)))) = None).
Proof.
  unfold delete, bind, get_self, on_fs, os_remove, read_file. cbn [fst snd]. split.
  - intros ->. reflexivity.
  - intros H1 H2. destruct (dir fs !! filename bf) as [i |]; [| congruence].
    cbn [dir fst snd].
    rewrite lookup_delete_ne by (apply not_eq_sym, append_meta_ne).
    rewrite H2. cbn [fst snd dir]. split; [reflexivity |].
    rewrite lookup_delete_eq. reflexivity.
Qed.

(** * The constructor on all inputs *)

Section ConstructorInputs.
Local Open Scope R_scope.


Lemma ln_038_upper : ln (38 / 100) <= - 9675 / 10000.
Proof.
  apply (ln_upper 16 38 100 (- 9675) 10000); try reflexivity; vm_compute; discriminate.
Qed.

Lemma ln_le_compat (x y : R) : 0 < x -> x <= y -> ln x <= ln y.
Proof.
  intros Hx [Hlt | ->]; [left; apply ln_increasing; assumption | right; reflexivity].
Qed.

Lemma ln2_square : 4804 / 10000 <= ln 2 ^ 2 <= 4805 / 10000.
Proof. pose proof ln2_lower. pose proof ln2_upper. split; nra. Qed.

Lemma hash_count_value_bounds (sz n : Z) :
  (0 <= sz)%Z -> (0 < n)%Z -> 0 <= hash_count_value sz n <= IZR sz.
Proof.
  intros Hsz Hn. unfold hash_count_value.
  apply IZR_le in Hsz. assert (Hn1 : 1 <= IZR n) by (apply IZR_le; lia).
  pose proof ln2_lower as A. pose proof ln2_upper as B.
  assert (Hq : 0 <= IZR sz / IZR n <= IZR sz).
  { split.
    - apply Rmult_le_pos; [exact Hsz |]. left. apply Rinv_0_lt_compat. lra.
    - apply Rmult_le_reg_r with (IZR n); [lra |].
      replace (IZR sz / IZR n * IZR n) with (IZR sz) by (field; lra). nra. }
  split; nra.
Qed.


Lemma size_value_large (n : Z) (p : R) :
  (0 < n)%Z -> 0 < p <= 38 / 100 -> 2 * IZR n <= size_value n p.
Proof.
  intros Hn [Hp0 Hp1]. rewrite size_value_formula.
  pose proof ln2_square as [A B]. pose proof ln2_pos as P2. pose proof ln_038_upper as C.
  pose proof (ln_le_compat p (38 / 100) Hp0 Hp1) as D.
  assert (Hn1 : 1 <= IZR n) by (apply IZR_le; lia).
  apply Rmult_le_reg_r with (ln 2 ^ 2); [lra |].
  replace (- IZR n * ln p / ln 2 ^ 2 * ln 2 ^ 2) with (IZR n * - ln p) by (field; lra).
  nra.
Qed.



End ConstructorInputs.




(** X16. When the constructor yields at least one hash function: for a
    positive [num_elem] and an error rate in (0, 0.38], [hash_count >= 1]
    (the size is then at least twice [num_elem]). *)
Theorem hash_count_at_least_one (n : Z) (p : R) :
  0 < n -> (0 < p <= 38 / 100)%R ->
  2 * n <= derive_size n p /\
  1 <= derive_hash_count (derive_size n p) n.
Proof.
  intros Hn Hp.
  assert (Hsz : 2 * n <= derive_size n p).
  { rewrite derive_size_floor by (try exact Hn; lra).
    apply Zfloor_lub. rewrite mult_IZR. rewrite <- size_value_formula.
    apply size_value_large; assumption. }
  split; [exact Hsz |].
  unfold derive_hash_count.
  destruct (hash_count_value_bounds (derive_size n p) n ltac:(lia) Hn) as [H0 _].
  rewrite int_nonneg by exact H0. apply Zfloor_lub.
  unfold hash_count_value.
  apply IZR_le in Hsz. rewrite mult_IZR in Hsz.
  assert (Hn1 : (1 <= IZR n)%R) by (apply IZR_le; lia).
  pose proof ln2_lower as A.
  assert (Hq : (2 <= IZR (derive_size n p) / IZR n)%R).
  { apply Rmult_le_reg_r with (IZR n); [lra |].
    replace (IZR (derive_size n p) / IZR n * IZR n)%R with (IZR (derive_size n p))
      by (field; lra). lra. }
  nra.
Qed.

(** X17. A new filter contains nothing: after a construction that yields at
    least one hash function, on a file system whose directory entries name
    allocated inodes, [check_member] returns [False] for every element. *)
Theorem new_filter_is_empty (n : Z) (p : R) (fname : string) (fs fs' : filesystem)
    (bf : BloomFilter) (e : value) :
  wf_fs fs ->
  __init__ n p fname fs = (Returned bf, fs') ->
  0 < hash_count bf ->
  fst (check_member e (bf, fs')) = Returned false.
Proof.
  intros Hwf Hinit Hhc.
  apply init_returned_inv in Hinit as (_ & _ & Hc).
  pose proof Hc as Hc'.
  apply create_returned_inv in Hc' as (_ & _ & _ & Hhash & _).
  apply (fresh_check_false _ _ fname fs fs' bf e Hwf Hc). lia.
Qed.

(** * [FCFS_Semaphore] *)

Module FCFSFacts.
Import FCFS.

(** X18. One thread, one lock. On a semaphore whose queue is empty:
    with a positive counter, [acquire] returns with the counter one lower
    and the caller alone in the queue, and [release] then restores the
    semaphore; with the counter at 1, a second [acquire] without a
    [release] never returns (the caller waits on its own semaphore); with
    the counter at 0 the first [acquire] never returns; and [release]
    without an [acquire] never returns either ([Queue.get] waits on the
    empty queue) and leaves the counter one higher. *)
Theorem one_thread (thread_id : nat) (s : FCFS_Semaphore) :
  service_queue s = [] ->
  (0 < semaphore s ->
   acquire thread_id s
     = (Returned tt, {| semaphore := semaphore s - 1; service_queue := [thread_id] |}) /\
   release (snd (acquire thread_id s)) = (Returned tt, s)) /\
  (semaphore s = 1 ->
   acquire thread_id (snd (acquire thread_id s))
     = (Blocked, {| semaphore := 0; service_queue := [thread_id; thread_id] |})) /\
  (semaphore s <= 0 ->
   acquire thread_id s = (Blocked, {| semaphore := semaphore s; service_queue := [thread_id] |})) /\
  release s = (Blocked, {| semaphore := semaphore s + 1; service_queue := [] |}).
Proof.
  destruct s as [v q]. cbn [service_queue semaphore]. intros ->.
  unfold acquire, release, with_queue, with_semaphore.
  cbn [service_queue semaphore app snd]. rewrite !Nat.eqb_refl.
  split; [| split; [| split]].
  - intros Hv. apply Z.ltb_lt in Hv. rewrite Hv. cbn [service_queue semaphore snd].
    split; [reflexivity |]. f_equal. f_equal. lia.
  - intros ->. cbn [Z.ltb Z.compare service_queue semaphore snd app].
    rewrite Nat.eqb_refl. reflexivity.
  - intros Hv. apply Z.ltb_ge in Hv. rewrite Hv. reflexivity.
  - reflexivity.
Qed.

Lemma fcfs_start_inv (n : nat) : inv (start n).
Proof.
  exists []. unfold start. cbn. repeat split; try constructor.
  intros k p Hk. apply list_elem_of_lookup_2, list_elem_of_In, repeat_spec in Hk.
  subst p. cbn. tauto.
Qed.

Lemma lookup_move (ps : list pc) (k j : nat) (p q : pc) :
  <[k := p]> ps !! j = Some q ->
  (j = k /\ q = p) \/ (j <> k /\ ps !! j = Some q).
Proof.
  intros H. destruct (decide (j = k)) as [-> | Hne].
  - left. split; [reflexivity |].
    destruct (decide (k < length ps)%nat) as [Hlt | Hge].
    + rewrite list_lookup_insert_eq in H by exact Hlt. congruence.
    + rewrite list_insert_ge in H by lia.
      apply lookup_lt_Some in H. lia.
  - right. split; [exact Hne |]. rewrite list_lookup_insert_ne in H by congruence. exact H.
Qed.

Lemma hd_in (q : list nat) (k : nat) : hd_error q = Some k -> In k q.
Proof. destruct q; [discriminate | intros [= ->]; left; reflexivity]. Qed.

Lemma nodup_snoc (l : list nat) (k : nat) :
  NoDup l -> ~ In k l -> NoDup (l ++ [k]).
Proof.
  intros Hl Hk. apply NoDup_app. split; [exact Hl |]. split; [| apply NoDup_singleton].
  intros x Hx Hx'. apply list_elem_of_In in Hx, Hx'. destruct Hx' as [-> | []].
  exact (Hk Hx).
Qed.

Lemma nodup_middle (g q : list nat) (k : nat) :
  NoDup (g ++ k :: q) -> ~ In k q.
Proof.
  intros H. apply NoDup_app in H as (_ & _ & Hq).
  apply NoDup_cons in Hq as [Hq _]. intros Hin. apply Hq, list_elem_of_In, Hin.
Qed.

Lemma fcfs_step_inv (k : nat) (st st' : system) :
  inv st -> step k st = Some st' -> inv st'.
Proof.
  intros (gone & Harr & Hnd & Hth & Hsem & Hadm) Hstep. unfold step in Hstep.
  destruct (pcs st !! k) as [p |] eqn:Ek; [| discriminate Hstep].
  pose proof (Hth k p Ek) as Hk.
  assert (Hlt : (k < length (pcs st))%nat) by (eapply lookup_lt_Some, Ek).
  destruct st as [[sm q] ps arr adm]. cbn [lock pcs arrivals admissions semaphore
    service_queue with_queue with_semaphore] in *.
  unfold thread_inv, holder, admitted in *.
  cbn [lock pcs arrivals admissions semaphore service_queue] in *.
  destruct p; cbn [thread_inv] in Hk.
  - (* put *)
    injection Hstep as <-. exists gone. open_state.
    assert (Hkq : ~ In k q) by (intros H; apply Hk; rewrite Harr; apply in_or_app; auto).
    split; [rewrite Harr, app_assoc; reflexivity |].
    split.
    { apply nodup_snoc; assumption. }
    split.
    { intros j pj Hj. apply lookup_move in Hj as [[-> ->] | [Hne Hj]].
      - apply in_or_app. right. left. reflexivity.
      - specialize (Hth j pj Hj). destruct pj; cbn in *; try assumption.
        + intros H. apply in_app_or in H as [H | [H | []]]; [auto | congruence].
        + apply in_or_app. auto.
        + destruct q; [discriminate Hth | exact Hth].
        + destruct q; [discriminate Hth | exact Hth].
        + destruct q; [discriminate Hth | exact Hth]. }
    destruct q as [| hq q'].
    + cbn [app]. rewrite list_lookup_insert_eq by exact Hlt. auto.
    + cbn [app].
      assert (hq <> k) by (intros ->; apply Hkq; left; reflexivity).
      rewrite list_lookup_insert_ne by congruence. auto.
  - (* the polling loop *)
    destruct q as [| hq q']; [destruct Hk |].
    destruct (Nat.eqb hq k) eqn:Eh.
    + apply Nat.eqb_eq in Eh. subst hq. injection Hstep as <-. exists gone.
      open_state.
      split; [exact Harr |]. split; [exact Hnd |]. split.
      { intros j pj Hj. apply lookup_move in Hj as [[-> ->] | [Hne Hj]]; [reflexivity |].
        apply (Hth j pj Hj). }
      rewrite list_lookup_insert_eq by exact Hlt. rewrite Ek in Hsem, Hadm. auto.
    + injection Hstep as <-. exists gone. open_state. auto.
  - (* semaphore.acquire() *)
    destruct q as [| hq q']; [discriminate Hk |]. injection Hk as ->.
    rewrite Ek in Hsem, Hadm.
    destruct (0 <? sm) eqn:Es; [| discriminate Hstep]. injection Hstep as <-.
    exists gone. open_state.
    split; [exact Harr |]. split; [exact Hnd |]. split.
    { intros j pj Hj. apply lookup_move in Hj as [[-> ->] | [Hne Hj]]; [reflexivity |].
      apply (Hth j pj Hj). }
    rewrite list_lookup_insert_eq by exact Hlt.
    split; [lia |]. rewrite Hadm, app_nil_r. reflexivity.
  - (* the critical section ends: semaphore.release() *)
    destruct q as [| hq q']; [discriminate Hk |]. injection Hk as ->.
    rewrite Ek in Hsem, Hadm. injection Hstep as <-.
    exists gone. open_state.
    split; [exact Harr |]. split; [exact Hnd |]. split.
    { intros j pj Hj. apply lookup_move in Hj as [[-> ->] | [Hne Hj]]; [reflexivity |].
      apply (Hth j pj Hj). }
    rewrite list_lookup_insert_eq by exact Hlt. split; [lia | exact Hadm].
  - (* service_queue.get() *)
    destruct q as [| hq q']; [discriminate Hk |]. injection Hk as ->.
    rewrite Ek in Hsem, Hadm. injection Hstep as <-.
    exists (gone ++ [k]). open_state.
    assert (Hnd' : ~ In k q').
    { rewrite Harr in Hnd. eapply nodup_middle, Hnd. }
    split; [rewrite Harr, <- app_assoc; reflexivity |]. split; [exact Hnd |]. split.
    { intros j pj Hj. apply lookup_move in Hj as [[-> ->] | [Hne Hj]].
      - apply in_or_app. right. left. reflexivity.
      - specialize (Hth j pj Hj). destruct pj; cbn in *; try assumption.
        + destruct Hth as [-> | H]; [congruence | exact H].
        + congruence.
        + congruence.
        + congruence.
        + apply in_or_app. auto. }
    assert (Hhead : holder {| lock := {| semaphore := sm; service_queue := q' |};
                             pcs := <[k := Left]> ps; arrivals := arr;
                             admissions := adm |} = 0 /\
                    admitted {| lock := {| semaphore := sm; service_queue := q' |};
                               pcs := <[k := Left]> ps; arrivals := arr;
                               admissions := adm |} = []).
    { unfold holder, admitted. cbn [lock pcs service_queue].
      destruct q' as [| h2 q2]; [auto |].
      assert (h2 <> k) by (intros ->; apply Hnd'; left; reflexivity).
      rewrite list_lookup_insert_ne by congruence.
      destruct (ps !! h2) as [p2 |] eqn:E2; [| auto].
      specialize (Hth h2 p2 E2). destruct p2; cbn in Hth; auto; congruence. }
    unfold holder, admitted in Hhead. cbn [lock pcs service_queue] in Hhead.
    destruct Hhead as [-> ->]. split; [lia |].
    rewrite Hadm, app_nil_r. reflexivity.
  - discriminate Hstep.
  - discriminate Hstep.
Qed.

Lemma fcfs_run_inv (sched : list nat) :
  forall st st', inv st -> run sched st = Some st' -> inv st'.
Proof.
  induction sched as [| k rest IH]; intros st st' Hinv Hrun; cbn [run] in Hrun.
  - injection Hrun as <-. exact Hinv.
  - destruct (step k st) as [st1 |] eqn:E; [| discriminate Hrun].
    eapply IH; [| exact Hrun]. eapply fcfs_step_inv; eassumption.
Qed.

(** X19. First come, first served: whatever the schedule of [n] threads
    that each take the lock once, the threads enter the critical section in
    the order in which they joined the queue (the admissions are a prefix
    of the arrivals), no two of them are inside together, and none fails on
    the head of an empty queue. *)
Theorem first_come_first_served (n : nat) (sched : list nat) (st : system) :
  run sched (start n) = Some st ->
  (exists waiting, arrivals st = admissions st ++ waiting) /\
  (forall j k, pcs st !! j = Some Inside -> pcs st !! k = Some Inside -> j = k) /\
  (forall k, pcs st !! k <> Some Crashed).
Proof.
  intros Hrun.
  destruct (fcfs_run_inv sched (start n) st (fcfs_start_inv n) Hrun)
    as (gone & Harr & Hnd & Hth & Hsem & Hadm).
  split; [| split].
  - rewrite Harr, Hadm. unfold admitted.
    destruct (service_queue (lock st)) as [| k q].
    { exists []. rewrite !app_nil_r. reflexivity. }
    destruct (pcs st !! k) as [[| | | | | |] |];
      try (exists (k :: q); rewrite app_nil_r; reflexivity);
      exists q; rewrite <- app_assoc; reflexivity.
  - intros j k Hj Hk. pose proof (Hth j _ Hj) as H1. pose proof (Hth k _ Hk) as H2.
    cbn in H1, H2. congruence.
  - intros k Hk. apply (Hth k _ Hk).
Qed.

End FCFSFacts.
(** * Readers against writers *)

Lemma total_insert (f : job -> Z) (js : list job) (k : nat) (j j' : job) :
  js !! k = Some j -> total f (<[k := j']> js) = total f js - f j + f j'.
Proof.
  revert k. induction js as [| a js IH]; intros k Hk; [discriminate Hk |].
  destruct k as [| k].
  - injection Hk as ->. change (f j' + total f js = f j + total f js - f j + f j'). lia.
  - change (f a + total f (<[k := j']> js) = f a + total f js - f j + f j').
    rewrite (IH k Hk). lia.
Qed.

Lemma total_le (f g : job -> Z) (js : list job) :
  (forall j, f j <= g j) -> total f js <= total g js.
Proof.
  intros Hfg. induction js as [| a js IH]; [reflexivity |].
  change (f a + total f js <= g a + total g js). specialize (Hfg a). lia.
Qed.

Lemma total_nonneg (f : job -> Z) (js : list job) :
  (forall j, 0 <= f j) -> 0 <= total f js.
Proof.
  intros Hf. induction js as [| a js IH]; [reflexivity |].
  change (0 <= f a + total f js). specialize (Hf a). lia.
Qed.

Lemma total_add (f g : job -> Z) (js : list job) :
  total (fun j => f j + g j) js = total f js + total g js.
Proof.
  induction js as [| a js IH]; [reflexivity |].
  change (f a + g a + total (fun j => f j + g j) js
          = f a + total f js + (g a + total g js)).
  rewrite IH. lia.
Qed.

Lemma total_spawn (f : job -> Z) (cs : list call) :
  (forall c, f (job_of c) = 0) -> total f (map job_of cs) = 0.
Proof.
  intros Hf. induction cs as [| c cs IH]; [reflexivity |].
  change (f (job_of c) + total f (map job_of cs) = 0). rewrite Hf, IH. reflexivity.
Qed.

Lemma writing_job_nonneg (j : job) : 0 <= writing_job j.
Proof. revert j. by_point. Qed.

Lemma entering_nonneg (j : job) : 0 <= entering j.
Proof. revert j. by_point. Qed.

Lemma leaving_nonneg (j : job) : 0 <= leaving j.
Proof. revert j. by_point. Qed.

Lemma first_reader_nonneg (j : job) : 0 <= first_reader j.
Proof. revert j. by_point. Qed.

Lemma last_reader_nonneg (j : job) : 0 <= last_reader j.
Proof. revert j. by_point. Qed.

Lemma in_mutex_covers (j : job) : entering j + leaving j <= in_mutex j.
Proof. revert j. by_point. Qed.

Lemma counted_covers (j : job) : entering j + reading_job j <= counted j.
Proof. revert j. by_point. Qed.

Lemma reading_job_nonneg (j : job) : 0 <= reading_job j.
Proof. revert j. by_point. Qed.

Lemma first_reader_enters (j : job) : first_reader j <= entering j.
Proof. revert j. by_point. Qed.

Lemma last_reader_leaves (j : job) : last_reader j <= leaving j.
Proof. revert j. by_point. Qed.

Lemma thread_step_readers (t t' : thread) (w w' : world) :
  thread_step t w = Some (t', w') ->
  readcount (fst w') = readcount (fst w) /\ rmutex (fst w') = rmutex (fst w).
Proof.
  intros Hstep. destruct w as [bf fs], t as [e p].
  unfold thread_step in Hstep. cbn [point elem fst snd] in *.
  destruct p as [| | | | | idx | x rest | | | |]; try discriminate Hstep.
  - unfold acquire in Hstep. cbn [fst snd sem_value] in Hstep.
    destruct (0 <? serviceQueue bf); [| discriminate Hstep].
    injection Hstep as <- <-. split; reflexivity.
  - unfold acquire in Hstep. cbn [fst snd sem_value] in Hstep.
    destruct (0 <? resource bf); [| discriminate Hstep].
    injection Hstep as <- <-. split; reflexivity.
  - injection Hstep as <- <-. split; reflexivity.
  - unfold load_metadata in Hstep. cbn [fst snd] in Hstep.
    destruct (dir fs !! meta_name bf) as [i |];
      [destruct (inodes fs !! i) as [[[| ? ?] | ? ?] |] |];
      cbn [after] in Hstep; injection Hstep as <- <-; split; reflexivity.
  - injection Hstep as <- <-. split; reflexivity.
  - destruct idx as [| i rest]; [injection Hstep as <- <-; split; reflexivity |].
    destruct (compute_hash bf (str e) i); try discriminate Hstep;
      injection Hstep as <- <-; split; reflexivity.
  - unfold bit_set in Hstep. cbn [fst snd] in Hstep.
    destruct (mmap_set (bit_array bf) x 1 fs) as [[[] | ex |] fs1];
      cbn [after] in Hstep; try discriminate Hstep;
      injection Hstep as <- <-; split; reflexivity.
  - injection Hstep as <- <-. split; reflexivity.
  - injection Hstep as <- <-. split; reflexivity.
Qed.

Lemma job_step_inv (k : nat) (js : list job) (j j' : job) (w w' : world) :
  js !! k = Some j ->
  job_step j w = Some (j', w') ->
  rw_inv js (fst w) -> rw_inv (<[k := j']> js) (fst w').
Proof.
  intros Hk Hstep Hinv. unfold rw_inv in *.
  rewrite !(total_insert _ js k j j' Hk).
  pose proof (total_insert counted js k j bystander Hk) as Tc.
  pose proof (total_insert in_mutex js k j bystander Hk) as Tm.
  pose proof (total_insert at_gate js k j bystander Hk) as Tg.
  pose proof (total_insert entering js k j bystander Hk) as Te.
  pose proof (total_insert leaving js k j bystander Hk) as Tl.
  pose proof (total_insert writing_job js k j bystander Hk) as Tw.
  pose proof (total_insert first_reader js k j bystander Hk) as Tf.
  pose proof (total_insert last_reader js k j bystander Hk) as Tz.
  pose proof (total_nonneg writing_job (<[k := bystander]> js) writing_job_nonneg) as Nw.
  pose proof (total_nonneg entering (<[k := bystander]> js) entering_nonneg) as Ne.
  pose proof (total_nonneg leaving (<[k := bystander]> js) leaving_nonneg) as Nl.
  pose proof (total_nonneg first_reader (<[k := bystander]> js) first_reader_nonneg) as Nf.
  pose proof (total_nonneg last_reader (<[k := bystander]> js) last_reader_nonneg) as Nz.
  pose proof (total_le _ _ (<[k := bystander]> js) in_mutex_covers) as Lm.
  pose proof (total_le _ _ (<[k := bystander]> js) counted_covers) as Lc.
  pose proof (total_nonneg reading_job (<[k := bystander]> js) reading_job_nonneg) as Nr.
  pose proof (total_le _ _ (<[k := bystander]> js) first_reader_enters) as Lf.
  pose proof (total_le _ _ (<[k := bystander]> js) last_reader_leaves) as Lz.
  rewrite total_add in Lm, Lc.
  destruct w as [bf fs], j as [t | [e p]]; cbn [job_step] in Hstep; cbn [fst] in Hinv.
  - destruct (thread_step t (bf, fs)) as [[t' w1] |] eqn:Et; [| discriminate Hstep].
    injection Hstep as <- <-.
    destruct (thread_step_readers _ _ _ _ Et) as (Erc & Erm).
    destruct (thread_step_locks _ _ _ _ Et) as (Er & Es & Hr & Hs);
      [cbn [fst]; lia | cbn [fst]; lia |].
    destruct w1 as [bf1 fs1].
    holdings.
    destruct (holds_resource t), (holds_resource t'), (holds_service t), (holds_service t');
      cbn [b2z] in *; lia.
  - unfold reader_step in Hstep. cbn [rpoint relem fst snd] in Hstep.
    destruct p.
    + unfold acquire in Hstep. cbn [fst snd sem_value] in Hstep.
      destruct (0 <? serviceQueue bf) eqn:E; [| discriminate Hstep].
      apply Z.ltb_lt in E. injection Hstep as <- <-. holdings. lia.
    + unfold acquire in Hstep. cbn [fst snd sem_value] in Hstep.
      destruct (0 <? rmutex bf) eqn:E; [| discriminate Hstep].
      apply Z.ltb_lt in E. injection Hstep as <- <-. holdings. lia.
    + injection Hstep as <- <-. holdings. lia.
    + destruct (readcount bf =? 1) eqn:E;
        [apply Z.eqb_eq in E | apply Z.eqb_neq in E];
        injection Hstep as <- <-; holdings; lia.
    + unfold acquire in Hstep. cbn [fst snd sem_value] in Hstep.
      destruct (0 <? resource bf) eqn:E; [| discriminate Hstep].
      apply Z.ltb_lt in E. injection Hstep as <- <-. holdings. lia.
    + injection Hstep as <- <-. holdings. lia.
    + injection Hstep as <- <-. holdings. lia.
    + unfold load_metadata in Hstep. cbn [fst snd] in Hstep.
      destruct (dir fs !! meta_name bf) as [i |];
        [destruct (inodes fs !! i) as [[[| ? ?] | ? ?] |] |];
        cbn [rafter] in Hstep; injection Hstep as <- <-; holdings; lia.
    + injection Hstep as <- <-. holdings. lia.
    + destruct idx as [| i rest]; [injection Hstep as <- <-; holdings; lia |].
      destruct (compute_hash bf (str e) i); try discriminate Hstep;
        injection Hstep as <- <-; holdings; lia.
    + unfold bit_get in Hstep. cbn [fst snd] in Hstep.
      destruct (mmap_get (bit_array bf) index fs) as [b | ex |]; try discriminate Hstep;
        [destruct (b =? 1) |]; injection Hstep as <- <-; holdings; lia.
    + unfold acquire in Hstep. cbn [fst snd sem_value] in Hstep.
      destruct (0 <? rmutex bf) eqn:E; [| discriminate Hstep].
      apply Z.ltb_lt in E. injection Hstep as <- <-. holdings. lia.
    + injection Hstep as <- <-. holdings. lia.
    + destruct (readcount bf =? 0) eqn:E;
        [apply Z.eqb_eq in E | apply Z.eqb_neq in E];
        injection Hstep as <- <-; holdings; lia.
    + injection Hstep as <- <-. holdings. lia.
    + injection Hstep as <- <-. holdings. lia.
    + discriminate Hstep.
    + discriminate Hstep.
Qed.

Lemma rw_run_inv (sched : list nat) :
  forall st st',
    rw_inv (jobs st) (fst (rw_shared st)) ->
    rw_run sched st = Some st' ->
    rw_inv (jobs st') (fst (rw_shared st')).
Proof.
  induction sched as [| k rest IH]; intros st st' Hinv Hrun; cbn [rw_run] in Hrun.
  - injection Hrun as <-. exact Hinv.
  - destruct (rw_step k st) as [st1 |] eqn:E; [| discriminate Hrun].
    eapply IH; [| exact Hrun]. unfold rw_step in E.
    destruct (jobs st !! k) as [j |] eqn:Ek; [| discriminate E].
    destruct (job_step j (rw_shared st)) as [[j' w'] |] eqn:Ej; [| discriminate E].
    injection E as <-. cbn [jobs rw_shared].
    eapply job_step_inv; eassumption.
Qed.

Lemma rw_spawn_inv (cs : list call) (bf : BloomFilter) :
  idle bf -> rw_inv (map job_of cs) bf.
Proof.
  intros (Hrc & Hres & Hmx & Hsvc). unfold rw_inv.
  rewrite !total_spawn by (intros []; reflexivity). lia.
Qed.

(** X20. Readers and writers exclude each other: however the steps of any
    number of [add_elem] and [check_member] calls on one idle object are
    interleaved, at most one writer is past [resource.acquire()], no reader
    is between its entry and its exit protocol while a writer is, and
    [readcount] is the number of readers that have been counted in and not
    yet out. *)
Theorem readers_exclude_writers (cs : list call) (bf : BloomFilter) (fs : filesystem)
    (sched : list nat) (st : rw_system) :
  idle bf ->
  rw_run sched (rw_spawn cs (bf, fs)) = Some st ->
  total writing_job (jobs st) <= 1 /\
  (1 <= total reading_job (jobs st) -> total writing_job (jobs st) = 0) /\
  readcount (fst (rw_shared st)) = total counted (jobs st).
Proof.
  intros Hidle Hrun.
  pose proof (rw_run_inv sched (rw_spawn cs (bf, fs)) st (rw_spawn_inv cs bf Hidle) Hrun)
    as Hinv.
  unfold rw_inv in Hinv.
  pose proof (total_nonneg writing_job (jobs st) writing_job_nonneg) as Nw.
  pose proof (total_nonneg leaving (jobs st) leaving_nonneg) as Nl.
  pose proof (total_le _ _ (jobs st) counted_covers) as Lc.
  rewrite total_add in Lc. lia.
Qed.
(** * Lookups among concurrent additions *)

Section Mixed.

Variables (m : mmap) (name : string) (fs0 : filesystem) (s h : Z) (es : list value).
Hypothesis metadata_there : metadata name fs0 = Some (s, h).

Lemma metadata_only (s' h' : Z) :
  metadata name fs0 = Some (s', h') -> s' = s /\ h' = h.
Proof. rewrite metadata_there. intros [= <- <-]. auto. Qed.

Lemma reader_inv_stable (r : reader) (w w' : world) :
  advances m s h w w' -> reader_inv s h r w -> reader_inv s h r w'.
Proof.
  intros (Hpar & _). unfold reader_inv.
  destruct (rpoint r); try exact (fun H => H).
  - intros (Hsz & Hhc). destruct Hpar as [[-> ->] | [-> ->]]; auto.
  - intros (Hsz & Hall). split; [| exact Hall]. destruct Hpar as [[-> _] | [-> _]]; auto.
  - intros (Hsz & Hx & Hall). split; [| auto]. destruct Hpar as [[-> _] | [-> _]]; auto.
Qed.

Lemma job_inv_stable (j : job) (w w' : world) :
  advances m s h w w' ->
  job_inv m name fs0 s h es w j -> job_inv m name fs0 s h es w' j.
Proof.
  intros Hadv. destruct j as [t | r]; cbn [job_inv].
  - intros (Hin & Ht). split; [exact Hin |].
    eapply thread_inv_stable; [exact metadata_only | exact Hadv | exact Ht].
  - intros Hr Hp. eapply reader_inv_stable; [exact Hadv | apply Hr, Hp].
Qed.

(** One step of a reader whose element is present. *)
Lemma reader_step_result (r r' : reader) (w w' : world) :
  bit_array (fst w) = m ->
  meta_name (fst w) = name ->
  evolves m (cell_of m s h es) fs0 (snd w) ->
  (forall i, In i (range h) -> marked_at m s (str (relem r)) i fs0) ->
  reader_inv s h r w ->
  reader_step r w = Some (r', w') ->
  reader_inv s h r' w'.
Proof.
  intros Hm Hname Hev Hp Hinv Hstep.
  destruct w as [bf fs], r as [e p]. cbn [fst snd relem] in *.
  unfold reader_step in Hstep. unfold reader_inv in *. cbn [rpoint relem fst snd] in *.
  destruct p.
  - unfold acquire in Hstep. destruct (0 <? _); [| discriminate Hstep].
    injection Hstep as <- <-. exact I.
  - unfold acquire in Hstep. destruct (0 <? _); [| discriminate Hstep].
    injection Hstep as <- <-. exact I.
  - injection Hstep as <- <-. exact I.
  - destruct (readcount bf =? 1); injection Hstep as <- <-; exact I.
  - unfold acquire in Hstep. destruct (0 <? _); [| discriminate Hstep].
    injection Hstep as <- <-. exact I.
  - injection Hstep as <- <-. exact I.
  - injection Hstep as <- <-. exact I.
  - destruct (load_metadata_cases bf fs) as [(s' & h' & Hmd & E) | (x & Hmd & E)].
    + rewrite E in Hstep. injection Hstep as <- <-.
      rewrite Hname, (evolves_metadata _ _ _ _ name Hev), metadata_there in Hmd.
      injection Hmd as <- <-. cbn. auto.
    + rewrite Hname, (evolves_metadata _ _ _ _ name Hev), metadata_there in Hmd.
      discriminate Hmd.
  - injection Hstep as <- <-. cbn [rgoto rpoint fst snd relem].
    destruct Hinv as (Hsz & Hhc). rewrite Hhc. auto.
  - destruct Hinv as (Hsz & Hall). destruct idx as [| i rest].
    + injection Hstep as <- <-. reflexivity.
    + assert (Hs : s <> 0) by (apply (Hp i), Hall; left; reflexivity).
      rewrite compute_hash_at_position in Hstep by (rewrite Hsz; exact Hs).
      injection Hstep as <- <-. cbn [rgoto rpoint fst snd relem].
      split; [exact Hsz |]. split.
      * exists i. rewrite Hsz. split; [apply Hall; left |]; reflexivity.
      * intros k Hk. apply Hall. right. exact Hk.
  - destruct Hinv as (Hsz & (i & Hi & ->) & Hall).
    unfold bit_get in Hstep. cbn [fst snd] in Hstep. rewrite Hm in Hstep.
    destruct (evolves_marked _ _ _ _ _ _ _ Hev (Hp i Hi)) as (_ & Hget).
    rewrite Hget in Hstep. cbn in Hstep. injection Hstep as <- <-.
    cbn [rgoto rpoint fst snd relem]. auto.
  - unfold acquire in Hstep. destruct (0 <? _); [| discriminate Hstep].
    injection Hstep as <- <-. exact Hinv.
  - injection Hstep as <- <-. exact Hinv.
  - destruct (readcount bf =? 0); injection Hstep as <- <-; exact Hinv.
  - injection Hstep as <- <-. exact Hinv.
  - injection Hstep as <- <-. exact Hinv.
  - discriminate Hstep.
  - discriminate Hstep.
Qed.

(** What any step of a reader does to the shared world. *)
Lemma reader_step_world (r r' : reader) (w w' : world) :
  bit_array (fst w) = m ->
  meta_name (fst w) = name ->
  evolves m (cell_of m s h es) fs0 (snd w) ->
  reader_step r w = Some (r', w') ->
  relem r' = relem r /\
  bit_array (fst w') = bit_array (fst w) /\
  meta_name (fst w') = meta_name (fst w) /\
  snd w' = snd w /\
  advances m s h w w'.
Proof.
  intros Hm Hname Hev Hstep.
  destruct w as [bf fs], r as [e p]. cbn [fst snd relem] in *.
  unfold reader_step in Hstep. cbn [rpoint relem fst snd] in *.
  assert (Hsame : forall bf', size bf' = size bf -> hash_count bf' = hash_count bf ->
                    advances m s h (bf, fs) (bf', fs)).
  { intros bf' H1 H2. apply advances_same_fs; assumption. }
  destruct p.
  - unfold acquire in Hstep. destruct (0 <? _); [| discriminate Hstep].
    injection Hstep as <- <-. cbn. auto 6.
  - unfold acquire in Hstep. destruct (0 <? _); [| discriminate Hstep].
    injection Hstep as <- <-. cbn. auto 6.
  - injection Hstep as <- <-. cbn. auto 6.
  - destruct (readcount bf =? 1); injection Hstep as <- <-; cbn; auto 6.
  - unfold acquire in Hstep. destruct (0 <? _); [| discriminate Hstep].
    injection Hstep as <- <-. cbn. auto 6.
  - injection Hstep as <- <-. cbn. auto 6.
  - injection Hstep as <- <-. cbn. auto 6.
  - destruct (load_metadata_cases bf fs) as [(s' & h' & Hmd & E) | (x & Hmd & E)];
      rewrite E in Hstep; injection Hstep as <- <-; cbn [rgoto relem fst snd].
    + rewrite Hname, (evolves_metadata _ _ _ _ name Hev), metadata_there in Hmd.
      injection Hmd as <- <-.
      split; [reflexivity |]. split; [reflexivity |]. split; [reflexivity |].
      split; [reflexivity |]. split; [right; auto | auto].
    + auto 6.
  - injection Hstep as <- <-. cbn. auto 6.
  - destruct idx as [| i rest]; [injection Hstep as <- <-; cbn; auto 6 |].
    destruct (compute_hash bf (str e) i); try discriminate Hstep;
      injection Hstep as <- <-; cbn; auto 6.
  - unfold bit_get in Hstep. cbn [fst snd] in Hstep.
    destruct (mmap_get (bit_array bf) index fs) as [b | ex |]; try discriminate Hstep;
      [destruct (b =? 1) |]; injection Hstep as <- <-; cbn; auto 6.
  - unfold acquire in Hstep. destruct (0 <? _); [| discriminate Hstep].
    injection Hstep as <- <-. cbn. auto 6.
  - injection Hstep as <- <-. cbn. auto 6.
  - destruct (readcount bf =? 0); injection Hstep as <- <-; cbn; auto 6.
  - injection Hstep as <- <-. cbn. auto 6.
  - injection Hstep as <- <-. cbn. auto 6.
  - discriminate Hstep.
  - discriminate Hstep.
Qed.

Lemma rw_step_inv (k : nat) (st st' : rw_system) :
  mixed_inv m name fs0 s h es st ->
  rw_step k st = Some st' ->
  mixed_inv m name fs0 s h es st'.
Proof.
  intros (Hm & Hname & Hev & Hall) Hstep. unfold rw_step in Hstep.
  destruct (jobs st !! k) as [j |] eqn:Ek; [| discriminate Hstep].
  destruct (job_step j (rw_shared st)) as [[j' w'] |] eqn:Ej; [| discriminate Hstep].
  injection Hstep as <-.
  assert (Hj : job_inv m name fs0 s h es (rw_shared st) j).
  { rewrite Forall_forall in Hall. apply Hall. eapply list_elem_of_lookup_2, Ek. }
  unfold mixed_inv. cbn [jobs rw_shared].
  destruct j as [t | r]; cbn [job_step job_inv] in Ej, Hj.
  - destruct (thread_step t (rw_shared st)) as [[t' w1] |] eqn:Et; [| discriminate Ej].
    injection Ej as <- <-. destruct Hj as (Hin & Ht).
    destruct (thread_step_result m name fs0 s h es metadata_only t t' (rw_shared st) w1
                Hin Hm Hname Hev Ht Et)
      as (He & Hba & Hmn & Hev' & Hadv & Hinv').
    split; [congruence |]. split; [congruence |]. split; [exact Hev' |].
    apply Forall_insert.
    + eapply Forall_impl; [exact Hall |].
      intros j0 H0. eapply job_inv_stable; eassumption.
    + cbn [job_inv]. rewrite He. auto.
  - destruct (reader_step r (rw_shared st)) as [[r' w1] |] eqn:Er; [| discriminate Ej].
    injection Ej as <- <-.
    destruct (reader_step_world r r' (rw_shared st) w1 Hm Hname Hev Er)
      as (He & Hba & Hmn & Hfs & Hadv).
    split; [congruence |]. split; [congruence |]. split; [rewrite Hfs; exact Hev |].
    apply Forall_insert.
    + eapply Forall_impl; [exact Hall |].
      intros j0 H0. eapply job_inv_stable; eassumption.
    + cbn [job_inv]. rewrite He. intros Hp.
      eapply reader_step_result; eauto.
Qed.

Lemma rw_run_mixed (sched : list nat) :
  forall st st',
    mixed_inv m name fs0 s h es st ->
    rw_run sched st = Some st' ->
    mixed_inv m name fs0 s h es st'.
Proof.
  induction sched as [| k rest IH]; intros st st' Hinv Hrun; cbn [rw_run] in Hrun.
  - injection Hrun as <-. exact Hinv.
  - destruct (rw_step k st) as [st1 |] eqn:E; [| discriminate Hrun].
    eapply IH; [| exact Hrun]. eapply rw_step_inv; eassumption.
Qed.

End Mixed.

Lemma rw_spawn_mixed (m : mmap) (name : string) (s h : Z) (cs : list call)
    (bf : BloomFilter) (fs : filesystem) :
  bit_array bf = m -> meta_name bf = name ->
  mixed_inv m name fs s h (map call_elem cs) (rw_spawn cs (bf, fs)).
Proof.
  intros Hm Hname. unfold mixed_inv, rw_spawn. cbn [jobs rw_shared fst snd].
  split; [exact Hm |]. split; [exact Hname |]. split; [apply evolves_refl |].
  apply Forall_forall. intros j Hj.
  apply list_elem_of_In, in_map_iff in Hj as (c & <- & Hc).
  destruct c as [e | e]; cbn [job_of job_inv].
  - split; [| exact I]. apply in_map_iff. exists (Add e). auto.
  - intros _. exact I.
Qed.

(** X21. No false negatives under concurrency: once [add_elem e] has
    returned on an idle object, let any number of [add_elem] and
    [check_member] calls run on it with their steps interleaved in any
    order. No [check_member e] among them raises, and each one that returns,
    returns [True]. *)
Theorem concurrent_check_finds (e : value) (cs : list call) (bf : BloomFilter)
    (fs : filesystem) (sched : list nat) (st : rw_system) (k : nat) (r : reader) :
  idle bf ->
  fst (add_elem e (bf, fs)) = Returned tt ->
  rw_run sched (rw_spawn cs (snd (add_elem e (bf, fs)))) = Some st ->
  jobs st !! k = Some (Reader r) ->
  relem r = e ->
  (forall x, rpoint r <> RFailed x) /\
  (forall res, rpoint r = RReturned res -> res = true).
Proof.
  intros Hidle Hret Hrun Hk He.
  destruct (add_elem e (bf, fs)) as [o [bf' fs']] eqn:Eadd. cbn [fst snd] in *. subst o.
  assert (Hall : add_all [e] (bf, fs) = (Returned tt, (bf', fs'))).
  { cbn [add_all]. unfold bind. rewrite Eadd. reflexivity. }
  destruct (add_all_returned (bit_array bf) (meta_name bf) [e] bf fs bf' fs'
              Hidle eq_refl eq_refl Hall)
    as [(Hnil & _) | (s & h & Hmd & -> & Hev & Hmarks)]; [discriminate Hnil |].
  rewrite <- (evolves_metadata _ _ fs fs' _ Hev) in Hmd.
  pose proof (rw_run_mixed (bit_array bf) (meta_name bf) fs' s h (map call_elem cs) Hmd
                sched _ st
                (rw_spawn_mixed (bit_array bf) (meta_name bf) s h cs
                   (set_params s h bf) fs' eq_refl eq_refl) Hrun)
    as (_ & _ & _ & Hjobs).
  rewrite Forall_forall in Hjobs.
  pose proof (Hjobs _ (list_elem_of_lookup_2 _ _ _ Hk)) as Hr. cbn [job_inv] in Hr.
  assert (Hinv : reader_inv s h r (rw_shared st)).
  { apply Hr. intros i Hi. rewrite He. apply Hmarks; [left; reflexivity | exact Hi]. }
  unfold reader_inv in Hinv. split.
  - intros x Hx. rewrite Hx in Hinv. exact Hinv.
  - intros res Hres. rewrite Hres in Hinv. exact Hinv.
Qed.
(** * Progress of readers and writers *)

Lemma total_sub (f g : job -> Z) (js : list job) :
  total (fun j => f j - g j) js = total f js - total g js.
Proof.
  induction js as [| a js IH]; [reflexivity |].
  change (f a - g a + total (fun j => f j - g j) js
          = f a + total f js - (g a + total g js)).
  rewrite IH. lia.
Qed.

Lemma total_pos (f : job -> Z) (js : list job) :
  1 <= total f js -> exists k j, js !! k = Some j /\ 1 <= f j.
Proof.
  induction js as [| a js IH]; [cbn; lia |].
  change (1 <= f a + total f js -> exists k j, (a :: js) !! k = Some j /\ 1 <= f j).
  intros H. destruct (Z_le_gt_dec 1 (f a)) as [Ha | Ha].
  - exists 0%nat, a. auto.
  - destruct IH as (k & j & Hk & Hj); [lia |]. exists (S k), j. auto.
Qed.

(** A job that cannot move has returned, has raised, or waits for a
    semaphore that is not free. *)
Lemma job_moves (j : job) (w : world) :
  returned j = false -> failed j = false ->
  (forall sem, waits j = Some sem -> 0 < sem_value sem (fst w)) ->
  exists j' w', job_step j w = Some (j', w').
Proof.
  intros Hr Hf Hw. destruct w as [bf fs].
  destruct j as [[e p] | [e p]]; cbn [job_step]; cbn in Hr, Hf, Hw.
  - unfold thread_step. cbn [point elem fst snd].
    destruct p as [| | | | | idx | x rest | | | |]; try discriminate.
    + unfold acquire. cbn [fst snd sem_value].
      specialize (Hw ServiceQueue eq_refl). apply Z.ltb_lt in Hw. cbn in Hw. rewrite Hw.
      cbn. eauto.
    + unfold acquire. cbn [fst snd sem_value].
      specialize (Hw Resource eq_refl). apply Z.ltb_lt in Hw. cbn in Hw. rewrite Hw.
      cbn. eauto.
    + cbn. eauto.
    + destruct (load_metadata_cases bf fs) as [(s' & h' & _ & E) | (x & _ & E)];
        rewrite E; cbn; eauto.
    + eauto.
    + destruct idx as [| i rest]; [eauto |].
      pose proof (compute_hash_not_blocked bf (str e) i) as Hc.
      destruct (compute_hash bf (str e) i); [eauto | eauto | contradiction].
    + unfold bit_set. cbn [fst snd].
      pose proof (mmap_set_not_blocked (bit_array bf) x 1 fs) as Hc.
      destruct (mmap_set (bit_array bf) x 1 fs) as [[[] | ex |] fs1]; cbn in Hc |- *;
        [eauto | eauto | contradiction].
    + cbn. eauto.
    + cbn. eauto.
  - unfold reader_step. cbn [rpoint relem fst snd].
    destruct p; try discriminate.
    + unfold acquire. cbn [fst snd sem_value].
      specialize (Hw ServiceQueue eq_refl). apply Z.ltb_lt in Hw. cbn in Hw. rewrite Hw.
      cbn. eauto.
    + unfold acquire. cbn [fst snd sem_value].
      specialize (Hw Rmutex eq_refl). apply Z.ltb_lt in Hw. cbn in Hw. rewrite Hw.
      cbn. eauto.
    + cbn. eauto.
    + destruct (readcount bf =? 1); eauto.
    + unfold acquire. cbn [fst snd sem_value].
      specialize (Hw Resource eq_refl). apply Z.ltb_lt in Hw. cbn in Hw. rewrite Hw.
      cbn. eauto.
    + cbn. eauto.
    + cbn. eauto.
    + destruct (load_metadata_cases bf fs) as [(s' & h' & _ & E) | (x & _ & E)];
        rewrite E; cbn; eauto.
    + eauto.
    + destruct idx as [| i rest]; [eauto |].
      pose proof (compute_hash_not_blocked bf (str e) i) as Hc.
      destruct (compute_hash bf (str e) i); [eauto | eauto | contradiction].
    + unfold bit_get. cbn [fst snd].
      pose proof (mmap_get_not_blocked (bit_array bf) index fs) as Hc.
      destruct (mmap_get (bit_array bf) index fs) as [b | ex |];
        [destruct (b =? 1); eauto | eauto | contradiction].
    + unfold acquire. cbn [fst snd sem_value].
      specialize (Hw Rmutex eq_refl). apply Z.ltb_lt in Hw. cbn in Hw. rewrite Hw.
      cbn. eauto.
    + cbn. eauto.
    + destruct (readcount bf =? 0); eauto.
    + cbn. eauto.
    + cbn. eauto.
Qed.

Lemma total_member (f : job -> Z) (js : list job) (k : nat) (j : job) :
  (forall a, 0 <= f a) -> js !! k = Some j -> f j <= total f js.
Proof.
  intros Hf. revert k. induction js as [| a js IH]; intros k Hk; [discriminate Hk |].
  change (f j <= f a + total f js).
  pose proof (total_nonneg f js Hf) as N. pose proof (Hf a) as Na.
  destruct k as [| k].
  - injection Hk as ->. lia.
  - specialize (IH k Hk). lia.
Qed.

Section Progress.

Variables (js : list job) (bf : BloomFilter) (fs : filesystem).
Hypothesis inv_holds : rw_inv js bf.
Hypothesis none_failed : forall k j, js !! k = Some j -> failed j = false.

Lemma step_of (k : nat) (j : job) :
  js !! k = Some j ->
  returned j = false ->
  (forall sem, waits j = Some sem -> 0 < sem_value sem bf) ->
  can_step js (bf, fs).
Proof.
  intros Hk Hr Hw.
  destruct (job_moves j (bf, fs) Hr (none_failed k j Hk) Hw) as (j' & w' & E).
  exists k, j, j', w'. auto.
Qed.

Lemma resource_progress : resource bf = 0 -> can_step js (bf, fs).
Proof.
  intros Hres.
  destruct inv_holds as (Hrc & Hmx & Hmx0 & Hsv & Hsv0 & Hr0 & Hheld & Hfree & Hfirst & Hlast).
  destruct (Z_le_gt_dec 1 (total writing_job js)) as [Hw | Hw].
  { apply total_pos in Hw as (k & j & Hk & Hj).
    destruct j as [[e p] | [e p]]; [destruct p | destruct p]; settle Hk Hj none_failed step_of. }
  pose proof (total_nonneg writing_job js writing_job_nonneg) as Nw.
  destruct (Z_le_gt_dec 1 (total leaving js)) as [Hl | Hl].
  { apply total_pos in Hl as (k & j & Hk & Hj).
    destruct j as [[e p] | [e p]]; [destruct p | destruct p]; settle Hk Hj none_failed step_of. }
  assert (Hc0 : 1 <= total counted js - total entering js) by lia.
  assert (Hc : 1 <= total (fun j => counted j - entering j) js).
  { rewrite total_sub. exact Hc0. }
  apply total_pos in Hc as (k & j & Hk & Hj).
  destruct j as [[e p] | [e p]]; [destruct p | destruct p]; settle Hk Hj none_failed step_of.
  (* the reader is about to take [rmutex] for its exit *)
  destruct (Z_le_gt_dec 1 (rmutex bf)) as [Hm | Hm].
  { eapply step_of; [exact Hk | reflexivity |]. intros sem [= <-]. cbn. lia. }
  assert (Hin : 1 <= total in_mutex js) by lia.
  apply total_pos in Hin as (k2 & j2 & Hk2 & Hj2).
  destruct j2 as [[e2 p2] | [e2 p2]]; [destruct p2 | destruct p2]; settle Hk2 Hj2 none_failed step_of.
  exfalso.
  pose proof (total_member first_reader js k2 _ first_reader_nonneg Hk2) as F1.
  pose proof (total_member entering js k2 _ entering_nonneg Hk2) as F2.
  cbn in F1, F2.
  lia.
Qed.

Lemma mutex_progress : rmutex bf = 0 -> can_step js (bf, fs).
Proof.
  intros Hmut.
  destruct inv_holds as (Hrc & Hmx & Hmx0 & Hsv & Hsv0 & Hr0 & _).
  destruct (Z_le_gt_dec 1 (resource bf)) as [Hr | Hr];
    [| apply resource_progress; lia].
  assert (Hin : 1 <= total in_mutex js) by lia.
  apply total_pos in Hin as (k & j & Hk & Hj).
  destruct j as [[e p] | [e p]]; [destruct p | destruct p]; settle Hk Hj none_failed step_of.
  eapply step_of; [exact Hk | reflexivity |]. intros sem [= <-]. cbn. lia.
Qed.

Lemma service_progress : serviceQueue bf = 0 -> can_step js (bf, fs).
Proof.
  intros Hsvc.
  destruct inv_holds as (Hrc & Hmx & Hmx0 & Hsv & Hsv0 & Hr0 & _).
  destruct (Z_le_gt_dec 1 (resource bf)) as [Hr | Hr];
    [| apply resource_progress; lia].
  destruct (Z_le_gt_dec 1 (rmutex bf)) as [Hm | Hm];
    [| apply mutex_progress; lia].
  assert (Hin : 1 <= total at_gate js) by lia.
  apply total_pos in Hin as (k & j & Hk & Hj).
  destruct j as [[e p] | [e p]]; [destruct p | destruct p]; settle Hk Hj none_failed step_of;
    (eapply step_of; [exact Hk | reflexivity |]; intros sem [= <-]; cbn; lia).
Qed.

Lemma progress (k : nat) (j : job) :
  js !! k = Some j -> returned j = false -> can_step js (bf, fs).
Proof.
  intros Hk Hret.
  destruct inv_holds as (Hrc & Hmx & Hmx0 & Hsv & Hsv0 & Hr0 & _).
  destruct (Z_le_gt_dec 1 (resource bf)) as [Hr | Hr];
    [| apply resource_progress; lia].
  destruct (Z_le_gt_dec 1 (rmutex bf)) as [Hm | Hm];
    [| apply mutex_progress; lia].
  destruct (Z_le_gt_dec 1 (serviceQueue bf)) as [Hs | Hs];
    [| apply service_progress; lia].
  eapply step_of; [exact Hk | exact Hret |].
  intros [] _; cbn; lia.
Qed.

End Progress.

(** X22. No deadlock without an exception: however the steps of any number
    of [add_elem] and [check_member] calls on one idle object have been
    interleaved so far, if no call has raised and some call has not yet
    returned, then some call can take its next step. *)
Theorem no_deadlock (cs : list call) (bf : BloomFilter) (fs : filesystem)
    (sched : list nat) (st : rw_system) :
  idle bf ->
  rw_run sched (rw_spawn cs (bf, fs)) = Some st ->
  (forall k j, jobs st !! k = Some j -> failed j = false) ->
  (exists k j, jobs st !! k = Some j /\ returned j = false) ->
  exists k st', rw_step k st = Some st'.
Proof.
  intros Hidle Hrun Hnf (k & j & Hk & Hret).
  pose proof (rw_run_inv sched (rw_spawn cs (bf, fs)) st (rw_spawn_inv cs bf Hidle) Hrun)
    as Hinv.
  destruct st as [js [bf' fs']]. cbn [jobs rw_shared fst] in *.
  destruct (progress js bf' fs' Hinv Hnf k j Hk Hret) as (k' & j1 & j' & w' & Hk' & E).
  exists k'. unfold rw_step. cbn [jobs rw_shared]. rewrite Hk', E. eauto.
Qed.
(** * The further properties at the demo filter *)

Lemma add_elem_idempotent_witness :
  idle demo_bf /\
  add_elem (Int 1) (snd (add_elem (Int 1) (demo_bf, demo_fs)))
  = (Returned tt, snd (add_elem (Int 1) (demo_bf, demo_fs))).
Proof.
  split; [exact demo_idle |].
  apply (add_elem_idempotent (Int 1) demo_bf demo_fs demo_idle).
  vm_compute. reflexivity.
Defined.

Lemma add_elem_touches_its_cells_witness :
  mmap_get (bit_array demo_bf) 0 demo_fs = Returned 0 /\
  mmap_get (bit_array demo_bf) 0 (snd (snd (add_elem (Int 1) (demo_bf, demo_fs))))
  = Returned 0.
Proof.
  split; [vm_compute; reflexivity |].
  apply (add_elem_touches_its_cells (Int 1) demo_bf demo_fs 479 3 0 0 demo_idle).
  - vm_compute. reflexivity.
  - intros i Hi.
    vm_compute in Hi. destruct Hi as [<- | [<- | [<- | []]]]; vm_compute; discriminate.
  - vm_compute. reflexivity.
Defined.

Lemma add_elem_returns_or_leaks_witness :
  idle demo_bf /\
  fst (add_elem (Int 1) (demo_bf, demo_fs)) = Returned tt /\
  exists x, fst (add_elem (Int 1) (demo_bf, empty_fs)) = Raised x /\
            writer_inside (fst (snd (add_elem (Int 1) (demo_bf, empty_fs)))).
Proof.
  split; [exact demo_idle |]. split; [vm_compute; reflexivity |].
  destruct (add_elem_returns_or_leaks (Int 1) demo_bf empty_fs demo_idle)
    as [(H & _) | H]; [vm_compute in H; discriminate H | exact H].
Defined.

Lemma check_member_returns_or_leaks_witness :
  idle demo_bf /\
  exists r, fst (check_member (Int 1) (demo_bf, demo_fs)) = Returned r /\
            idle (fst (snd (check_member (Int 1) (demo_bf, demo_fs)))).
Proof.
  split; [exact demo_idle |].
  destruct (check_member_returns_or_leaks (Int 1) demo_bf demo_fs demo_idle)
    as [H | (x & H & _)]; [exact H | vm_compute in H; discriminate H].
Defined.

Lemma check_member_true_iff_witness :
  idle demo_bf /\
  fst (check_member (Int 2) (demo_bf, demo_fs)) = Returned false /\
  exists s h,
    metadata (meta_name demo_bf) demo_fs = Some (s, h) /\
    (false = true <->
     forall i, In i (range h) ->
       mmap_get (bit_array demo_bf) (position s (str (Int 2)) i) demo_fs = Returned 1).
Proof.
  split; [exact demo_idle |].
  assert (H : fst (check_member (Int 2) (demo_bf, demo_fs)) = Returned false)
    by (vm_compute; reflexivity).
  split; [exact H |].
  exact (check_member_true_iff (Int 2) demo_bf demo_fs false demo_idle H).
Defined.

Lemma added_elements_stay_witness :
  idle demo_bf /\
  fst (add_all [Int 1; Str "abc"] (demo_bf, demo_fs)) = Returned tt /\
  fst (check_member (Int 1) (snd (add_all [Int 1; Str "abc"] (demo_bf, demo_fs))))
  = Returned true.
Proof.
  split; [exact demo_idle |].
  assert (H : fst (add_all [Int 1; Str "abc"] (demo_bf, demo_fs)) = Returned tt)
    by (vm_compute; reflexivity).
  split; [exact H |].
  apply (added_elements_stay [Int 1; Str "abc"] demo_bf demo_fs (Int 1) demo_idle H).
  left. reflexivity.
Defined.

Lemma additions_commute_witness :
  idle demo_bf /\
  fst (add_all [Int 1; Str "abc"] (demo_bf, demo_fs)) = Returned tt /\
  fst (add_all [Str "abc"; Int 1] (demo_bf, demo_fs)) = Returned tt /\
  snd (snd (add_all [Str "abc"; Int 1] (demo_bf, demo_fs)))
  = snd (snd (add_all [Int 1; Str "abc"] (demo_bf, demo_fs))).
Proof.
  split; [exact demo_idle |].
  assert (H : fst (add_all [Int 1; Str "abc"] (demo_bf, demo_fs)) = Returned tt)
    by (vm_compute; reflexivity).
  split; [exact H |].
  exact (additions_commute [Int 1; Str "abc"] [Str "abc"; Int 1] demo_bf demo_fs
           demo_idle (perm_swap _ _ _) H).
Defined.

Lemma save_then_load_witness :
  filename shifted_bf = filename shifted_bf /\
  fst (save_metadata (shifted_bf, demo_fs)) = Returned tt /\
  load_metadata (shifted_bf, snd (snd (save_metadata (shifted_bf, demo_fs))))
  = (Returned tt, (set_params (size shifted_bf) (hash_count shifted_bf) shifted_bf,
                   snd (snd (save_metadata (shifted_bf, demo_fs))))).
Proof.
  split; [reflexivity |].
  exact (save_then_load shifted_bf shifted_bf demo_fs eq_refl).
Defined.

Lemma delete_removes_both_witness :
  fst (delete (demo_bf, demo_fs)) = Returned tt /\
  read_file (filename demo_bf) (snd (snd (delete (demo_bf, demo_fs)))) = None /\
  fst (delete (snd (delete (demo_bf, demo_fs)))) = Raised FileNotFoundError.
Proof.
  assert (H : fst (delete (demo_bf, demo_fs)) = Returned tt) by (vm_compute; reflexivity).
  split; [exact H |].
  destruct (delete_removes_both demo_bf demo_fs H) as (_ & Hf & _ & _ & _ & Hagain).
  split; [exact Hf | exact Hagain].
Defined.

Lemma delete_fails_halfway_witness :
  delete (demo_bf, empty_fs) = (Raised FileNotFoundError, (demo_bf, empty_fs)) /\
  fst (delete (shifted_bf, demo_fs)) = Raised FileNotFoundError /\
  read_file (filename shifted_bf) (snd (snd (delete (shifted_bf, demo_fs)))) = None.
Proof.
  split.
  - apply (proj1 (delete_fails_halfway demo_bf empty_fs)). vm_compute. reflexivity.
  - apply (proj2 (delete_fails_halfway shifted_bf demo_fs)).
    + vm_compute. discriminate.
    + vm_compute. reflexivity.
Defined.

Lemma add_blocks_after_raise_witness :
  writer_inside (writing demo_bf) /\
  fst (add_elem (Int 1) (writing demo_bf, demo_fs)) = Blocked /\
  fst (check_member (Int 1) (writing demo_bf, demo_fs)) = Blocked.
Proof.
  assert (H : writer_inside (writing demo_bf)) by (repeat split).
  split; [exact H |]. split.
  - apply (proj1 (add_blocks_after_raise (Int 1) (writing demo_bf) demo_fs)).
    left. exact H.
  - apply (proj2 (add_blocks_after_raise (Int 1) (writing demo_bf) demo_fs)). exact H.
Defined.



Lemma hash_count_at_least_one_witness :
  0 < 100 /\ (0 < 1 / 10 <= 38 / 100)%R /\
  2 * 100 <= derive_size 100 (1 / 10) /\
  1 <= derive_hash_count (derive_size 100 (1 / 10)) 100.
Proof.
  assert (Hn : 0 < 100) by lia.
  assert (Hp : (0 < 1 / 10 <= 38 / 100)%R) by lra.
  split; [exact Hn |]. split; [exact Hp |].
  exact (hash_count_at_least_one 100 (1 / 10) Hn Hp).
Defined.

Lemma new_filter_is_empty_witness :
  wf_fs empty_fs /\
  __init__ 100 (1 / 10) demo_path empty_fs = (Returned demo_bf, demo_fs) /\
  0 < hash_count demo_bf /\
  fst (check_member (Str "abc") (demo_bf, demo_fs)) = Returned false.
Proof.
  assert (Hh : 0 < hash_count demo_bf) by reflexivity.
  split; [exact empty_fs_wf |]. split; [exact demo_init |]. split; [exact Hh |].
  exact (new_filter_is_empty 100 (1 / 10) demo_path empty_fs demo_fs demo_bf (Str "abc")
           empty_fs_wf demo_init Hh).
Defined.

Lemma one_thread_witness :
  FCFS.service_queue FCFS.new = [] /\
  FCFS.release (snd (FCFS.acquire 5%nat FCFS.new)) = (Returned tt, FCFS.new) /\
  FCFS.release FCFS.new
  = (Blocked, {| FCFS.semaphore := 2; FCFS.service_queue := [] |}).
Proof.
  split; [reflexivity |].
  destruct (FCFSFacts.one_thread 5 FCFS.new eq_refl) as (Hpos & _ & _ & Hrel).
  split; [apply Hpos; reflexivity | exact Hrel].
Defined.

Lemma first_come_first_served_witness :
  exists st,
    FCFS.run FCFS.two_threads (FCFS.start 2) = Some st /\
    FCFS.admissions st = [0; 1]%nat /\
    (exists waiting, FCFS.arrivals st = FCFS.admissions st ++ waiting) /\
    (forall k, FCFS.pcs st !! k <> Some FCFS.Crashed).
Proof.
  destruct (FCFS.run FCFS.two_threads (FCFS.start 2)) as [st |] eqn:E;
    [| vm_compute in E; discriminate E].
  exists st. split; [reflexivity |].
  destruct (FCFSFacts.first_come_first_served 2 FCFS.two_threads st E) as (Hp & _ & Hc).
  split; [vm_compute in E; injection E as <-; reflexivity |].
  split; [exact Hp | exact Hc].
Defined.

Lemma readers_exclude_writers_witness :
  idle demo_bf /\
  exists st,
    rw_run (take 9 demo_mix) (rw_spawn demo_calls (demo_bf, demo_fs)) = Some st /\
    total reading_job (jobs st) = 1 /\
    total writing_job (jobs st) = 0 /\
    readcount (fst (rw_shared st)) = total counted (jobs st).
Proof.
  split; [exact demo_idle |].
  destruct (rw_run (take 9 demo_mix) (rw_spawn demo_calls (demo_bf, demo_fs)))
    as [st |] eqn:E; [| vm_compute in E; discriminate E].
  exists st. split; [reflexivity |].
  destruct (readers_exclude_writers demo_calls demo_bf demo_fs (take 9 demo_mix) st
              demo_idle E) as (_ & Hex & Hrc).
  assert (Hrd : total reading_job (jobs st) = 1).
  { vm_compute in E. injection E as <-. reflexivity. }
  split; [exact Hrd |]. split; [apply Hex; lia | exact Hrc].
Defined.

Lemma concurrent_check_finds_witness :
  idle demo_bf /\
  fst (add_elem (Int 7) (demo_bf, demo_fs)) = Returned tt /\
  exists st,
    rw_run demo_mix (rw_spawn demo_calls (snd (add_elem (Int 7) (demo_bf, demo_fs))))
    = Some st /\
    jobs st !! 1%nat = Some (Reader {| relem := Int 7; rpoint := RReturned true |}).
Proof.
  split; [exact demo_idle |].
  assert (Hadd : fst (add_elem (Int 7) (demo_bf, demo_fs)) = Returned tt)
    by (vm_compute; reflexivity).
  split; [exact Hadd |].
  destruct (rw_run demo_mix (rw_spawn demo_calls (snd (add_elem (Int 7) (demo_bf, demo_fs)))))
    as [st |] eqn:E; [| vm_compute in E; discriminate E].
  exists st. split; [reflexivity |].
  assert (Hk : exists res,
             jobs st !! 1%nat = Some (Reader {| relem := Int 7; rpoint := RReturned res |})).
  { vm_compute in E. injection E as <-. eexists. reflexivity. }
  destruct Hk as (res & Hk).
  destruct (concurrent_check_finds (Int 7) demo_calls demo_bf demo_fs demo_mix st 1 _
              demo_idle Hadd E Hk eq_refl) as (_ & Hres).
  rewrite Hk. rewrite (Hres res eq_refl). reflexivity.
Defined.

Lemma no_deadlock_witness :
  idle demo_bf /\
  exists st,
    rw_run (take 9 demo_mix) (rw_spawn demo_calls (demo_bf, demo_fs)) = Some st /\
    (forall k j, jobs st !! k = Some j -> failed j = false) /\
    exists k st', rw_step k st = Some st'.
Proof.
  split; [exact demo_idle |].
  destruct (rw_run (take 9 demo_mix) (rw_spawn demo_calls (demo_bf, demo_fs)))
    as [st |] eqn:E; [| vm_compute in E; discriminate E].
  exists st. split; [reflexivity |].
  assert (Hnf : forall k j, jobs st !! k = Some j -> failed j = false).
  { vm_compute in E. injection E as <-.
    intros [| [| k]] j Hj; [| | discriminate Hj]; injection Hj as <-; reflexivity. }
  split; [exact Hnf |].
  apply (no_deadlock demo_calls demo_bf demo_fs (take 9 demo_mix) st demo_idle E Hnf).
  exists 0%nat. vm_compute in E. injection E as <-. eexists. split; reflexivity.
Defined.
